(** * botbuilder-js: turn context, prompts and blob storage

    A shallow embedding of the parts of botbuilder-core, botbuilder-prompts
    and botbuilder-azure that the specification talks about:

    - [JS]: the fragment of the JavaScript object store the code relies on
      (values, truthiness, objects held by reference);
    - [Reference]: [TurnContext.getConversationReference] and
      [TurnContext.applyConversationReference] (turnContext.ts);
    - [Turn]: the [TurnContext] class with its interceptor chains;
    - [Prompt], [OAuth]: [createOAuthPrompt] (oauthPrompt.ts);
    - [Datetime]: [createDatetimePrompt] (datetimePrompt.ts);
    - [Blob]: [BlobStorage.sanitizeKey] and [BlobStorage.read]
      (blobStorage.js);
    - [Sample]: a few concrete stores and turns.

    The definitions come first; the properties, with the statements C1 to
    C10 of the specification, follow. *)

From Stdlib Require Import Ascii.
From stdpp Require Import gmap strings list fin_maps.

Local Open Scope string_scope.
Local Open Scope list_scope.
Local Open Scope nat_scope.

(* ===================================================================== *)
(** * The JavaScript object store *)
(* ===================================================================== *)

Module JS.

(** Objects live in a store and are held by reference; two variables that
    hold the same location are aliases. *)
Abbreviation loc := nat.

Inductive val :=
  | VUndefined
  | VBool (b : bool)
  | VString (s : string)
  | VRef (l : loc).

#[global] Instance val_eq_dec : EqDecision val.
Proof. solve_decision. Defined.

(** A plain object maps property names to values; an array is kept apart
    because the code asks [Array.isArray]. *)
Inductive obj :=
  | Obj (fields : gmap string val)
  | Arr (elems : list val).

#[global] Instance obj_eq_dec : EqDecision obj.
Proof. solve_decision. Defined.

Abbreviation heap := (list obj).

(** [if (v)], [v || w], [!v]: the empty string and [undefined] are falsy,
    every object is truthy. *)
Definition truthy (v : val) : bool :=
  match v with
  | VUndefined => false
  | VBool b => b
  | VString s => negb (String.eqb s "")
  | VRef _ => true
  end.

(** [a || b] *)
Definition or_else (a b : val) : val := if truthy a then a else b.

(** [typeof v === 'object'] *)
Definition is_object (v : val) : bool :=
  match v with VRef _ => true | _ => false end.

Definition fields_of (h : heap) (l : loc) : gmap string val :=
  match h !! l with
  | Some (Obj m) => m
  | _ => ∅
  end.

(** [o.f]: a property that is not there reads as [undefined]. *)
Definition get (h : heap) (l : loc) (f : string) : val :=
  default VUndefined (fields_of h l !! f).

(** [v.f] for a value that may or may not be an object. *)
Definition get_val (h : heap) (v : val) (f : string) : val :=
  match v with VRef l => get h l f | _ => VUndefined end.

(** [o.f = v]: updates the object in place, so every alias sees it. *)
Definition put (h : heap) (l : loc) (f : string) (v : val) : heap :=
  match h !! l with
  | Some (Obj m) => <[l := Obj (<[f := v]> m)]> h
  | _ => h
  end.

(** A new object gets the next unused location. *)
Definition alloc (h : heap) (o : obj) : loc * heap := (length h, h ++ [o]).

(** [Object.assign({}, o)] *)
Definition assign_empty (h : heap) (l : loc) : loc * heap :=
  alloc h (Obj (fields_of h l)).

(** [Array.isArray(v)] *)
Definition isArray (h : heap) (v : val) : bool :=
  match v with
  | VRef l => match h !! l with Some (Arr _) => true | _ => false end
  | _ => false
  end.

Definition elems_of (h : heap) (v : val) : list val :=
  match v with
  | VRef l => match h !! l with Some (Arr vs) => vs | _ => [] end
  | _ => []
  end.

(** [String(v)] for a value that is not an array: a plain object has no
    [toString] of its own. *)
Definition primitive_to_string (v : val) : string :=
  match v with
  | VUndefined => "undefined"
  | VBool true => "true"
  | VBool false => "false"
  | VString s => s
  | VRef _ => "[object Object]"
  end.

(** [parts.join(",")] for the strings of the elements. *)
Definition join_comma (parts : list string) : string :=
  match parts with
  | [] => ""
  | first :: rest => foldl (fun acc part => acc +:+ "," +:+ part) first rest
  end.

(** [String(o)] for the object at [l].  An array gives the strings of its
    elements joined by commas, [undefined] counting as the empty string and
    an array among the elements being joined in its turn; [visited] are the
    arrays whose join is under way, and an array met again inside its own
    join counts as the empty string (as Node has it).  No chain of nested
    arrays is longer than the store, which is the [fuel] given by
    [to_string]. *)
Fixpoint ref_to_string (fuel : nat) (h : heap) (visited : list loc) (l : loc)
    : string :=
  match h !! l with
  | Some (Arr vs) =>
      if bool_decide (l ∈ visited) then ""
      else
        match fuel with
        | 0 => ""
        | S fuel =>
            join_comma
              ((fun e => match e with
                         | VUndefined => ""
                         | VRef l' => ref_to_string fuel h (l :: visited) l'
                         | _ => primitive_to_string e
                         end) <$> vs)
        end
  | _ => "[object Object]"
  end.

(** [String(v)], as applied by [RegExp.prototype.exec] to its argument. *)
Definition to_string (h : heap) (v : val) : string :=
  match v with
  | VRef l => ref_to_string (length h) h [] l
  | _ => primitive_to_string v
  end.

(** An optional string, [s?: string], as a value. *)
Definition opt (s : option string) : val :=
  match s with Some s => VString s | None => VUndefined end.

(** [l] is a plain object of the store. *)
Definition is_obj (h : heap) (l : loc) : Prop := ∃ m, h !! l = Some (Obj m).

(** Two values are the same data: the same primitive, or references to
    objects with the same properties. *)
Definition same_data (h : heap) (v w : val) : Prop :=
  match v, w with
  | VRef l1, VRef l2 => h !! l1 = h !! l2
  | _, _ => v = w
  end.

(** The objects of [h] are the same in [h']. *)
Definition kept (h h' : heap) : Prop := ∀ l, l < length h → h' !! l = h !! l.

End JS.

Import JS.

(* ===================================================================== *)
(** * Conversation references (turnContext.ts) *)
(* ===================================================================== *)

Module Reference.

(** Modelled from the spec: [shallowCopy] is imported from ./internal, which
    is not among the sources; the spec calls its result a defensive copy.
    An object (or array) is copied into a new object, anything else is
    returned as it is. *)
Definition shallowCopy (h : heap) (v : val) : val * heap :=
  match v with
  | VRef l =>
      match h !! l with
      | Some o => let '(l', h') := alloc h o in (VRef l', h')
      | None => (v, h)
      end
  | _ => (v, h)
  end.

(** [TurnContext.getConversationReference(activity)].  The three copies and
    the reference itself are new objects; allocation leaves the objects
    already in the store as they are, so the activity is read in the store
    of entry. *)
Definition getConversationReference (h : heap) (activity : loc) : loc * heap :=
  let activityId := get h activity "id" in
  let '(user, h1) := shallowCopy h (get h activity "from") in
  let '(bot, h2) := shallowCopy h1 (get h activity "recipient") in
  let '(conversation, h3) := shallowCopy h2 (get h activity "conversation") in
  let channelId := get h activity "channelId" in
  let serviceUrl := get h activity "serviceUrl" in
  alloc h3 (Obj (<["activityId" := activityId]>
                (<["user" := user]>
                (<["bot" := bot]>
                (<["conversation" := conversation]>
                (<["channelId" := channelId]>
                (<["serviceUrl" := serviceUrl]> ∅))))))).

(** [TurnContext.applyConversationReference(activity, reference, isIncoming)]:
    every assignment writes into the activity object it was given, and that
    same object is returned. *)
Definition applyConversationReference
    (h : heap) (activity reference : loc) (isIncoming : bool) : loc * heap :=
  let h := put h activity "channelId" (get h reference "channelId") in
  let h := put h activity "serviceUrl" (get h reference "serviceUrl") in
  let h := put h activity "conversation" (get h reference "conversation") in
  if isIncoming then
    let h := put h activity "from" (get h reference "user") in
    let h := put h activity "recipient" (get h reference "bot") in
    let h := if truthy (get h reference "activityId")
             then put h activity "id" (get h reference "activityId") else h in
    (activity, h)
  else
    let h := put h activity "from" (get h reference "bot") in
    let h := put h activity "recipient" (get h reference "user") in
    let h := if truthy (get h reference "activityId")
             then put h activity "replyToId" (get h reference "activityId") else h in
    (activity, h).

(** [getConversationReference(applyConversationReference(activity2,
    getConversationReference(activity), isIncoming))]: the reference taken
    first, the reference taken last, and the final store. *)
Definition roundtrip (h : heap) (activity activity2 : loc) (isIncoming : bool)
    : loc * loc * heap :=
  let '(r1, h1) := getConversationReference h activity in
  let '(a2, h2) := applyConversationReference h1 activity2 r1 isIncoming in
  let '(r2, h3) := getConversationReference h2 a2 in
  (r1, r2, h3).

(** [v'] is what [shallowCopy] makes of [v], read in the store [h] of entry
    and the store [h'] of exit: the same data; [v] itself unless [v] is an
    object; and for an object of [h], a reference to an object that [h] did
    not have, with the properties of the old one. *)
Definition copied (h h' : heap) (v v' : val) : Prop :=
  same_data h' v' v ∧
  (is_object v = false → v' = v) ∧
  (∀ (l : loc) (o : obj), v = VRef l → h !! l = Some o →
     ∃ l' : loc, v' = VRef l' ∧ (length h ≤ l')%nat ∧ l' ≠ l ∧ h' !! l' = Some o).

End Reference.

Import Reference.

(* ===================================================================== *)
(** * The turn context (turnContext.ts) *)
(* ===================================================================== *)

Module Turn.

(** An [Error] is known by its message. *)
Abbreviation Error := string (only parsing).

(** How a call ends: with a promise that resolves, with a promise that
    rejects, or with an exception thrown before any promise is returned. *)
Inductive Outcome (A : Type) :=
  | Resolved (a : A)
  | Rejected (e : Error)
  | Thrown (e : Error).
Arguments Resolved {A} a.
Arguments Rejected {A} e.
Arguments Thrown {A} e.

(** [Promise.resolve(...)] inside [try { } catch (err) { return
    Promise.reject(err) }], and the callback of a [then]: an exception
    becomes a rejection. *)
Definition settle {A} (o : Outcome A) : Outcome A :=
  match o with
  | Thrown e => Rejected e
  | _ => o
  end.

Record ResourceResponse := { id : string }.

(** The adapter is the transport behind the context.  Its answers may depend
    on the activities as they are in the store when it is called.  The two
    token operations exist on some adapters only
    ([ 'getUserToken' in context.adapter ]). *)
Record BotAdapter := {
  adapter_sendActivities : heap → list loc → Outcome (list ResourceResponse);
  adapter_updateActivity : heap → loc → Outcome unit;
  adapter_deleteActivity : heap → loc → Outcome unit;
  adapter_getUserToken : option (heap → string → val → Outcome val);
  adapter_signOutUser : option (heap → string → Outcome unit)
}.

(** What can be observed of a turn from outside, in order of occurrence:
    the side effects of interceptors and the calls made to the adapter, each
    with the way it ended. *)
Inductive Event :=
  | Logged (label : string)
  | TransportSend (activities : list loc) (outcome : Outcome (list ResourceResponse))
  | TransportUpdate (activity : loc) (outcome : Outcome unit)
  | TransportDelete (reference : loc) (outcome : Outcome unit)
  | TokenRequest (connectionName : string) (code : val) (outcome : Outcome val)
  | SignOut (connectionName : string) (outcome : Outcome unit).

(** The body of an interceptor, [(context, arg, next) => ...], as the
    sequence of things it does with what it is given: it may produce an
    observable effect, read and assign [context.responded], read and write
    properties of objects, await [next()] (and see how it ended), and in the
    end returns or throws.  Awaiting is sequential: what follows
    [CallNext] runs once the rest of the chain has settled.  An interceptor
    gets its argument by value, and does not call back into the methods of
    the context other than the accessors of [responded]. *)
Inductive Action (R : Type) :=
  | Return (r : R)
  | Throw (e : Error)
  | Effect (label : string) (k : Action R)
  | ReadResponded (k : bool → Action R)
  | WriteResponded (value : bool) (k : Action R)
  | GetProperty (l : loc) (f : string) (k : val → Action R)
  | SetProperty (l : loc) (f : string) (v : val) (k : Action R)
  | CallNext (k : Outcome R → Action R).
Arguments Return {R} r.
Arguments Throw {R} e.
Arguments Effect {R} label k.
Arguments ReadResponded {R} k.
Arguments WriteResponded {R} value k.
Arguments GetProperty {R} l f k.
Arguments SetProperty {R} l f v k.
Arguments CallNext {R} k.

Abbreviation SendActivitiesHandler := (list loc → Action (list ResourceResponse)).
Abbreviation UpdateActivityHandler := (loc → Action unit).
Abbreviation DeleteActivityHandler := (loc → Action unit).

(** The private members of the class.  [_respondedRef] stands for the
    [responded] property of the object of that name; [_services], a map the
    class hands out and never reads, is left out. *)
Record TurnContext := {
  _adapter : BotAdapter;
  _activity : loc;
  _respondedRef : bool;
  _onSendActivities : list SendActivitiesHandler;
  _onUpdateActivity : list UpdateActivityHandler;
  _onDeleteActivity : list DeleteActivityHandler
}.

(** [new TurnContext(adapter, request)] *)
Definition new (adapter : BotAdapter) (request : loc) : TurnContext :=
  {| _adapter := adapter; _activity := request; _respondedRef := false;
     _onSendActivities := []; _onUpdateActivity := []; _onDeleteActivity := [] |}.

(** A turn in progress: the context, the object store, and what has been
    observed so far. *)
Record World := {
  context : TurnContext;
  store : heap;
  log : list Event
}.

Definition with_store (w : World) (h : heap) : World :=
  {| context := context w; store := h; log := log w |}.

Definition add_events (w : World) (events : list Event) : World :=
  {| context := context w; store := store w; log := log w ++ events |}.

Definition with_event (w : World) (e : Event) : World := add_events w [e].

Definition with_context (w : World) (c : TurnContext) : World :=
  {| context := c; store := store w; log := log w |}.

(** A method of the context: it ends in some way and leaves a world. *)
Definition M (A : Type) := World → Outcome A * World.

Definition ret {A} (a : A) : M A := fun w => (Resolved a, w).

Definition bind {A B} (m : M A) (f : A → M B) : M B := fun w =>
  match m w with
  | (Resolved a, w') => f a w'
  | (Rejected e, w') => (Rejected e, w')
  | (Thrown e, w') => (Thrown e, w')
  end.

(** [p.then(f)]: as [bind], and an exception in [f] rejects the promise. *)
Definition and_then {A B} (p : M A) (f : A → M B) : M B := fun w =>
  match p w with
  | (Resolved a, w') => let '(o, w'') := f a w' in (settle o, w'')
  | (Rejected e, w') => (Rejected e, w')
  | (Thrown e, w') => (Thrown e, w')
  end.

(** [get adapter()], [get activity()], [get responded()] *)
Definition adapter (w : World) : BotAdapter := _adapter (context w).
Definition activity (w : World) : loc := _activity (context w).
Definition responded (w : World) : bool := _respondedRef (context w).

(** [set responded(value)] *)
Definition set_responded (value : bool) : M unit := fun w =>
  if negb value
  then (Thrown "TurnContext: cannot set 'responded' to a value of 'false'.", w)
  else (Resolved tt,
        with_context w
          {| _adapter := _adapter (context w);
             _activity := _activity (context w);
             _respondedRef := true;
             _onSendActivities := _onSendActivities (context w);
             _onUpdateActivity := _onUpdateActivity (context w);
             _onDeleteActivity := _onDeleteActivity (context w) |}).

(** Running the body of an interceptor against the world, with [next] the
    continuation it was handed. *)
Fixpoint run {R} (a : Action R) (next : M R) (w : World) : Outcome R * World :=
  match a with
  | Return r => (Resolved r, w)
  | Throw e => (Thrown e, w)
  | Effect label k => run k next (with_event w (Logged label))
  | ReadResponded k => run (k (responded w)) next w
  | WriteResponded value k =>
      match set_responded value w with
      | (Resolved _, w') => run k next w'
      | (Rejected e, w') => (Thrown e, w')
      | (Thrown e, w') => (Thrown e, w')
      end
  | GetProperty l f k => run (k (get (store w) l f)) next w
  | SetProperty l f v k => run k next (with_store w (put (store w) l f v))
  | CallNext k => let '(o, w') := next w in run (k o) next w'
  end.

(** [emitNext(i)] of [emit], with [list] the handlers from index [i] on:
    past the end it calls [next]; otherwise it calls handler [i] with the
    continuation [() => emitNext(i + 1)].  Either way the result is a
    promise: what is thrown is caught and rejected. *)
Fixpoint emitNext {T R} (list : list (T → Action R)) (arg : T) (next : M R)
    : M R :=
  match list with
  | [] => fun w => let '(o, w') := next w in (settle o, w')
  | handler :: rest => fun w =>
      let '(o, w') := run (handler arg) (emitNext rest arg next) w in
      (settle o, w')
  end.

(** [emit(handlers, arg, next)]: the chain runs over a copy of the handler
    list taken at the call ([handlers.slice()]). *)
Definition emit {T R} (handlers : list (T → Action R)) (arg : T) (next : M R)
    : M R :=
  let list := handlers in
  emitNext list arg next.

(** Modelled from the spec: [ActivityTypes] comes from botframework-schema,
    which is not among the sources; the spec names the types message and
    event. *)
Definition ActivityTypes_Message : string := "message".
Definition ActivityTypes_Event : string := "event".

(** The callback of [activities.map] in [sendActivities]: a copy of the
    activity, addressed from the reference, of type message by default. *)
Definition stamp (h : heap) (ref a : loc) : loc * heap :=
  let '(o, h) := assign_empty h a in
  let '(o, h) := applyConversationReference h o ref false in
  let h := if negb (truthy (get h o "type"))
           then put h o "type" (VString ActivityTypes_Message) else h in
  (o, h).

Fixpoint stamp_all (h : heap) (ref : loc) (activities : list loc)
    : list loc * heap :=
  match activities with
  | [] => ([], h)
  | a :: rest =>
      let '(o, h) := stamp h ref a in
      let '(os, h) := stamp_all h ref rest in
      (o :: os, h)
  end.

(** The last link of the send chain: the call to the adapter, and on
    success the responded flag. *)
Definition transport_send (output : list loc) : M (list ResourceResponse) :=
  and_then
    (fun w =>
       let outcome := adapter_sendActivities (adapter w) (store w) output in
       (outcome, with_event w (TransportSend output outcome)))
    (fun responses => bind (set_responded true) (fun _ => ret responses)).

(** The first two statements of [sendActivities]: the reference of the
    inbound activity, and the activities to send made from it. *)
Definition prepare (activities : list loc) (w : World) : list loc * World :=
  let '(ref, h) := getConversationReference (store w) (activity w) in
  let '(output, h) := stamp_all h ref activities in
  (output, with_store w h).

(** [sendActivities(activities)] *)
Definition sendActivities (activities : list loc) : M (list ResourceResponse) :=
  fun w =>
    let '(output, w) := prepare activities w in
    emit (_onSendActivities (context w)) output (transport_send output) w.

(** [sendActivity(activityOrText, speak, inputHint)] *)
Definition sendActivity (activityOrText : string + loc)
    (speak inputHint : option string) : M (option ResourceResponse) := fun w =>
  let '(a, h) :=
    match activityOrText with
    | inl text =>
        let '(a, h) := alloc (store w) (Obj (<["text" := VString text]> ∅)) in
        let h := match speak with
                 | Some s => if truthy (VString s)
                             then put h a "speak" (VString s) else h
                 | None => h
                 end in
        let h := match inputHint with
                 | Some s => if truthy (VString s)
                             then put h a "inputHint" (VString s) else h
                 | None => h
                 end in
        (a, h)
    | inr a => (a, store w)
    end in
  and_then (sendActivities [a]) (fun responses => ret (head responses))
           (with_store w h).

(** [updateActivity(activity)] *)
Definition updateActivity (a : loc) : M unit := fun w =>
  emit (_onUpdateActivity (context w)) a
    (fun w =>
       let outcome := adapter_updateActivity (adapter w) (store w) a in
       (outcome, with_event w (TransportUpdate a outcome))) w.

(** [deleteActivity(idOrReference)] *)
Definition deleteActivity (idOrReference : string + loc) : M unit := fun w =>
  let '(reference, h) :=
    match idOrReference with
    | inl id =>
        let '(reference, h) := getConversationReference (store w) (activity w) in
        (reference, put h reference "activityId" (VString id))
    | inr reference => (reference, store w)
    end in
  let w := with_store w h in
  emit (_onDeleteActivity (context w)) reference
    (fun w =>
       let outcome := adapter_deleteActivity (adapter w) (store w) reference in
       (outcome, with_event w (TransportDelete reference outcome))) w.

(** [onSendActivities(handler)], [onUpdateActivity(handler)],
    [onDeleteActivity(handler)]: the handler goes to the end of its list. *)
Definition onSendActivities (handler : SendActivitiesHandler) (w : World) : World :=
  with_context w
    {| _adapter := _adapter (context w);
       _activity := _activity (context w);
       _respondedRef := _respondedRef (context w);
       _onSendActivities := _onSendActivities (context w) ++ [handler];
       _onUpdateActivity := _onUpdateActivity (context w);
       _onDeleteActivity := _onDeleteActivity (context w) |}.

Definition onUpdateActivity (handler : UpdateActivityHandler) (w : World) : World :=
  with_context w
    {| _adapter := _adapter (context w);
       _activity := _activity (context w);
       _respondedRef := _respondedRef (context w);
       _onSendActivities := _onSendActivities (context w);
       _onUpdateActivity := _onUpdateActivity (context w) ++ [handler];
       _onDeleteActivity := _onDeleteActivity (context w) |}.

Definition onDeleteActivity (handler : DeleteActivityHandler) (w : World) : World :=
  with_context w
    {| _adapter := _adapter (context w);
       _activity := _activity (context w);
       _respondedRef := _respondedRef (context w);
       _onSendActivities := _onSendActivities (context w);
       _onUpdateActivity := _onUpdateActivity (context w);
       _onDeleteActivity := _onDeleteActivity (context w) ++ [handler] |}.

(** The operations a bot can perform on a context, and what each does to
    the world. *)
Inductive Operation :=
  | OpSetResponded (value : bool)
  | OpSendActivity (activityOrText : string + loc) (speak inputHint : option string)
  | OpSendActivities (activities : list loc)
  | OpUpdateActivity (a : loc)
  | OpDeleteActivity (idOrReference : string + loc)
  | OpOnSendActivities (handler : SendActivitiesHandler)
  | OpOnUpdateActivity (handler : UpdateActivityHandler)
  | OpOnDeleteActivity (handler : DeleteActivityHandler).

Definition perform (op : Operation) (w : World) : World :=
  match op with
  | OpSetResponded value => (set_responded value w).2
  | OpSendActivity a speak inputHint => (sendActivity a speak inputHint w).2
  | OpSendActivities activities => (sendActivities activities w).2
  | OpUpdateActivity a => (updateActivity a w).2
  | OpDeleteActivity idOrReference => (deleteActivity idOrReference w).2
  | OpOnSendActivities handler => onSendActivities handler w
  | OpOnUpdateActivity handler => onUpdateActivity handler w
  | OpOnDeleteActivity handler => onDeleteActivity handler w
  end.

(** ** Shapes of interceptors *)

(** [labels] as effects, one after the other, before [k]. *)
Definition effects {R} (labels : list string) (k : Action R) : Action R :=
  foldr Effect k labels.

(** An interceptor with logic before and after [await next()], returning
    what [next()] resolved to; if [next()] fails, so does the interceptor
    at the [await]. *)
Definition around {T R} (before after : list string) : T → Action R :=
  fun _ =>
    effects before
      (CallNext (fun o =>
         match o with
         | Resolved r => effects after (Return r)
         | Rejected e => Throw e
         | Thrown e => Throw e
         end)).

(** An interceptor that never invokes [next()]. *)
Inductive no_next {R} : Action R → Prop :=
  | no_next_Return r : no_next (Return r)
  | no_next_Throw e : no_next (Throw e)
  | no_next_Effect label k : no_next k → no_next (Effect label k)
  | no_next_ReadResponded k :
      (∀ b, no_next (k b)) → no_next (ReadResponded k)
  | no_next_WriteResponded value k :
      no_next k → no_next (WriteResponded value k)
  | no_next_GetProperty l f k :
      (∀ v, no_next (k v)) → no_next (GetProperty l f k)
  | no_next_SetProperty l f v k :
      no_next k → no_next (SetProperty l f v k).

(** A send that the adapter acknowledged. *)
Definition is_sent (e : Event) : bool :=
  match e with
  | TransportSend _ (Resolved _) => true
  | _ => false
  end.

(** A continuation for an interceptor that is known not to use it. *)
Definition unused {A} : M A := fun w => (Thrown "next() is not invoked", w).

(** The labels logged before [next()] by a list of [around] interceptors,
    and after it: the last interceptor's come first. *)
Definition befores (hs : list (list string * list string)) : list Event :=
  Logged <$> concat (fst <$> hs).

Definition afters (hs : list (list string * list string)) : list Event :=
  Logged <$> concat (snd <$> reverse hs).

Definition arounds {T R} (hs : list (list string * list string))
    : list (T → Action R) :=
  (fun p => around p.1 p.2) <$> hs.

(** From [w] to [w']: the log only grows, the responded flag does not go
    back to false, and it is true if a send was acknowledged in between. *)
Definition advances (w w' : World) : Prop :=
  ∃ events, log w' = log w ++ events ∧
    (responded w = true → responded w' = true) ∧
    (existsb is_sent events = true → responded w' = true).

End Turn.

(* ===================================================================== *)
(** * Prompts (botbuilder-prompts) *)
(* ===================================================================== *)

Module Prompt.
Import Turn.

(** The optional validator of a prompt, [validator?: PromptValidator<I, O>]:
    without one the recognized value is the result ([value as any]); with
    one the result is whatever the validator makes of it, and the validator
    may use the context. *)
Inductive Validator (I : Type) : Type → Type :=
  | NoValidator : Validator I I
  | WithValidator {O : Type} (f : I → M O) : Validator I O.
Arguments NoValidator {I}.
Arguments WithValidator {I O} f.

(** [validator ? validator(context, value) : value] *)
Definition validated {I O} (validator : Validator I O) (value : I) : M O :=
  match validator in Validator _ T return M T with
  | NoValidator => ret value
  | WithValidator f => f value
  end.

(** Modelled from the spec: [sendPrompt] is imported from ./internal, which
    is not among the sources; by the spec a prompt renders its question by
    sending the prompt activity through the turn context. *)
Definition sendPrompt (prompt : string + loc) : M unit :=
  and_then (sendActivity prompt None None) (fun _ => ret tt).

End Prompt.

(** ** The OAuth prompt (oauthPrompt.ts) *)

Module OAuth.
Import Turn Prompt.

Record OAuthPromptSettings := {
  connectionName : string;
  title : string;
  text : option string
}.

(** Modelled from the spec: [CardFactory] and [MessageFactory] are not among
    the sources.  The card is the spec's sign-in affordance: an attachment
    marked with the content type of OAuth cards, holding the connection
    name, the title of the button and the optional text; the message is an
    activity of type message with that one attachment. *)
Definition contentTypes_oauthCard : string := "application/vnd.microsoft.card.oauth".

Definition CardFactory_oauthCard (h : heap) (connectionName title : string)
    (text : option string) : loc * heap :=
  let '(content, h) :=
    alloc h (Obj (<["connectionName" := VString connectionName]>
                 (<["title" := VString title]>
                 (<["text" := opt text]> ∅)))) in
  alloc h (Obj (<["contentType" := VString contentTypes_oauthCard]>
               (<["content" := VRef content]> ∅))).

Definition MessageFactory_attachment (h : heap) (attachment : loc) : loc * heap :=
  let '(attachments, h) := alloc h (Arr [VRef attachment]) in
  alloc h (Obj (<["type" := VString ActivityTypes_Message]>
               (<["attachments" := VRef attachments]> ∅))).

(** The TypeError of reading [contentType] of [undefined], by the message
    Node gives it. *)
Definition TypeError_contentType : Error :=
  "Cannot read property 'contentType' of undefined".

(** [elems.filter(a => a.contentType === CardFactory.contentTypes.oauthCard)]:
    the callback is applied to the elements from the first on, and reading
    [contentType] of an element that is [undefined] throws; of any other
    value that is not an object it gives [undefined]. *)
Fixpoint filter_cards (h : heap) (elems : list val) : Error + list val :=
  match elems with
  | [] => inr []
  | a :: rest =>
      match a with
      | VUndefined => inl TypeError_contentType
      | _ =>
          match filter_cards h rest with
          | inl e => inl e
          | inr found =>
              inr (if decide (get_val h a "contentType"
                              = VString contentTypes_oauthCard)
                   then a :: found else found)
          end
      end
  end.

(** [prompt.attachments.filter(a => a.contentType ===
    CardFactory.contentTypes.oauthCard)] *)
Definition oauth_cards (h : heap) (attachments : val) : Error + list val :=
  filter_cards h (elems_of h attachments).

(** ['getUserToken' in context.adapter] *)
Definition has_getUserToken (w : World) : bool :=
  bool_decide (is_Some (adapter_getUserToken (adapter w))).

Definition has_signOutUser (w : World) : bool :=
  bool_decide (is_Some (adapter_signOutUser (adapter w))).

(** [adapter.getUserToken(context, connectionName, code)] *)
Definition adapter_call_getUserToken (connectionName : string) (code : val)
    : M val := fun w =>
  match adapter_getUserToken (adapter w) with
  | Some getUserToken =>
      let outcome := getUserToken (store w) connectionName code in
      (outcome, with_event w (TokenRequest connectionName code outcome))
  | None => (Thrown "adapter.getUserToken is not a function", w)
  end.

(** [adapter.signOutUser(context, connectionName)] *)
Definition adapter_call_signOutUser (connectionName : string) : M unit := fun w =>
  match adapter_signOutUser (adapter w) with
  | Some signOutUser =>
      let outcome := signOutUser (store w) connectionName in
      (outcome, with_event w (SignOut connectionName outcome))
  | None => (Thrown "adapter.signOutUser is not a function", w)
  end.

(** [\d] *)
Definition is_digit (c : Ascii.ascii) : bool :=
  (48 <=? Ascii.nat_of_ascii c) && (Ascii.nat_of_ascii c <=? 57).

(** [\d{n}] at the start of [s]. *)
Fixpoint take_digits (n : nat) (s : string) : option string :=
  match n with
  | 0 => Some ""
  | S n' =>
      match s with
      | String c rest =>
          if is_digit c then String c <$> take_digits n' rest else None
      | EmptyString => None
      end
  end.

(** [/(\d{6})/.exec(s)], reduced to the text of the group: the first six
    digits in a row from the left, if there are any. *)
Fixpoint exec_six_digits (s : string) : option string :=
  match take_digits 6 s with
  | Some code => Some code
  | None =>
      match s with
      | String _ rest => exec_six_digits rest
      | EmptyString => None
      end
  end.

(** [isTokenResponseEvent(context)] *)
Definition isTokenResponseEvent (w : World) : bool :=
  bool_decide (get (store w) (activity w) "type" = VString ActivityTypes_Event)
  && bool_decide (get (store w) (activity w) "name" = VString "tokens/response").

(** [try { ... } catch (err) { return Promise.reject(err) }] *)
Definition rejecting {A} (m : M A) : M A := fun w =>
  let '(o, w') := m w in (settle o, w').

Section prompt.
Context {O : Type} (settings : OAuthPromptSettings) (validator : Validator val O).

(** [prompt(context, prompt)] *)
Definition prompt (prompt : val) : M unit :=
  rejecting (fun w =>
    if negb (has_getUserToken w)
    then (Thrown "OAuthPrompt.prompt(): not supported for the current adapter.", w)
    else
      match prompt with
      | VRef p =>
          if negb (isArray (store w) (get (store w) p "attachments"))
          then (Thrown "OAuthPrompt.prompt(): supplied prompt missing attachments.", w)
          else
            match oauth_cards (store w) (get (store w) p "attachments") with
            | inl e => (Thrown e, w)
            | inr found =>
                if length found =? 0
                then (Thrown "OAuthPrompt.prompt(): supplied prompt missing OAuthCard.", w)
                else sendPrompt (inr p) w
            end
      | _ =>
          let '(card, h) :=
            CardFactory_oauthCard (store w) (connectionName settings)
                                  (title settings) (text settings) in
          let '(p, h) := MessageFactory_attachment h card in
          sendPrompt (inr p) (with_store w h)
      end).

(** The first callback of [recognize]: where the token comes from. *)
Definition token_source : M val := fun w =>
  if isTokenResponseEvent w
  then ret (get (store w) (activity w) "value") w
  else if bool_decide (get (store w) (activity w) "type"
                      = VString ActivityTypes_Message)
  then
    match exec_six_digits
            (to_string (store w) (get (store w) (activity w) "text")) with
    | Some code => adapter_call_getUserToken (connectionName settings) (VString code) w
    | None => ret VUndefined w
    end
  else ret VUndefined w.

(** [recognize(context)] *)
Definition recognize : M O := fun w =>
  if negb (has_getUserToken w)
  then (Thrown "OAuthPrompt.recognize(): not supported for the current adapter.", w)
  else
    and_then (and_then (ret tt) (fun _ => token_source))
             (fun value => validated validator value) w.

(** [getUserToken(context)] *)
Definition getUserToken : M O := fun w =>
  if negb (has_getUserToken w)
  then (Thrown "OAuthPrompt.getUserToken(): not supported for the current adapter.", w)
  else
    and_then (adapter_call_getUserToken (connectionName settings) VUndefined)
             (fun value => validated validator value) w.

(** [signOutUser(context)] *)
Definition signOutUser : M unit := fun w =>
  if negb (has_signOutUser w)
  then (Thrown "OAuthPrompt.signOutUser(): not supported for the current adapter.", w)
  else adapter_call_signOutUser (connectionName settings) w.

End prompt.

(** [text] has six digits in a row at its start, and they are [code]. *)
Definition starts_with_code (text code : string) : Prop :=
  ∃ post, text = code +:+ post ∧
          String.length code = 6 ∧
          forallb is_digit (String.list_ascii_of_string code) = true.

(** [code] is the first run of six digits of [text] from the left. *)
Definition first_six_digits (text code : string) : Prop :=
  ∃ pre rest, text = pre +:+ rest ∧ starts_with_code rest code ∧
    ∀ pre' rest' code',
      text = pre' +:+ rest' → String.length pre' < String.length pre →
      ¬ starts_with_code rest' code'.

(** [text] has no six digits in a row. *)
Definition no_six_digits (text : string) : Prop :=
  ∀ pre rest code, text = pre +:+ rest → ¬ starts_with_code rest code.


(** The attachments of the prompt activity [p] are all there: none of
    them is [undefined]. *)
Definition attachments_defined (h : heap) (p : loc) : Prop :=
  VUndefined ∉ elems_of h (get h p "attachments").

(** No attachment of the prompt activity [p] is a sign-in card. *)
Definition no_oauth_card (h : heap) (p : loc) : Prop :=
  ∀ a, a ∈ elems_of h (get h p "attachments") →
       get_val h a "contentType" ≠ VString contentTypes_oauthCard.

(** The prompt activity [p] carries a sign-in card. *)
Definition has_oauth_card (h : heap) (p : loc) : Prop :=
  isArray h (get h p "attachments") = true ∧
  ∃ a, a ∈ elems_of h (get h p "attachments") ∧
       get_val h a "contentType" = VString contentTypes_oauthCard.

End OAuth.

(** ** The date and time prompt (datetimePrompt.ts) *)

Module Datetime.
Import Turn Prompt.

Record FoundDatetime := {
  timex : string;
  type : string;
  value : string
}.

(** What the recognizer returns for each candidate, as far as the prompt
    looks at it: [resolution], and in it [values]. *)
Record Resolution := { values : option (list FoundDatetime) }.
Record ModelResult := { resolution : option Resolution }.

Section prompt.
(** [Recognizers.recognizeDateTime(utterance, locale)], of the package
    @microsoft/recognizers-text-date-time. *)
Variable recognizeDateTime : string → string → list ModelResult.
Context {O : Type} (validator : Validator (option (list FoundDatetime)) O).
Variable defaultLocale : option string.

(** [prompt(context, prompt, speak)]: delegated to [sendPrompt]. *)
Definition prompt (prompt : string + loc) : M unit := sendPrompt prompt.

(** [results.length > 0 && results[0].resolution ?
     results[0].resolution.values : undefined] *)
Definition first_values (results : list ModelResult)
    : option (list FoundDatetime) :=
  match results with
  | first :: _ =>
      match resolution first with
      | Some r => values r
      | None => None
      end
  | [] => None
  end.

(** [recognize(context)].  The activity of a context is an object, so
    [context.activity || {}] is the activity. *)
Definition recognize : M O := fun w =>
  let request := activity w in
  let utterance := or_else (get (store w) request "text") (VString "") in
  let locale :=
    or_else (or_else (get (store w) request "locale") (opt defaultLocale))
            (VString "en-us") in
  let results := recognizeDateTime (to_string (store w) utterance)
                                   (to_string (store w) locale) in
  let values := first_values results in
  validated validator values w.

End prompt.

(** A locale counts as set when it is there and is not the empty string
    (the source chains the candidates with [||]). *)
Definition given (s : option string) : option string :=
  match s with
  | Some s => if String.eqb s "" then None else Some s
  | None => None
  end.

(** The locale by the spec's words: that of the activity if set, else the
    configured default, else the fixed fallback. *)
Definition chosen_locale (activityLocale defaultLocale : option string) : string :=
  match given activityLocale with
  | Some l => l
  | None =>
      match given defaultLocale with
      | Some d => d
      | None => "en-us"
      end
  end.

(** The candidate value by the spec's words: the values of the first
    result when there is one and it has a resolution, absent otherwise. *)
Inductive candidate : list ModelResult → option (list FoundDatetime) → Prop :=
  | candidate_none : candidate [] None
  | candidate_unresolved first rest :
      resolution first = None → candidate (first :: rest) None
  | candidate_resolved first rest r :
      resolution first = Some r → candidate (first :: rest) (values r).

End Datetime.

(* ===================================================================== *)
(** * Blob storage (blobStorage.js) *)
(* ===================================================================== *)

Module Blob.

(** What becomes of a promise once everything that can run has run: it was
    resolved with a value, rejected with an error, or neither and it stays
    pending for ever. *)
Inductive Promise (A : Type) :=
  | Pending
  | Fulfilled (a : A)
  | Failed (e : string).
Arguments Pending {A}.
Arguments Fulfilled {A} a.
Arguments Failed {A} e.

(** [p.then(f)] where [f] returns a promise. *)
Definition and_then {A B} (p : Promise A) (f : A → Promise B) : Promise B :=
  match p with
  | Pending => Pending
  | Fulfilled a => f a
  | Failed e => Failed e
  end.

(** [Promise.all(ps)] is rejected as soon as one of [ps] is, so with the
    error of the promise that is rejected first.  What comes first is not
    in what becomes of the promises: [settled i] is the time at which
    promise [i] of the list is settled (of two with the same time, the
    one that is earlier in the list counts as first).  [first_rejection]
    gives the time and error of the rejection that comes first among
    [ps], whose first element has index [i]. *)
Fixpoint first_rejection {A} (settled : nat → nat) (i : nat)
    (ps : list (Promise A)) : option (nat * string) :=
  match ps with
  | [] => None
  | p :: rest =>
      let later := first_rejection settled (S i) rest in
      match p with
      | Failed e =>
          match later with
          | Some (t, _) => if t <? settled i then later else Some (settled i, e)
          | None => Some (settled i, e)
          end
      | _ => later
      end
  end.

(** The values of [ps] in the order of the list, if all are fulfilled. *)
Fixpoint values_of {A} (ps : list (Promise A)) : option (list A) :=
  match ps with
  | [] => Some []
  | Fulfilled a :: rest => cons a <$> values_of rest
  | _ => None
  end.

(** [Promise.all(ps)]: rejected if one of [ps] is, fulfilled with the values
    in the order of the list if all are fulfilled, and pending else. *)
Definition all {A} (settled : nat → nat) (ps : list (Promise A))
    : Promise (list A) :=
  match first_rejection settled 0 ps with
  | Some (_, e) => Failed e
  | None =>
      match values_of ps with
      | Some l => Fulfilled l
      | None => Pending
      end
  end.

(** ** [sanitizeKey] *)

(** [key.split('/')] *)
Fixpoint split_slash (key : string) : list string :=
  match key with
  | EmptyString => [EmptyString]
  | String c rest =>
      if Ascii.eqb c "/"%char then EmptyString :: split_slash rest
      else match split_slash rest with
           | first :: others => String c first :: others
           | [] => [String c EmptyString]
           end
  end.

(** [l.splice(start)]: what is removed, and what is left in [l]. *)
Definition splice {A} (l : list A) (start : nat) : list A * list A :=
  (drop start l, take start l).

(** [l.reduce((acc, curr, index) => f(acc, curr, index), init)] *)
Fixpoint reduce {A B} (f : B → A → nat → B) (l : list A) (index : nat) (acc : B) : B :=
  match l with
  | [] => acc
  | curr :: rest => reduce f rest (S index) (f acc curr index)
  end.

(** Modelled from the spec: [escape] is that of Node's querystring module,
    which is not among the sources; by the comment at its call it escapes
    reserved URL characters.  Letters, digits and [- _ . ! ~ * ' ( )] stay;
    any other byte of the key (read as UTF-8) becomes [%XX]. *)
Definition unreserved (c : Ascii.ascii) : bool :=
  let n := Ascii.nat_of_ascii c in
  ((65 <=? n) && (n <=? 90)) || ((97 <=? n) && (n <=? 122)) ||
  ((48 <=? n) && (n <=? 57)) ||
  bool_decide (n ∈ [45; 95; 46; 33; 126; 42; 39; 40; 41]).

Definition hex_digit (n : nat) : Ascii.ascii :=
  Ascii.ascii_of_nat (if n <? 10 then 48 + n else 55 + n).

Definition escape_char (c : Ascii.ascii) : string :=
  if unreserved c then String c EmptyString
  else String "%"%char
        (String (hex_digit (Ascii.nat_of_ascii c / 16))
        (String (hex_digit (Ascii.nat_of_ascii c mod 16)) EmptyString)).

Fixpoint escape (s : string) : string :=
  match s with
  | EmptyString => EmptyString
  | String c rest => escape_char c +:+ escape rest
  end.

(** Reading one escaped character back, with what follows it. *)
Definition unhex (c : Ascii.ascii) : option nat :=
  let n := Ascii.nat_of_ascii c in
  if (48 <=? n) && (n <=? 57) then Some (n - 48)
  else if (65 <=? n) && (n <=? 70) then Some (n - 55)
  else None.

Definition unescape_char (s : string) : option (Ascii.ascii * string) :=
  match s with
  | String c rest =>
      if Ascii.eqb c "%"%char then
        match rest with
        | String h (String l rest') =>
            match unhex h, unhex l with
            | Some a, Some b => Some (Ascii.ascii_of_nat (16 * a + b), rest')
            | _, _ => None
            end
        | _ => None
        end
      else Some (c, rest)
  | EmptyString => None
  end.

(** [sanitizeKey(key)]: the blob name, or the message of the error thrown. *)
Definition sanitizeKey (key : string) : string + string :=
  if String.eqb key "" || (String.length key <? 1)
  then inl "Please provide a not empty key."
  else
    let segments := split_slash key in
    let '(removed, segments) := splice segments 0 in
    let base := default "" (head removed) in
    let validKey :=
      reduce (fun acc curr index =>
                acc +:+ (if index <? 255 then "/" else "") +:+ curr)
             segments 0 base in
    inr (String.substring 0 1024 (escape validKey)).

Definition has_slash (key : string) : bool :=
  existsb (fun c => Ascii.eqb c "/"%char) (String.list_ascii_of_string key).

(** ** [read] *)

Record ContainerResult := { container_name : string }.
Record BlobMetadata := { container : string; name : string; etag : string }.
Record StoreItem := { content : string; eTag : string }.
Record Document := { realId : string; document : StoreItem }.

(** The promisified blob service, as far as [read] uses it. *)
Record BlobService := {
  createContainerIfNotExistsAsync : string → Promise ContainerResult;
  getBlobMetadataAsync : string → string → Promise BlobMetadata;
  getBlobToTextAsync : string → string → Promise string
}.

(** [checkedCollections] is a plain object, [{}]: under a name that it
    does not have as a property of its own it finds what every object
    inherits from [Object.prototype].  These are the names inherited (in
    Node); under each is a function, and under [__proto__] the prototype
    itself: truthy, and not a promise. *)
Definition Object_prototype : list string :=
  [ "constructor"; "__defineGetter__"; "__defineSetter__"; "hasOwnProperty";
    "__lookupGetter__"; "__lookupSetter__"; "isPrototypeOf";
    "propertyIsEnumerable"; "toString"; "valueOf"; "__proto__";
    "toLocaleString" ].

(** What [ensureContainerExists] returns: a promise kept in
    [checkedCollections], or what the object inherits under that name. *)
Inductive Container :=
  | Promised (p : Promise ContainerResult)
  | Inherited (name : string).

(** The message of the TypeError of calling [then] on what is not a
    promise, as Node gives it. *)
Definition TypeError_then : string :=
  "this.ensureContainerExists(...).then is not a function".

Section storage.
Variable client : BlobService.
(** [JSON.parse] followed by the accesses [document.document] and
    [document.realId]; [None] when one of them throws. *)
Variable parse : string → option Document.
(** [settings.containerName] *)
Variable containerName : string.
(** The times at which the promises handed to [Promise.all] are settled,
    by their place in the array. *)
Variable settled : nat → nat.

(** [ensureContainerExists()], over the module-level [checkedCollections],
    given by the properties of its own.  A promise is truthy. *)
Definition ensureContainerExists
    (checkedCollections : gmap string (Promise ContainerResult))
    : Container * gmap string (Promise ContainerResult) :=
  let key := containerName in
  match checkedCollections !! key with
  | Some p => (Promised p, checkedCollections)
  | None =>
      if bool_decide (key ∈ Object_prototype)
      then (Inherited key, checkedCollections)
      else
        let p := createContainerIfNotExistsAsync client key in
        (Promised p, <[key := p]> checkedCollections)
  end.

(** The promise made for one key: [resolve(document)], [resolve(null)] when
    a call to the service fails, and no call of [resolve] at all when the
    text does not parse. *)
Definition read_one (container : ContainerResult) (key : string)
    : Promise (option Document) :=
  match getBlobMetadataAsync client (container_name container) key with
  | Pending => Pending
  | Failed _ => Fulfilled None
  | Fulfilled blobMetadata =>
      match getBlobToTextAsync client (Blob.container blobMetadata)
                               (name blobMetadata) with
      | Pending => Pending
      | Failed _ => Fulfilled None
      | Fulfilled result =>
          match parse result with
          | Some doc =>
              Fulfilled (Some {| realId := realId doc;
                                 document := {| content := content (document doc);
                                                eTag := etag blobMetadata |} |})
          | None => Pending
          end
      end
  end.

(** [items.filter(x => x).forEach(item => storeItems[item.realId] =
    item.document)]: the properties that [storeItems], a plain object,
    has of its own in the end.  An assignment under the name [__proto__]
    goes to the setter that every object inherits, and adds no property. *)
Definition store_items (items : list (option Document)) : gmap string StoreItem :=
  foldl (fun storeItems item =>
           match item with
           | Some d =>
               if String.eqb (realId d) "__proto__" then storeItems
               else <[realId d := document d]> storeItems
           | None => storeItems
           end) ∅ items.

(** The promise made in the callback of [ensureContainerExists().then]:
    [resolve] is called only for a non-empty array of items, and [reject]
    never. *)
Definition read_items (container : ContainerResult) (sanitizedKeys : list string)
    : Promise (gmap string StoreItem) :=
  match all settled (read_one container <$> sanitizedKeys) with
  | Fulfilled items =>
      if 0 <? length items then Fulfilled (store_items items) else Pending
  | _ => Pending
  end.

(** [keys.filter(k => k).map(key => this.sanitizeKey(key))] *)
Fixpoint sanitize_all (keys : list string) : string + list string :=
  match keys with
  | [] => inr []
  | key :: rest =>
      match sanitizeKey key, sanitize_all rest with
      | inl e, _ => inl e
      | _, inl e => inl e
      | inr k, inr ks => inr (k :: ks)
      end
  end.

(** [read(keys)], with [None] for a missing [keys]: the error thrown, or
    the promise returned; and the cache of containers afterwards. *)
Definition read (keys : option (list string))
    (checkedCollections : gmap string (Promise ContainerResult))
    : (string + Promise (gmap string StoreItem))
      * gmap string (Promise ContainerResult) :=
  match keys with
  | None =>
      (inl "Please provide at least one key to read from storage.",
       checkedCollections)
  | Some keys =>
      match sanitize_all (filter (fun k => k ≠ "") keys) with
      | inl e => (inl e, checkedCollections)
      | inr sanitizedKeys =>
          let '(found, checkedCollections) :=
            ensureContainerExists checkedCollections in
          match found with
          | Promised p =>
              (inr (and_then p (fun container => read_items container sanitizedKeys)),
               checkedCollections)
          | Inherited _ => (inl TypeError_then, checkedCollections)
          end
      end
  end.

End storage.

End Blob.

(** ** Blob storage: the constructor, [write] and [delete] (blobStorage.js) *)

Module BlobWrite.
Import Blob.

(** *** [ContainerNameCheck] *)

(** [[a-z0-9]] and [[a-z0-9-]] *)
Definition lower_alnum (c : Ascii.ascii) : bool :=
  let n := Ascii.nat_of_ascii c in
  ((97 <=? n) && (n <=? 122)) || ((48 <=? n) && (n <=? 57)).

Definition name_char (c : Ascii.ascii) : bool :=
  lower_alnum c || (Ascii.nat_of_ascii c =? 45).

(** [.]: any character but a line terminator. *)
Definition dot (c : Ascii.ascii) : bool :=
  negb (Ascii.nat_of_ascii c =? 10) && negb (Ascii.nat_of_ascii c =? 13).

(** [.*--] matched at the start of [s]: either the two dashes are here, or
    [.] takes one character and the match goes on. *)
Fixpoint any_then_dashes (s : list Ascii.ascii) : bool :=
  match s with
  | c :: rest =>
      match s with
      | c1 :: c2 :: _ => (Ascii.nat_of_ascii c1 =? 45) && (Ascii.nat_of_ascii c2 =? 45)
      | _ => false
      end
      || (dot c && any_then_dashes rest)
  | [] => false
  end.

(** [[a-z0-9-]{min,max}[a-z0-9]$] matched at the start of [s]: either one
    more repetition of the class (if [max] allows), or (if [min] is
    reached) the last character and the end of the input. *)
Fixpoint name_chars_then_last (min max : nat) (s : list Ascii.ascii) {struct s}
    : bool :=
  match s with
  | c :: rest =>
      match max with
      | S max' => name_char c && name_chars_then_last (pred min) max' rest
      | 0 => false
      end
      || ((min =? 0) && lower_alnum c && bool_decide (rest = []))
  | [] => false
  end.

(** [ContainerNameCheck.test(s)] for
    [^[a-z0-9](?!.*--)[a-z0-9-]{1,61}[a-z0-9]$] *)
Definition ContainerNameCheck_test (s : list Ascii.ascii) : bool :=
  match s with
  | c :: rest =>
      lower_alnum c && negb (any_then_dashes rest) &&
      name_chars_then_last 1 61 rest
  | [] => false
  end.

(** [checkContainerName(container)] *)
Definition checkContainerName (container : string) : bool :=
  ContainerNameCheck_test (String.list_ascii_of_string container).

(** *** The constructor *)

Record BlobStorageSettings := {
  containerName : string;
  storageAccountOrConnectionString : string;
  storageAccessKey : string;
  host : string
}.

Section construction.
(** The client type, and [azure.createBlobService(...).withFilter(...)]
    wrapped by [denodeify]: the client, or the error the library throws. *)
Context {Client : Type}.
Variable azure_createBlobService : string → string → string → string + Client.

Record BlobStorage := {
  settings : BlobStorageSettings;
  client : Client;
  useEmulator : bool
}.

(** [createBlobService(storageAccountOrConnectionString, storageAccessKey, host)] *)
Definition createBlobService (account key host : string) : string + Client :=
  if String.eqb account ""
  then inl "The storageAccountOrConnectionString parameter is required."
  else azure_createBlobService account key host.

(** [new BlobStorage(settings)], with [None] for a missing [settings]: the
    error thrown, or the object made. *)
Definition new (settings : option BlobStorageSettings) : string + BlobStorage :=
  match settings with
  | None => inl "The settings parameter is required."
  | Some settings =>
      if String.eqb (containerName settings) ""
      then inl "The containerName is required."
      else if negb (checkContainerName (containerName settings))
      then inl "Invalid container name."
      else
        match createBlobService (storageAccountOrConnectionString settings)
                                (storageAccessKey settings) (host settings) with
        | inl e => inl e
        | inr client =>
            inr {| settings := settings;
                   client := client;
                   useEmulator :=
                     String.eqb (storageAccountOrConnectionString settings)
                                "UseDevelopmentStorage=true;" |}
        end
  end.

End construction.

(** *** [ResolvePromisesSerial] and [ResolvePromisesParallel] *)

(** A call to the service: it changes the state [S] of the service when it
    is made, and returns a promise, here what becomes of that promise. *)
Definition Call (S A : Type) := S → Promise A * S.

(** [values.map(promise)]: the calls are made one after the other, each
    returning its promise at once. *)
Fixpoint issue {S V R} (promise : V → Call S R) (values : list V)
    : S → list (Promise R) * S := fun s =>
  match values with
  | [] => ([], s)
  | value :: rest =>
      let '(p, s) := promise value s in
      let '(ps, s) := issue promise rest s in
      (p :: ps, s)
  end.

(** [ResolvePromisesParallel(values, promise)], with the times at which
    the promises of the calls are settled. *)
Definition ResolvePromisesParallel {S V R} (settled : nat → nat)
    (values : list V) (promise : V → Call S R) : Call S (list R) := fun s =>
  let '(ps, s) := issue promise values s in
  (all settled ps, s).

(** [ResolvePromisesSerial(values, promise)]: the reduction starts from
    [Promise.resolve([])]; the call for a value is made in the [then] of
    the promise reduced so far, so only once that is fulfilled, and its
    result is added to the results so far ([concat]; a result is not an
    array). *)
Definition ResolvePromisesSerial {S V R} (values : list V)
    (promise : V → Call S R) : Call S (list R) :=
  foldl (fun (reduced : Call S (list R)) value s =>
           let '(p, s) := reduced s in
           match p with
           | Fulfilled result =>
               let '(q, s) := promise value s in
               (and_then q (fun r => Fulfilled (result ++ [r])), s)
           | Pending => (Pending, s)
           | Failed e => (Failed e, s)
           end)
        (fun s => (Fulfilled [], s)) values.

(** *** [write] and [delete] *)

(** What [write] hands to [createBlockBlobFromTextAsync] for one change:
    the name of the blob, its text, and the etag of the access condition
    ([generateIfMatchCondition(changes[key].eTag)]). *)
Record BlockBlob := {
  blob_id : string;
  data : string;
  ifMatch : string
}.

(** The promisified blob service, as far as [write] and [delete] use it. *)
Record BlobWriter (S : Type) := {
  createBlockBlobFromTextAsync : string → BlockBlob → Call S unit;
  deleteBlobIfExistsAsync : string → string → Call S bool
}.
Arguments createBlockBlobFromTextAsync {S} _ _ _.
Arguments deleteBlobIfExistsAsync {S} _ _ _.

Section storage.
Context {S : Type}.
Variable client : BlobService.
Variable writer : BlobWriter S.
(** [JSON.stringify({ id, realId, document })] *)
Variable stringify : string → string → StoreItem → string.
Variable containerName : string.
Variable useEmulator : bool.
(** The times at which the promises handed to [Promise.all] are settled,
    by their place in the array. *)
Variable settled : nat → nat.

(** [Object.keys(changes).map(key => ...)], over the entries of [changes] in
    the order of [Object.keys]: the blobs to write, or the error that
    [sanitizeKey] throws. *)
Fixpoint blobs_of (changes : list (string * StoreItem)) : string + list BlockBlob :=
  match changes with
  | [] => inr []
  | (key, item) :: rest =>
      match sanitizeKey key with
      | inl e => inl e
      | inr id =>
          match blobs_of rest with
          | inl e => inl e
          | inr blobs =>
              inr ({| blob_id := id; data := stringify id key item;
                      ifMatch := eTag item |} :: blobs)
          end
      end
  end.

(** [write(changes)], with [None] for missing [changes]: the error thrown,
    or the promise returned; the cache of containers and the state of the
    service afterwards. *)
Definition write (changes : option (list (string * StoreItem)))
    (checkedCollections : gmap string (Promise ContainerResult)) (s : S)
    : (string + Promise unit) * gmap string (Promise ContainerResult) * S :=
  match changes with
  | None =>
      (inl "Please provide a StoreItems with changes to persist.",
       checkedCollections, s)
  | Some changes =>
      let '(found, checkedCollections) :=
        ensureContainerExists client containerName checkedCollections in
      match found with
      | Promised (Fulfilled container) =>
          match blobs_of changes with
          | inl e => (inr (Failed e), checkedCollections, s)
          | inr blobs =>
              let promise := fun blob =>
                createBlockBlobFromTextAsync writer (container_name container) blob in
              let '(results, s) :=
                if useEmulator then ResolvePromisesSerial blobs promise s
                else ResolvePromisesParallel settled blobs promise s in
              (inr (and_then results (fun _ => Fulfilled tt)),
               checkedCollections, s)
          end
      | Promised Pending => (inr Pending, checkedCollections, s)
      | Promised (Failed e) => (inr (Failed e), checkedCollections, s)
      | Inherited _ => (inl TypeError_then, checkedCollections, s)
      end
  end.

(** [delete(keys)], with [None] for missing [keys]. *)
Definition delete (keys : option (list string))
    (checkedCollections : gmap string (Promise ContainerResult)) (s : S)
    : (string + Promise unit) * gmap string (Promise ContainerResult) * S :=
  match keys with
  | None =>
      (inl "Please provide at least one key to delete from storage.",
       checkedCollections, s)
  | Some keys =>
      match sanitize_all (filter (fun k => k ≠ "") keys) with
      | inl e => (inl e, checkedCollections, s)
      | inr sanitizedKeys =>
          let '(found, checkedCollections) :=
            ensureContainerExists client containerName checkedCollections in
          match found with
          | Promised (Fulfilled container) =>
              let '(ps, s) :=
                issue (fun key =>
                         deleteBlobIfExistsAsync writer (container_name container) key)
                      sanitizedKeys s in
              (inr (and_then (all settled ps) (fun _ => Fulfilled tt)),
               checkedCollections, s)
          | Promised Pending => (inr Pending, checkedCollections, s)
          | Promised (Failed e) => (inr (Failed e), checkedCollections, s)
          | Inherited _ => (inl TypeError_then, checkedCollections, s)
          end
      end
  end.

End storage.

End BlobWrite.

(** Sample store: an inbound activity (location 3) with its three account
    objects, and an outbound activity under construction (location 4). *)
Module Sample.

Definition account (id name : string) : obj :=
  Obj (<["id" := VString id]> (<["name" := VString name]> ∅)).

Definition inbound : obj :=
  Obj (<["id" := VString "act1"]>
      (<["from" := VRef 0]>
      (<["recipient" := VRef 1]>
      (<["conversation" := VRef 2]>
      (<["channelId" := VString "emulator"]>
      (<["serviceUrl" := VString "https://example.test"]> ∅)))))).

Definition store0 : heap :=
  [ account "user1" "User"; account "bot1" "Bot"; account "conv1" "Conv";
    inbound; Obj (<["text" := VString "hi"]> ∅) ].

(** A reference written by hand, already in the store at location 5. *)
Definition store1 : heap :=
  store0 ++ [ Obj (<["activityId" := VString ""]>
                  (<["user" := VRef 0]>
                  (<["bot" := VRef 1]>
                  (<["conversation" := VRef 2]>
                  (<["channelId" := VString "emulator"]>
                  (<["serviceUrl" := VString "https://example.test"]> ∅)))))) ].

(** A turn whose inbound activity is the message "Your code is 482913";
    the token the adapter gives for that code is the object at location 6. *)
Definition code_message : obj :=
  Obj (<["type" := VString "message"]>
      (<["text" := VString "Your code is 482913"]>
      (<["from" := VRef 0]>
      (<["recipient" := VRef 1]>
      (<["conversation" := VRef 2]> ∅))))).

Definition code_store : heap :=
  [ account "user1" "User"; account "bot1" "Bot"; account "conv1" "Conv";
    code_message; Obj ∅; Obj ∅;
    Obj (<["connectionName" := VString "GitConnection"]>
        (<["token" := VString "t0k3n"]> ∅)) ].

Definition settings : OAuth.OAuthPromptSettings :=
  {| OAuth.connectionName := "GitConnection";
     OAuth.title := "Login To GitHub";
     OAuth.text := None |}.

(** An adapter that acknowledges every activity with the id "r", and can
    exchange the magic code 482913 for a token object kept at location 6. *)
Definition adapter : Turn.BotAdapter :=
  {| Turn.adapter_sendActivities := fun _ activities =>
       Turn.Resolved ((fun _ => {| Turn.id := "r" |}) <$> activities);
     Turn.adapter_updateActivity := fun _ _ => Turn.Resolved tt;
     Turn.adapter_deleteActivity := fun _ _ => Turn.Resolved tt;
     Turn.adapter_getUserToken := Some (fun _ _ code =>
       Turn.Resolved (if decide (code = VString "482913") then VRef 6 else VUndefined));
     Turn.adapter_signOutUser := Some (fun _ _ => Turn.Resolved tt) |}.

(** An adapter without the token operations. *)
Definition plain_adapter : Turn.BotAdapter :=
  {| Turn.adapter_sendActivities := fun _ activities =>
       Turn.Resolved ((fun _ => {| Turn.id := "r" |}) <$> activities);
     Turn.adapter_updateActivity := fun _ _ => Turn.Resolved tt;
     Turn.adapter_deleteActivity := fun _ _ => Turn.Resolved tt;
     Turn.adapter_getUserToken := None;
     Turn.adapter_signOutUser := None |}.

(** The turn for the inbound activity at location 3, as it starts. *)
Definition world0 : Turn.World :=
  {| Turn.context := Turn.new adapter 3; Turn.store := store0; Turn.log := [] |}.

(** A key of [n] letters a, then [last]. *)
Definition long_key (n : nat) (last : string) : string :=
  Nat.iter n (String "a"%char) last.

(** A blob service in which the container exists and no blob does. *)
Definition empty_service : Blob.BlobService :=
  {| Blob.createContainerIfNotExistsAsync := fun name =>
       Blob.Fulfilled {| Blob.container_name := name |};
     Blob.getBlobMetadataAsync := fun _ _ => Blob.Failed "BlobNotFound";
     Blob.getBlobToTextAsync := fun _ _ => Blob.Failed "BlobNotFound" |}.

(** A blob service that cannot make the container. *)
Definition failing_service : Blob.BlobService :=
  {| Blob.createContainerIfNotExistsAsync := fun _ =>
       Blob.Failed "ContainerNotCreated";
     Blob.getBlobMetadataAsync := fun _ _ => Blob.Failed "BlobNotFound";
     Blob.getBlobToTextAsync := fun _ _ => Blob.Failed "BlobNotFound" |}.

(** A turn whose inbound activity is the message "tomorrow at 3pm" in
    locale en-us, and a recognizer that knows this one phrase. *)
Definition datetime_store : heap :=
  [ account "user1" "User"; account "bot1" "Bot"; account "conv1" "Conv";
    Obj (<["type" := VString "message"]>
        (<["text" := VString "tomorrow at 3pm"]>
        (<["locale" := VString "en-us"]> ∅))) ].

Definition datetime_world : Turn.World :=
  {| Turn.context := Turn.new plain_adapter 3;
     Turn.store := datetime_store; Turn.log := [] |}.

Definition tomorrow_3pm : Datetime.FoundDatetime :=
  {| Datetime.timex := "2018-03-02T15";
     Datetime.type := "datetime";
     Datetime.value := "2018-03-02 15:00:00" |}.

Definition recognizer (utterance locale : string) : list Datetime.ModelResult :=
  if bool_decide (utterance = "tomorrow at 3pm" ∧ locale = "en-us")
  then [ {| Datetime.resolution :=
              Some {| Datetime.values := Some [tomorrow_3pm] |} |} ]
  else [].

(** The same turn with the text "asdf". *)
Definition asdf_world : Turn.World :=
  {| Turn.context := Turn.new plain_adapter 0;
     Turn.store := [ Obj (<["type" := VString "message"]>
                         (<["text" := VString "asdf"]> ∅)) ];
     Turn.log := [] |}.

Definition code_world : Turn.World :=
  {| Turn.context := Turn.new adapter 3; Turn.store := code_store; Turn.log := [] |}.

(** The same turn for the message "call 1234567890 now", and for a message
    whose text is the array ["482913"], kept at location 7. *)
Definition message (text : val) : obj :=
  Obj (<["type" := VString "message"]>
      (<["text" := text]>
      (<["from" := VRef 0]>
      (<["recipient" := VRef 1]>
      (<["conversation" := VRef 2]> ∅))))).


Definition array_text_world : Turn.World :=
  {| Turn.context := Turn.new adapter 3;
     Turn.store := <[3 := message (VRef 7)]> code_store ++ [Arr [VString "482913"]];
     Turn.log := [] |}.

(** Prompt activities: at location 9 one whose only attachment is a hero
    card, at location 12 one whose attachments are [undefined] and a
    sign-in card. *)
Definition prompt_store : heap :=
  code_store ++
  [ Obj (<["contentType" := VString "application/vnd.microsoft.card.hero"]> ∅);
    Arr [VRef 7];
    Obj (<["type" := VString "message"]> (<["attachments" := VRef 8]> ∅));
    Obj (<["contentType" := VString OAuth.contentTypes_oauthCard]> ∅);
    Arr [VUndefined; VRef 10];
    Obj (<["type" := VString "message"]> (<["attachments" := VRef 11]> ∅)) ].

Definition prompt_world : Turn.World :=
  {| Turn.context := Turn.new adapter 3; Turn.store := prompt_store; Turn.log := [] |}.

End Sample.

(* ===================================================================== *)
(** * Vocabulary for the further properties *)
(* ===================================================================== *)

Module Spec.
Import Turn.

(** The properties that [sendActivities] writes into each copy it sends. *)
Definition stamped_fields : list string :=
  ["channelId"; "serviceUrl"; "conversation"; "from"; "recipient";
   "replyToId"; "type"].

(** [o], in the store [h'], is the activity [a] of the store [h] made ready
    for sending with the reference [ref] of [h]: addressed from the
    reference as an outgoing activity, of type message unless [a] says
    otherwise, and like [a] in every other property. *)
Definition stamped_as (h : heap) (ref a : loc) (h' : heap) (o : loc) : Prop :=
  get h' o "channelId" = get h ref "channelId" ∧
  get h' o "serviceUrl" = get h ref "serviceUrl" ∧
  get h' o "conversation" = get h ref "conversation" ∧
  get h' o "from" = get h ref "bot" ∧
  get h' o "recipient" = get h ref "user" ∧
  get h' o "replyToId" =
    (if truthy (get h ref "activityId") then get h ref "activityId"
     else get h a "replyToId") ∧
  get h' o "type" =
    (if truthy (get h a "type") then get h a "type"
     else VString ActivityTypes_Message) ∧
  ∀ f, f ∉ stamped_fields → get h' o f = get h a f.

(** [v'], in [h'], is a separate copy of [v] whenever [v] is an object of
    [h]. *)
(** An optional argument as the property it becomes under [if (s) { a.f = s }]:
    set when the argument is there and is not the empty string. *)
Definition when_given (s : option string) : val :=
  match s with
  | Some s => if decide (s = "") then VUndefined else VString s
  | None => VUndefined
  end.

(** An interceptor that runs its logic, awaits [next()], and then throws,
    however [next()] ended. *)
Definition failing_after {T R} (before : list string) (e : Error) : T → Action R :=
  fun _ => effects before (CallNext (fun _ => Throw e)).

(** The method [m] does not see the change [F] of the world: made before
    the call or after it, the result is the same. *)
Definition commutes (F : World → World) {A} (m : M A) : Prop :=
  ∀ w, m (F w) = ((m w).1, F (m w).2).

(** The part of a key before its first '/': the whole key if it has none. *)
Fixpoint before_slash (key : string) : string :=
  match key with
  | EmptyString => EmptyString
  | String c rest =>
      if Ascii.eqb c "/"%char then EmptyString else String c (before_slash rest)
  end.

(** The blob name of a key that is not empty. *)
Definition blob_name (key : string) : string :=
  String.substring 0 1024 (Blob.escape (before_slash key)).

(** A container name by the rules the pattern stands for: 3 to 63
    characters, each a lowercase letter, a digit or a dash; the first and
    the last not a dash; no two dashes in a row. *)
Definition valid_container_name (s : list Ascii.ascii) : Prop :=
  3 ≤ length s ∧ length s ≤ 63 ∧
  Forall (fun c => BlobWrite.name_char c = true) s ∧
  (∃ c, head s = Some c ∧ c ≠ "-"%char) ∧
  (∃ c, last s = Some c ∧ c ≠ "-"%char) ∧
  ¬ ∃ pre post, s = pre ++ "-"%char :: "-"%char :: post.

(** [ResolvePromisesSerial] by recursion on the values: with [result] the
    results so far, the next call is made, and the calls after it only if
    it is fulfilled. *)
Fixpoint serial_from {S V R} (promise : V → BlobWrite.Call S R)
    (result : list R) (values : list V) (s : S) : Blob.Promise (list R) * S :=
  match values with
  | [] => (Blob.Fulfilled result, s)
  | value :: rest =>
      match promise value s with
      | (Blob.Fulfilled r, s) => serial_from promise (result ++ [r]) rest s
      | (Blob.Pending, s) => (Blob.Pending, s)
      | (Blob.Failed e, s) => (Blob.Failed e, s)
      end
  end.

(** The blob that [write] makes of one change with a key that is not
    empty. *)
Definition blob_of (stringify : string → string → Blob.StoreItem → string)
    (change : string * Blob.StoreItem) : BlobWrite.BlockBlob :=
  {| BlobWrite.blob_id := blob_name change.1;
     BlobWrite.data := stringify (blob_name change.1) change.1 change.2;
     BlobWrite.ifMatch := Blob.eTag change.2 |}.

(** An interceptor that sets the property [f] of every outgoing activity
    to [v], awaits [next()] and returns what it resolved to. *)
Definition rewriting (f : string) (v : val) : SendActivitiesHandler :=
  fun output =>
    foldr (fun o k => SetProperty o f v k)
          (CallNext (fun o =>
             match o with
             | Resolved r => Return r
             | Rejected e | Thrown e => Throw e
             end))
          output.

Definition copy_of (h : heap) (v : val) (h' : heap) (v' : val) : Prop :=
  ∀ (l : loc) (obj : JS.obj), v = VRef l → h !! l = Some obj →
    ∃ l' : loc, v' = VRef l' ∧ l' ≠ l ∧ h' !! l' = Some obj.

End Spec.

(** Further sample data. *)
Module Fixture.
Import Blob.

(** A blob service in which the container exists and holds one blob,
    "user1", with etag "v7". *)
Definition one_blob_service : BlobService :=
  {| createContainerIfNotExistsAsync := fun name =>
       Fulfilled {| container_name := name |};
     getBlobMetadataAsync := fun c n =>
       if String.eqb n "user1"
       then Fulfilled {| container := c; name := n; etag := "v7" |}
       else Failed "BlobNotFound";
     getBlobToTextAsync := fun c n =>
       if String.eqb n "user1" then Fulfilled "{user1}" else Failed "BlobNotFound" |}.

(** The text of that blob parses to a document stored for the key "user1",
    written when the etag was "v6". *)
Definition parse_one (text : string) : option Document :=
  if String.eqb text "{user1}"
  then Some {| realId := "user1";
               document := {| content := "hello"; eTag := "v6" |} |}
  else None.

(** A service for writing that records the blobs it is asked to write or
    delete, and refuses to write a blob whose condition is the etag
    "stale", with an error that names the blob. *)
Definition recording_writer : BlobWrite.BlobWriter (list string) :=
  {| BlobWrite.createBlockBlobFromTextAsync := fun _ blob calls =>
       (if String.eqb (BlobWrite.ifMatch blob) "stale"
        then Failed ("ConditionNotMet " +:+ BlobWrite.blob_id blob)
        else Fulfilled tt,
        calls ++ [BlobWrite.blob_id blob]);
     BlobWrite.deleteBlobIfExistsAsync := fun _ key calls =>
       (Fulfilled true, calls ++ [key]) |}.

(** Promises settled in the opposite order of their places in the array. *)
Definition last_first (i : nat) : nat := 10 - i.

Definition stringify_sample (id realId : string) (item : StoreItem) : string :=
  id +:+ ":" +:+ realId +:+ ":" +:+ content item.

Definition changes_sample : list (string * StoreItem) :=
  [ ("a", {| content := "1"; eTag := "*" |});
    ("b", {| content := "2"; eTag := "stale" |});
    ("c", {| content := "3"; eTag := "stale" |}) ].

End Fixture.

(* ===================================================================== *)
(** * Properties *)
(* ===================================================================== *)

(** ** The object store *)

Section store_facts.
Implicit Types (h : heap) (l : loc) (f : string) (v : val).

Lemma is_obj_lt h l : is_obj h l → l < length h.
Proof. intros [m Hm]. by eapply lookup_lt_Some. Qed.

Lemma length_put h l f v : length (put h l f v) = length h.
Proof.
  unfold put. destruct (h !! l) as [[m|vs]|]; auto using length_insert.
Qed.

Lemma lookup_put_ne h l f v l' : l ≠ l' → put h l f v !! l' = h !! l'.
Proof.
  intros Hne. unfold put.
  destruct (h !! l) as [[m|vs]|]; auto using list_lookup_insert_ne.
Qed.

Lemma lookup_put_eq h l f v m :
  h !! l = Some (Obj m) → put h l f v !! l = Some (Obj (<[f := v]> m)).
Proof.
  intros Hm. unfold put. rewrite Hm.
  apply list_lookup_insert_eq. by eapply lookup_lt_Some.
Qed.

Lemma is_obj_put h l f v l' : is_obj h l' → is_obj (put h l f v) l'.
Proof.
  intros [m Hm]. destruct (decide (l = l')) as [->|Hne].
  - eexists. by apply lookup_put_eq.
  - exists m. by rewrite lookup_put_ne.
Qed.

Lemma get_put_eq h l f v : is_obj h l → get (put h l f v) l f = v.
Proof.
  intros [m Hm]. unfold get, fields_of.
  rewrite (lookup_put_eq _ _ _ _ m) by done. by rewrite lookup_insert_eq.
Qed.

Lemma get_put_field_ne h l f v l' f' :
  f ≠ f' → get (put h l f v) l' f' = get h l' f'.
Proof.
  intros Hne. unfold get, fields_of.
  destruct (decide (l = l')) as [->|Hl]; [|by rewrite lookup_put_ne].
  destruct (h !! l') as [[m|vs]|] eqn:Hm.
  - rewrite (lookup_put_eq _ _ _ _ m) by done. by rewrite lookup_insert_ne.
  - unfold put. by rewrite Hm, Hm.
  - unfold put. by rewrite Hm, Hm.
Qed.

Lemma NoDup_bounded_length (l : list nat) (n : nat) :
  NoDup l → (∀ x, x ∈ l → x < n) → length l ≤ n.
Proof.
  intros Hnd Hb. rewrite <-(length_seq n 0). apply submseteq_length.
  apply NoDup_submseteq; [done|]. intros x Hx. apply elem_of_seq.
  specialize (Hb x Hx). lia.
Qed.

Lemma ref_to_string_unfold fuel h visited l :
  ref_to_string fuel h visited l =
    match h !! l with
    | Some (Arr vs) =>
        if bool_decide (l ∈ visited) then ""
        else
          match fuel with
          | 0 => ""
          | S fuel =>
              join_comma
                ((fun e => match e with
                           | VUndefined => ""
                           | VRef l' => ref_to_string fuel h (l :: visited) l'
                           | _ => primitive_to_string e
                           end) <$> vs)
          end
    | _ => "[object Object]"
    end.
Proof. by destruct fuel. Qed.

(** The fuel that [to_string] gives is enough: with more of it the string
    is the same. *)
Lemma ref_to_string_fuel h : ∀ n m visited l,
  NoDup visited → (∀ x, x ∈ visited → x < length h) →
  length h ≤ n + length visited → length h ≤ m + length visited →
  ref_to_string n h visited l = ref_to_string m h visited l.
Proof.
  induction n as [|n IH]; intros m visited l Hnd Hb Hn Hm;
    rewrite (ref_to_string_unfold _ h visited l),
            (ref_to_string_unfold m h visited l);
    destruct (h !! l) as [[fields|vs]|] eqn:Hl; try done;
    destruct (decide (l ∈ visited)) as [Hin|Hin];
    try (by rewrite bool_decide_eq_true_2);
    rewrite bool_decide_eq_false_2 by done;
    apply lookup_lt_Some in Hl;
    assert (Hlen : length (l :: visited) ≤ length h)
      by (apply NoDup_bounded_length; [by constructor|];
          intros x [->|Hx]%elem_of_cons; [done | by apply Hb]);
    simpl in Hlen; [lia|].
  destruct m as [|m]; [lia|]. f_equal.
  apply list_fmap_ext. intros i e _. destruct e as [| | |l']; try done.
  apply IH; [by constructor | | simpl; lia | simpl; lia].
  intros x [->|Hx]%elem_of_cons; [done | by apply Hb].
Qed.

Lemma to_string_fuel h v n :
  length h ≤ n →
  to_string h v = match v with
                  | VRef l => ref_to_string n h [] l
                  | _ => primitive_to_string v
                  end.
Proof.
  intros Hn. destruct v as [| | |l]; try done. unfold to_string.
  apply ref_to_string_fuel; [constructor | | simpl; lia | simpl; lia].
  intros x Hx. by apply elem_of_nil in Hx.
Qed.

End store_facts.

(** ** Conversation references *)

Section reference_facts.
Implicit Types (h : heap) (l a r : loc) (f : string) (v : val).

Lemma get_prefix h h' l f :
  h `prefix_of` h' → l < length h → get h' l f = get h l f.
Proof.
  intros [k ->] Hl. unfold get, fields_of. by rewrite lookup_app_l.
Qed.

Lemma same_data_refl h v : same_data h v v.
Proof. by destruct v. Qed.

Lemma shallowCopy_cases h v v' h' :
  shallowCopy h v = (v', h') →
  (v' = v ∧ h' = h ∧ ∀ l, v = VRef l → h !! l = None) ∨
  (∃ l o, v = VRef l ∧ h !! l = Some o ∧ v' = VRef (length h) ∧ h' = h ++ [o]).
Proof.
  unfold shallowCopy.
  destruct v as [| |s|l]; try (intros [= <- <-]; left; split_and!; [done..|by intros ? [=]]).
  destruct (h !! l) as [o|] eqn:Ho; simpl; intros [= <- <-].
  - right. by exists l, o.
  - left. split_and!; [done..|]. by intros ? [= <-].
Qed.

Lemma shallowCopy_prefix h v v' h' :
  shallowCopy h v = (v', h') → h `prefix_of` h'.
Proof.
  intros [(_ & -> & _)|(l & o & _ & _ & _ & ->)]%shallowCopy_cases;
    [done | by apply prefix_app_r].
Qed.

Lemma shallowCopy_copied h0 h v v' h1 k :
  shallowCopy h v = (v', h1) → h0 `prefix_of` h → h1 `prefix_of` k →
  copied h0 k v v'.
Proof.
  intros [(-> & -> & Hn)|(l & o & -> & Ho & -> & ->)]%shallowCopy_cases P0 P1.
  - split_and!; [apply same_data_refl | done |].
    intros l o -> Hl. specialize (Hn l eq_refl).
    pose proof (prefix_lookup_Some _ _ _ _ Hl P0). congruence.
  - assert (Hk : k !! length h = Some o).
    { eapply prefix_lookup_Some; [|exact P1]. by apply list_lookup_middle. }
    assert (Hkl : k !! l = Some o).
    { eapply prefix_lookup_Some; [|exact P1]. by apply lookup_app_l_Some. }
    split_and!; [simpl; congruence | done |].
    intros l0 o0 [= <-] Hl. exists (length h).
    pose proof (prefix_lookup_Some _ _ _ _ Hl P0) as Hl'.
    pose proof (lookup_lt_Some _ _ _ Ho). pose proof (prefix_length _ _ P0).
    split_and!; [done | lia | lia | congruence].
Qed.

Lemma getConversationReference_spec h a r h' :
  getConversationReference h a = (r, h') →
  h `prefix_of` h' ∧ length h ≤ r ∧ S r = length h' ∧ is_obj h' r ∧
  get h' r "activityId" = get h a "id" ∧
  get h' r "channelId" = get h a "channelId" ∧
  get h' r "serviceUrl" = get h a "serviceUrl" ∧
  copied h h' (get h a "from") (get h' r "user") ∧
  copied h h' (get h a "recipient") (get h' r "bot") ∧
  copied h h' (get h a "conversation") (get h' r "conversation").
Proof.
  unfold getConversationReference.
  destruct (shallowCopy h (get h a "from")) as [user h1] eqn:E1.
  destruct (shallowCopy h1 (get h a "recipient")) as [bot h2] eqn:E2.
  destruct (shallowCopy h2 (get h a "conversation")) as [conv h3] eqn:E3.
  pose proof (shallowCopy_prefix _ _ _ _ E1) as P1.
  pose proof (shallowCopy_prefix _ _ _ _ E2) as P2.
  pose proof (shallowCopy_prefix _ _ _ _ E3) as P3.
  unfold alloc. intros [= <- <-].
  set (o := Obj _).
  assert (P12 : h `prefix_of` h2) by (by etrans).
  assert (P13 : h `prefix_of` h3) by (by etrans).
  assert (P23 : h1 `prefix_of` h3) by (by etrans).
  assert (Pe : ∀ k, k `prefix_of` h3 → k `prefix_of` h3 ++ [o])
    by (intros; by apply prefix_app_r).
  pose proof (prefix_length _ _ P13) as Hlen.
  assert (Hget : ∀ f, get (h3 ++ [o]) (length h3) f =
      default VUndefined (fields_of [o] 0 !! f)).
  { intros f. unfold get, fields_of. by rewrite list_lookup_middle. }
  split_and!.
  - by apply Pe.
  - done.
  - rewrite length_app. simpl. lia.
  - eexists. by apply list_lookup_middle.
  - by rewrite Hget.
  - by rewrite Hget.
  - by rewrite Hget.
  - rewrite Hget. eapply shallowCopy_copied; [exact E1 | done | by apply Pe].
  - rewrite Hget. eapply shallowCopy_copied; [exact E2 | done | by apply Pe].
  - rewrite Hget. eapply shallowCopy_copied; [exact E3 | done | by apply Pe].
Qed.

Ltac store_simpl :=
  repeat first
    [ rewrite get_put_eq by (repeat apply is_obj_put; assumption)
    | rewrite get_put_field_ne by done ].

Lemma applyConversationReference_returns h a r inc :
  (applyConversationReference h a r inc).1 = a.
Proof. unfold applyConversationReference. by destruct inc. Qed.

Lemma applyConversationReference_frame h a r inc l :
  l ≠ a → (applyConversationReference h a r inc).2 !! l = h !! l.
Proof.
  intros Hne. unfold applyConversationReference.
  destruct inc; simpl;
    repeat match goal with |- context [if ?b then _ else _] => destruct b end;
    by rewrite !lookup_put_ne.
Qed.

Lemma applyConversationReference_length h a r inc :
  length (applyConversationReference h a r inc).2 = length h.
Proof.
  unfold applyConversationReference.
  destruct inc; simpl;
    repeat match goal with |- context [if ?b then _ else _] => destruct b end;
    by rewrite !length_put.
Qed.

(** What each property of the activity holds after the call, in terms of the
    store before it. *)
Lemma applyConversationReference_get h a r inc :
  is_obj h a →
  let h' := (applyConversationReference h a r inc).2 in
  get h' a "channelId" = get h r "channelId" ∧
  get h' a "serviceUrl" = get h r "serviceUrl" ∧
  get h' a "conversation" = get h r "conversation" ∧
  get h' a "from" = get h r (if inc then "user" else "bot") ∧
  get h' a "recipient" = get h r (if inc then "bot" else "user") ∧
  get h' a (if inc then "id" else "replyToId") =
    (if truthy (get h r "activityId") then get h r "activityId"
     else get h a (if inc then "id" else "replyToId")) ∧
  get h' a (if inc then "replyToId" else "id") =
    get h a (if inc then "replyToId" else "id").
Proof.
  intros Ha. unfold applyConversationReference.
  destruct inc; simpl; store_simpl;
    destruct (truthy (get h r "activityId")); store_simpl; done.
Qed.

End reference_facts.

Section reference_claims.
Implicit Types (h : heap) (l : loc) (f : string) (v : val).

Lemma is_obj_prefix h h' l : h `prefix_of` h' → is_obj h l → is_obj h' l.
Proof. intros Hp [m Hm]. exists m. by eapply prefix_lookup_Some. Qed.

Lemma get_apply_other h a r inc l f :
  l ≠ a → get (applyConversationReference h a r inc).2 l f = get h l f.
Proof.
  intros Hne. unfold get, fields_of.
  by rewrite applyConversationReference_frame.
Qed.

(** C3, as the code has it.  Taking the reference of an activity, applying
    it to a second activity and taking the reference of the result gives
    back the conversation, channelId and serviceUrl of the first reference
    in either direction.  The user and the bot come back in their places
    when the reference is applied as incoming ([isIncoming = true]); applied
    as outgoing (the default) they come back exchanged, since the reply goes
    from the bot to the user. *)
Theorem roundtrip_fields h activity activity2 isIncoming :
  is_obj h activity2 →
  let '(r1, r2, h3) := roundtrip h activity activity2 isIncoming in
  same_data h3 (get h3 r2 "conversation") (get h3 r1 "conversation") ∧
  get h3 r2 "channelId" = get h3 r1 "channelId" ∧
  get h3 r2 "serviceUrl" = get h3 r1 "serviceUrl" ∧
  same_data h3 (get h3 r2 "user")
               (get h3 r1 (if isIncoming then "user" else "bot")) ∧
  same_data h3 (get h3 r2 "bot")
               (get h3 r1 (if isIncoming then "bot" else "user")).
Proof.
  intros Ha2. unfold roundtrip.
  destruct (getConversationReference h activity) as [r1 h1] eqn:E1.
  destruct (applyConversationReference h1 activity2 r1 isIncoming)
    as [a2 h2] eqn:E2.
  destruct (getConversationReference h2 a2) as [r2 h3] eqn:E3.
  apply getConversationReference_spec in E1
    as (P1 & Hr1 & Hr1' & Or1 & _ & _ & _ & _ & _ & _).
  pose proof (applyConversationReference_returns h1 activity2 r1 isIncoming) as Hret.
  pose proof (applyConversationReference_length h1 activity2 r1 isIncoming) as Hlen.
  pose proof (is_obj_prefix _ _ _ P1 Ha2) as Ha2'.
  pose proof (applyConversationReference_get h1 activity2 r1 isIncoming Ha2')
    as (Gch & Gsu & Gco & Gfr & Gre & _ & _).
  pose proof (is_obj_lt _ _ Ha2) as Hlt.
  assert (Hne : r1 ≠ activity2) by lia.
  rewrite E2 in Hret, Hlen, Gch, Gsu, Gco, Gfr, Gre. simpl in *. subst a2.
  apply getConversationReference_spec in E3
    as (P3 & Hr2 & _ & _ & _ & Hch & Hsu & Cfr & Cre & Cco).
  assert (Hkeep : ∀ f, get h3 r1 f = get h1 r1 f).
  { intros f. rewrite (get_prefix h2 h3) by (done || lia).
    pose proof (get_apply_other h1 activity2 r1 isIncoming r1 f Hne) as Hk.
    by rewrite E2 in Hk. }
  rewrite !Hkeep, Hch, Hsu, Gch, Gsu.
  destruct Cfr as (Sfr & _), Cre as (Sre & _), Cco as (Sco & _).
  rewrite Gfr in Sfr. rewrite Gre in Sre. rewrite Gco in Sco.
  by destruct isIncoming.
Qed.

Lemma roundtrip_fields_witness :
  is_obj Sample.store0 4 ∧
  let '(r1, r2, h3) := roundtrip Sample.store0 3 4 true in
  same_data h3 (get h3 r2 "conversation") (get h3 r1 "conversation") ∧
  get h3 r2 "channelId" = get h3 r1 "channelId" ∧
  get h3 r2 "serviceUrl" = get h3 r1 "serviceUrl" ∧
  same_data h3 (get h3 r2 "user") (get h3 r1 "user") ∧
  same_data h3 (get h3 r2 "bot") (get h3 r1 "bot").
Proof.
  assert (Ho : is_obj Sample.store0 4) by (eexists; reflexivity).
  split; [exact Ho|].
  exact (roundtrip_fields Sample.store0 3 4 true Ho).
Defined.

(** C3 as the claim states it, with the default direction, fails: the
    inbound activity of the sample store comes from "user1" and is addressed
    to "bot1"; after the round trip the reference names "bot1" as the user. *)
Lemma roundtrip_default_exchanges_user_and_bot :
  let '(r1, r2, h3) := roundtrip Sample.store0 3 4 false in
  get_val h3 (get h3 r1 "user") "id" = VString "user1" ∧
  get_val h3 (get h3 r2 "user") "id" = VString "bot1" ∧
  ¬ same_data h3 (get h3 r2 "user") (get h3 r1 "user").
Proof.
  vm_compute. split_and!; [reflexivity | reflexivity | discriminate].
Qed.

(** C4.  [applyConversationReference] copies channelId, serviceUrl and
    conversation from the reference in both directions.  Outgoing
    ([isIncoming = false], the default): from becomes reference.bot,
    recipient becomes reference.user, and replyToId becomes
    reference.activityId when the reference has one (the source tests
    [if (reference.activityId)]); otherwise replyToId is left as it was.
    Incoming: from becomes reference.user, recipient becomes reference.bot,
    and id becomes reference.activityId under the same test. *)
Theorem applyConversationReference_directions h activity reference :
  is_obj h activity →
  let out := (applyConversationReference h activity reference false).2 in
  let inc := (applyConversationReference h activity reference true).2 in
  (get out activity "from" = get h reference "bot" ∧
   get out activity "recipient" = get h reference "user" ∧
   (truthy (get h reference "activityId") = true →
      get out activity "replyToId" = get h reference "activityId") ∧
   (truthy (get h reference "activityId") = false →
      get out activity "replyToId" = get h activity "replyToId") ∧
   get out activity "channelId" = get h reference "channelId" ∧
   get out activity "serviceUrl" = get h reference "serviceUrl" ∧
   get out activity "conversation" = get h reference "conversation") ∧
  (get inc activity "from" = get h reference "user" ∧
   get inc activity "recipient" = get h reference "bot" ∧
   (truthy (get h reference "activityId") = true →
      get inc activity "id" = get h reference "activityId") ∧
   (truthy (get h reference "activityId") = false →
      get inc activity "id" = get h activity "id") ∧
   get inc activity "channelId" = get h reference "channelId" ∧
   get inc activity "serviceUrl" = get h reference "serviceUrl" ∧
   get inc activity "conversation" = get h reference "conversation").
Proof.
  intros Ha.
  pose proof (applyConversationReference_get h activity reference false Ha)
    as (O1 & O2 & O3 & O4 & O5 & O6 & _).
  pose proof (applyConversationReference_get h activity reference true Ha)
    as (I1 & I2 & I3 & I4 & I5 & I6 & _).
  simpl in *. split; split_and!; try done.
  - intros Ht. by rewrite Ht in O6.
  - intros Ht. by rewrite Ht in O6.
  - intros Ht. by rewrite Ht in I6.
  - intros Ht. by rewrite Ht in I6.
Qed.

Lemma applyConversationReference_directions_witness :
  let r := (getConversationReference Sample.store0 3).1 in
  let h := (getConversationReference Sample.store0 3).2 in
  let out := (applyConversationReference h 4 r false).2 in
  is_obj h 4 ∧
  truthy (get h r "activityId") = true ∧
  get out 4 "from" = get h r "bot" ∧
  get out 4 "recipient" = get h r "user" ∧
  get out 4 "replyToId" = VString "act1".
Proof.
  assert (Ho : is_obj (getConversationReference Sample.store0 3).2 4)
    by (eexists; reflexivity).
  pose proof (applyConversationReference_directions
                (getConversationReference Sample.store0 3).2 4
                (getConversationReference Sample.store0 3).1 Ho)
    as [(F & R & I & _) _].
  split_and!; [exact Ho | reflexivity | exact F | exact R | exact (I eq_refl)].
Defined.

(** C5, as the code has it.  [applyConversationReference] writes into the
    activity object it is given and returns that same object; no other
    object of the store changes, so the reference (any object other than the
    activity) is as it was, and nothing is allocated.
    [getConversationReference] changes no object of the store: the
    reference is a new object, and where the activity's from, recipient or
    conversation is an object, the reference's user, bot or conversation is
    a new object too, with the same properties, at a location different from
    the activity's. *)
Theorem reference_transforms_effects :
  (∀ h activity reference isIncoming,
     (applyConversationReference h activity reference isIncoming).1 = activity ∧
     length (applyConversationReference h activity reference isIncoming).2
       = length h ∧
     ∀ l, l ≠ activity →
       (applyConversationReference h activity reference isIncoming).2 !! l
         = h !! l) ∧
  (∀ h activity,
     let r := (getConversationReference h activity).1 in
     let h' := (getConversationReference h activity).2 in
     h `prefix_of` h' ∧ length h ≤ r ∧ is_obj h' r ∧
     copied h h' (get h activity "from") (get h' r "user") ∧
     copied h h' (get h activity "recipient") (get h' r "bot") ∧
     copied h h' (get h activity "conversation") (get h' r "conversation")).
Proof.
  split.
  - intros h a r inc. split_and!.
    + apply applyConversationReference_returns.
    + apply applyConversationReference_length.
    + intros l Hl. by apply applyConversationReference_frame.
  - intros h a.
    destruct (getConversationReference h a) as [r h'] eqn:E. simpl.
    apply getConversationReference_spec in E
      as (P & Hr & _ & Or & _ & _ & _ & Cu & Cb & Cc).
    by split_and!.
Qed.

(** C5 as the claim states it fails at the activity: in the sample store
    the outbound activity has no from before the call and refers to the
    bot's account after it. *)
Lemma applyConversationReference_mutates_activity :
  get Sample.store1 4 "from" = VUndefined ∧
  get (applyConversationReference Sample.store1 4 5 false).2 4 "from" = VRef 1 ∧
  (applyConversationReference Sample.store1 4 5 false).2 !! 4
    ≠ Sample.store1 !! 4.
Proof.
  vm_compute. split_and!; [reflexivity | reflexivity | discriminate].
Qed.

End reference_claims.

(** ** The turn context *)

Import Turn.

Section turn_facts.

Lemma add_events_nil w : add_events w [] = w.
Proof. destruct w. unfold add_events. simpl. by rewrite app_nil_r. Qed.

Lemma add_events_app w e1 e2 :
  add_events (add_events w e1) e2 = add_events w (e1 ++ e2).
Proof. unfold add_events. simpl. by rewrite app_assoc. Qed.

Lemma settle_idemp {A} (o : Outcome A) : settle (settle o) = settle o.
Proof. by destruct o. Qed.

Lemma advances_refl w : advances w w.
Proof. exists []. rewrite app_nil_r. by split_and!. Qed.

Lemma advances_trans w1 w2 w3 :
  advances w1 w2 → advances w2 w3 → advances w1 w3.
Proof.
  intros (e1 & L1 & M1 & S1) (e2 & L2 & M2 & S2).
  exists (e1 ++ e2). split_and!.
  - by rewrite L2, L1, app_assoc.
  - auto.
  - rewrite existsb_app. intros [H|H]%orb_true_iff; auto.
Qed.

Lemma advances_with_store w h : advances w (with_store w h).
Proof. exists []. simpl. rewrite app_nil_r. by split_and!. Qed.

Lemma advances_logged w label : advances w (with_event w (Logged label)).
Proof. exists [Logged label]. by split_and!. Qed.

Lemma set_responded_advances value w : advances w (set_responded value w).2.
Proof.
  destruct value; simpl; [|apply advances_refl].
  exists []. simpl. rewrite app_nil_r. by split_and!.
Qed.

Lemma run_advances {R} (a : Action R) (next : M R) :
  (∀ w, advances w (next w).2) → ∀ w, advances w (run a next w).2.
Proof.
  intros Hnext. induction a as [r|e|label k IH|k IH|value k IH|l f k IH|l f v k IH|k IH];
    intros w; simpl.
  - apply advances_refl.
  - apply advances_refl.
  - eapply advances_trans; [apply advances_logged | apply IH].
  - apply IH.
  - pose proof (set_responded_advances value w) as Hs.
    destruct (set_responded value w) as [[u|e|e] w']; simpl in *; try done.
    eapply advances_trans; [exact Hs | apply IH].
  - apply IH.
  - eapply advances_trans; [apply advances_with_store | apply IH].
  - pose proof (Hnext w) as Hn. destruct (next w) as [o w']. simpl in *.
    eapply advances_trans; [exact Hn | apply IH].
Qed.

Lemma emitNext_advances {T R} (list : list (T → Action R)) arg (next : M R) :
  (∀ w, advances w (next w).2) → ∀ w, advances w (emitNext list arg next w).2.
Proof.
  intros Hnext. induction list as [|handler rest IH]; intros w; simpl.
  - specialize (Hnext w). by destruct (next w).
  - pose proof (run_advances (handler arg) (emitNext rest arg next) IH w) as Hr.
    by destruct (run (handler arg) (emitNext rest arg next) w).
Qed.

Lemma transport_send_advances output w :
  advances w (transport_send output w).2.
Proof.
  unfold transport_send, and_then.
  destruct (adapter_sendActivities (adapter w) (store w) output)
    as [rs|e|e] eqn:E; simpl.
  - exists [TransportSend output (Resolved rs)]. by split_and!.
  - exists [TransportSend output (Rejected e)]. split_and!; done.
  - exists [TransportSend output (Thrown e)]. split_and!; done.
Qed.

Lemma prepare_advances activities w : advances w (prepare activities w).2.
Proof.
  unfold prepare.
  destruct (getConversationReference (store w) (activity w)) as [ref h].
  destruct (stamp_all h ref activities) as [output h'].
  apply advances_with_store.
Qed.

Lemma sendActivities_advances activities w :
  advances w (sendActivities activities w).2.
Proof.
  unfold sendActivities.
  pose proof (prepare_advances activities w) as Hp.
  destruct (prepare activities w) as [output w0]. simpl in Hp.
  eapply advances_trans; [exact Hp|].
  apply emitNext_advances. apply transport_send_advances.
Qed.

Lemma sendActivity_advances a speak inputHint w :
  advances w (sendActivity a speak inputHint w).2.
Proof.
  unfold sendActivity.
  match goal with |- context [let '(_, _) := ?x in _] => destruct x as [a' h] end.
  unfold and_then.
  pose proof (sendActivities_advances [a'] (with_store w h)) as Hs.
  destruct (sendActivities [a'] (with_store w h)) as [[rs|e|e] w']; simpl in *;
    (eapply advances_trans; [apply (advances_with_store w h) | exact Hs]).
Qed.

Lemma updateActivity_advances a w : advances w (updateActivity a w).2.
Proof.
  unfold updateActivity, emit. apply emitNext_advances. clear w. intros w. simpl.
  exists [TransportUpdate a (adapter_updateActivity (adapter w) (store w) a)].
  by split_and!.
Qed.

Lemma deleteActivity_advances idOrReference w :
  advances w (deleteActivity idOrReference w).2.
Proof.
  unfold deleteActivity.
  match goal with |- context [let '(_, _) := ?x in _] => destruct x as [r h] end.
  eapply advances_trans; [apply (advances_with_store w h)|].
  unfold emit. apply emitNext_advances. clear w. intros w. simpl.
  exists [TransportDelete r (adapter_deleteActivity (adapter w) (store w) r)].
  by split_and!.
Qed.

Lemma perform_advances op w : advances w (perform op w).
Proof.
  destruct op; simpl.
  - apply set_responded_advances.
  - apply sendActivity_advances.
  - apply sendActivities_advances.
  - apply updateActivity_advances.
  - apply deleteActivity_advances.
  - exists []. simpl. rewrite app_nil_r. by split_and!.
  - exists []. simpl. rewrite app_nil_r. by split_and!.
  - exists []. simpl. rewrite app_nil_r. by split_and!.
Qed.

Lemma emit_nil {T R} (arg : T) (next : M R) w :
  emit [] arg next w = ((settle (next w).1), (next w).2).
Proof. unfold emit. simpl. by destruct (next w). Qed.

Lemma transport_send_resolved output w rs :
  (transport_send output w).1 = Resolved rs →
  responded (transport_send output w).2 = true.
Proof.
  unfold transport_send, and_then.
  by destruct (adapter_sendActivities (adapter w) (store w) output).
Qed.

Lemma run_effects {R} labels (k : Action R) next w :
  run (effects labels k) next w = run k next (add_events w (Logged <$> labels)).
Proof.
  revert w. induction labels as [|label labels IH]; intros w; simpl.
  - by rewrite add_events_nil.
  - rewrite IH. unfold with_event. by rewrite add_events_app.
Qed.

Lemma run_ext {R} (a : Action R) (next next' : M R) :
  (∀ w, next w = next' w) → ∀ w, run a next w = run a next' w.
Proof.
  intros Hn. induction a; intros w; simpl; auto.
  - destruct (set_responded value w) as [[u|e|e] w']; auto.
  - rewrite Hn. destruct (next' w). auto.
Qed.

Lemma run_no_next {R} (a : Action R) (next next' : M R) :
  no_next a → ∀ w, run a next w = run a next' w.
Proof.
  induction 1; intros w; simpl; auto.
  destruct (set_responded value w) as [[u|e|e] w']; auto.
Qed.

Lemma run_no_next_log {R} (a : Action R) (next : M R) :
  no_next a → ∀ w, ∃ labels, log (run a next w).2 = log w ++ (Logged <$> labels).
Proof.
  induction 1 as [r|e|label k Hk IH|k Hk IH|value k Hk IH|l f k Hk IH|l f v k Hk IH];
    intros w; simpl.
  - exists []. simpl. by rewrite app_nil_r.
  - exists []. simpl. by rewrite app_nil_r.
  - destruct (IH (with_event w (Logged label))) as [labels Hl].
    exists (label :: labels). rewrite Hl. simpl. by rewrite <-app_assoc.
  - apply IH.
  - destruct value; simpl.
    + destruct (IH (set_responded true w).2) as [labels Hl]. by exists labels.
    + exists []. simpl. by rewrite app_nil_r.
  - apply IH.
  - destruct (IH (with_store w (put (store w) l f v))) as [labels Hl].
    by exists labels.
Qed.

Lemma emitNext_settled {T R} (list : list (T → Action R)) arg next w :
  settle (emitNext list arg next w).1 = (emitNext list arg next w).1.
Proof.
  destruct list as [|handler rest]; simpl.
  - destruct (next w). simpl. apply settle_idemp.
  - destruct (run (handler arg) (emitNext rest arg next) w). simpl.
    apply settle_idemp.
Qed.

Lemma emitNext_app {T R} (l1 l2 : list (T → Action R)) arg next w :
  emitNext (l1 ++ l2) arg next w = emitNext l1 arg (emitNext l2 arg next) w.
Proof.
  revert w. induction l1 as [|handler rest IH]; intros w; simpl.
  - pose proof (emitNext_settled l2 arg next w) as Hs.
    destruct (emitNext l2 arg next w) as [o w']. simpl in Hs. by rewrite Hs.
  - by rewrite (run_ext (handler arg) (emitNext (rest ++ l2) arg next)
                 (emitNext rest arg (emitNext l2 arg next)) IH).
Qed.

Lemma befores_cons b a hs :
  befores ((b, a) :: hs) = (Logged <$> b) ++ befores hs.
Proof. unfold befores. simpl. by rewrite fmap_app. Qed.

Lemma afters_cons b a hs :
  afters ((b, a) :: hs) = afters hs ++ (Logged <$> a).
Proof.
  unfold afters. rewrite reverse_cons, fmap_app, concat_app, fmap_app.
  simpl. by rewrite app_nil_r.
Qed.

Lemma befores_app hs1 hs2 : befores (hs1 ++ hs2) = befores hs1 ++ befores hs2.
Proof. unfold befores. by rewrite fmap_app, concat_app, fmap_app. Qed.

Lemma afters_app hs1 hs2 : afters (hs1 ++ hs2) = afters hs2 ++ afters hs1.
Proof.
  unfold afters. by rewrite reverse_app, fmap_app, concat_app, fmap_app.
Qed.

(** A chain of [around] interceptors: the logic before [next()] in order of
    registration, then [next], then, if it resolved, the logic after it in
    the opposite order. *)
Lemma emitNext_arounds {T R} hs (arg : T) (next : M R) w :
  emitNext (arounds hs) arg next w =
    let '(o, w1) := next (add_events w (befores hs)) in
    (settle o, match o with
               | Resolved _ => add_events w1 (afters hs)
               | _ => w1
               end).
Proof.
  revert w. induction hs as [|[b a] hs IH]; intros w.
  - simpl. rewrite add_events_nil. destruct (next w) as [[r|e|e] w1]; simpl;
      by rewrite ?add_events_nil.
  - change (arounds ((b, a) :: hs)) with (around (T:=T) (R:=R) b a :: arounds hs).
    simpl. unfold around at 1. rewrite run_effects. simpl. rewrite IH.
    rewrite add_events_app, <-(befores_cons b a).
    destruct (next (add_events w (befores ((b, a) :: hs)))) as [[r|e|e] w1];
      simpl; try done.
    rewrite run_effects. simpl. by rewrite add_events_app, <-(afters_cons b a).
Qed.

Lemma transport_send_result output w :
  let outcome := adapter_sendActivities (adapter w) (store w) output in
  (transport_send output w).1 = outcome ∧
  log (transport_send output w).2 = log w ++ [TransportSend output outcome] ∧
  store (transport_send output w).2 = store w.
Proof.
  unfold transport_send, and_then. simpl.
  by destruct (adapter_sendActivities (adapter w) (store w) output).
Qed.

Lemma prepare_world activities w :
  context (prepare activities w).2 = context w ∧
  log (prepare activities w).2 = log w.
Proof.
  unfold prepare.
  destruct (getConversationReference (store w) (activity w)) as [ref h].
  by destruct (stamp_all h ref activities).
Qed.

Lemma send_chain_arounds hs output w0 :
  let outcome := adapter_sendActivities (adapter w0) (store w0) output in
  (emitNext (arounds hs) output (transport_send output) w0).1 = settle outcome ∧
  log (emitNext (arounds hs) output (transport_send output) w0).2 =
    log w0 ++ befores hs ++ [TransportSend output outcome] ++
    match outcome with Resolved _ => afters hs | _ => [] end.
Proof.
  rewrite emitNext_arounds.
  pose proof (transport_send_result output (add_events w0 (befores hs)))
    as (Ho & Hl & _).
  destruct (transport_send output (add_events w0 (befores hs))) as [o w1].
  unfold adapter in *. simpl in *. subst o.
  destruct (adapter_sendActivities (_adapter (context w0)) (store w0) output)
    as [rs|e|e];
    simpl; rewrite Hl, <-?app_assoc; simpl; by rewrite ?app_nil_r.
Qed.

End turn_facts.

Section turn_claims.

(** C2.  The responded flag of a turn context is false when the context is
    made; in any call of [sendActivities], whatever the interceptors, the
    flag is true after the call if the adapter acknowledged a send during
    it, and with no interceptor registered a call that resolves leaves the
    flag true; no operation on the context brings the flag back from true;
    assigning false throws "TurnContext: cannot set 'responded' to a value
    of 'false'." (the spec's InvalidStateTransition) and leaves the world as
    it was; assigning true succeeds and leaves the flag true. *)
Theorem responded_monotonic :
  (∀ adapter request h,
     responded {| context := new adapter request; store := h; log := [] |}
       = false) ∧
  (∀ activities w,
     ∃ events, log (sendActivities activities w).2 = log w ++ events ∧
       (existsb is_sent events = true →
          responded (sendActivities activities w).2 = true)) ∧
  (∀ activities w rs,
     _onSendActivities (context w) = [] →
     (sendActivities activities w).1 = Resolved rs →
     responded (sendActivities activities w).2 = true) ∧
  (∀ ops w, responded w = true → responded (foldl (flip perform) w ops) = true) ∧
  (∀ w, set_responded false w =
          (Thrown "TurnContext: cannot set 'responded' to a value of 'false'.", w)) ∧
  (∀ w, (set_responded true w).1 = Resolved tt ∧
        responded (set_responded true w).2 = true).
Proof.
  split_and!.
  - done.
  - intros activities w.
    destruct (sendActivities_advances activities w) as (events & L & _ & S).
    by exists events.
  - intros activities w rs Hnil. unfold sendActivities.
    assert (Hctx : context (prepare activities w).2 = context w).
    { unfold prepare.
      destruct (getConversationReference (store w) (activity w)) as [ref h].
      by destruct (stamp_all h ref activities). }
    destruct (prepare activities w) as [output w0]. simpl in Hctx.
    cbv beta iota. rewrite Hctx, Hnil, emit_nil. simpl.
    pose proof (transport_send_resolved output w0) as Ht.
    destruct (transport_send output w0) as [[rs'|e|e] w1]; simpl in *; try done.
    intros _. by eapply Ht.
  - intros ops. induction ops as [|op ops IH]; intros w Hw; simpl; [done|].
    apply IH. unfold flip.
    destruct (perform_advances op w) as (events & _ & Hm & _). auto.
  - done.
  - done.
Qed.

(** C1.  With the interceptors H1 and then H2 registered through
    [onSendActivities] (after any interceptors of the same shape registered
    before them), [sendActivities] produces, in this order: the logic of H1
    before [next()], that of H2 before [next()], the call of the adapter's
    [sendActivities], and, the call having resolved, the logic of H2 after
    [next()] and then that of H1.  An interceptor that does not invoke
    [next()] ends the chain: the call is what running that interceptor
    alone gives, its result is the interceptor's own, the interceptors
    registered after it and the adapter contribute nothing, and the only
    events of the call are effects of interceptors. *)
Theorem interceptor_chain_order :
  (∀ w before pre1 post1 pre2 post2 activities,
     _onSendActivities (context w) = arounds before →
     let w2 := onSendActivities (around pre2 post2)
                 (onSendActivities (around pre1 post1) w) in
     let '(output, w0) := prepare activities w2 in
     let outcome := adapter_sendActivities (adapter w) (store w0) output in
     (sendActivities activities w2).1 = settle outcome ∧
     log (sendActivities activities w2).2 =
       log w ++ befores before ++ (Logged <$> pre1) ++ (Logged <$> pre2) ++
       [TransportSend output outcome] ++
       match outcome with
       | Resolved _ => (Logged <$> post2) ++ (Logged <$> post1) ++ afters before
       | _ => []
       end) ∧
  (∀ w before (H : SendActivitiesHandler) later activities,
     _onSendActivities (context w) = arounds before ++ H :: later →
     (∀ output, no_next (H output)) →
     let '(output, w0) := prepare activities w in
     let '(o, w1) := run (H output) unused (add_events w0 (befores before)) in
     sendActivities activities w =
       (settle o, match o with
                  | Resolved _ => add_events w1 (afters before)
                  | _ => w1
                  end) ∧
     ∃ labels, log (sendActivities activities w).2 = log w ++ (Logged <$> labels)).
Proof.
  split.
  - intros w before pre1 post1 pre2 post2 activities Hw w2.
    unfold sendActivities.
    destruct (prepare_world activities w2) as [Hc Hl].
    destruct (prepare activities w2) as [output w0]. simpl in Hc, Hl.
    assert (Hh : _onSendActivities (context w0)
                 = arounds (before ++ [(pre1, post1); (pre2, post2)])).
    { rewrite Hc. simpl. rewrite Hw. unfold arounds.
      by rewrite fmap_app, <-app_assoc. }
    unfold emit. rewrite Hh.
    assert (Ha : adapter w0 = adapter w) by (unfold adapter; by rewrite Hc).
    destruct (send_chain_arounds (before ++ [(pre1, post1); (pre2, post2)])
                output w0) as [Ho Hlog].
    rewrite Ha in Ho, Hlog. split; [exact Ho|].
    rewrite Hlog, Hl. simpl. rewrite befores_app, afters_app, <-!app_assoc.
    do 2 f_equal.
    assert (Hb : befores [(pre1, post1); (pre2, post2)]
                 = (Logged <$> pre1) ++ (Logged <$> pre2)).
    { unfold befores. simpl. by rewrite app_nil_r, fmap_app. }
    assert (Haf : afters [(pre1, post1); (pre2, post2)]
                  = (Logged <$> post2) ++ (Logged <$> post1)).
    { unfold afters. simpl. by rewrite app_nil_r, fmap_app. }
    rewrite Hb, <-!app_assoc. do 2 f_equal. simpl. f_equal.
    destruct (adapter_sendActivities (adapter w) (store w0) output); try done.
    by rewrite Haf, <-!app_assoc.
  - intros w before H later activities Hw Hnn.
    unfold sendActivities.
    destruct (prepare_world activities w) as [Hc Hl].
    destruct (prepare activities w) as [output w0]. simpl in Hc, Hl.
    unfold emit. rewrite Hc, Hw.
    assert (Hrun : ∀ x, emitNext (T:=list loc) (H :: later) output
                          (transport_send output) x
                 = let '(o, w1) := run (H output) unused x in (settle o, w1)).
    { intros x. simpl.
      by rewrite (run_no_next (H output) _ unused (Hnn output)). }
    assert (Heq : emitNext (arounds before ++ H :: later) output
                    (transport_send output) w0
                = let '(o, w1) := run (H output) unused
                                    (add_events w0 (befores before)) in
                  (settle o, match o with
                             | Resolved _ => add_events w1 (afters before)
                             | _ => w1
                             end)).
    { rewrite emitNext_app, emitNext_arounds, Hrun.
      destruct (run (H output) unused (add_events w0 (befores before)))
        as [[r|e|e] w1]; done. }
    rewrite Heq.
    destruct (run_no_next_log (H output) unused (Hnn output)
                (add_events w0 (befores before))) as [labels Hlab].
    destruct (run (H output) unused (add_events w0 (befores before)))
      as [o w1]. split; [done|]. simpl in *.
    rewrite Hl in Hlab. unfold befores in Hlab.
    destruct o as [r|e|e]; simpl.
    + exists (concat before.*1 ++ labels ++ concat (reverse before).*2).
      rewrite Hlab. unfold afters. by rewrite !fmap_app, <-!app_assoc.
    + exists (concat before.*1 ++ labels). rewrite Hlab.
      by rewrite !fmap_app, <-!app_assoc.
    + exists (concat before.*1 ++ labels). rewrite Hlab.
      by rewrite !fmap_app, <-!app_assoc.
Qed.

Lemma responded_monotonic_witness :
  responded Sample.world0 = false ∧
  _onSendActivities (context Sample.world0) = [] ∧
  (sendActivities [4] Sample.world0).1 = Resolved [{| id := "r" |}] ∧
  responded (sendActivities [4] Sample.world0).2 = true.
Proof.
  split_and!; [reflexivity | reflexivity | reflexivity |].
  exact (proj1 (proj2 (proj2 responded_monotonic))
           [4] Sample.world0 [{| id := "r" |}] eq_refl eq_refl).
Defined.

Lemma interceptor_chain_order_witness :
  let H1 := around ["H1 before"] ["H1 after"] in
  let H2 := around ["H2 before"] ["H2 after"] in
  let w2 := onSendActivities H2 (onSendActivities H1 Sample.world0) in
  _onSendActivities (context Sample.world0) = arounds [] ∧
  (sendActivities [4] w2).1 = Resolved [{| id := "r" |}] ∧
  log (sendActivities [4] w2).2 =
    [ Logged "H1 before"; Logged "H2 before";
      TransportSend [9] (Resolved [{| id := "r" |}]);
      Logged "H2 after"; Logged "H1 after" ].
Proof.
  split; [reflexivity|].
  exact (proj1 interceptor_chain_order Sample.world0 []
           ["H1 before"] ["H1 after"] ["H2 before"] ["H2 after"] [4] eq_refl).
Defined.

(** The same turn with H2 replaced by an interceptor that answers by itself:
    the adapter is not called and H1 carries on with H2's answer. *)
Example short_circuit_sample :
  let H1 := around ["H1 before"] ["H1 after"] in
  let H2 : SendActivitiesHandler :=
    fun _ => Effect "H2 alone" (Return [{| id := "mine" |}]) in
  let w2 := onSendActivities H2 (onSendActivities H1 Sample.world0) in
  sendActivities [4] w2 =
    (Resolved [{| id := "mine" |}],
     add_events (prepare [4] w2).2
       [Logged "H1 before"; Logged "H2 alone"; Logged "H1 after"]) ∧
  responded (sendActivities [4] w2).2 = false.
Proof. split; reflexivity. Qed.

End turn_claims.

(** ** The OAuth prompt *)

Import Prompt OAuth.

Section digits_facts.

Lemma take_digits_sound n s code :
  take_digits n s = Some code →
  ∃ post, s = code +:+ post ∧ String.length code = n ∧
          forallb is_digit (String.list_ascii_of_string code) = true.
Proof.
  revert s code. induction n as [|n IH]; intros s code; simpl.
  - intros [= <-]. by exists s.
  - destruct s as [|c rest]; [done|].
    destruct (is_digit c) eqn:Hc; [|done].
    destruct (take_digits n rest) as [code'|] eqn:Ht; [|done].
    intros [= <-]. destruct (IH _ _ Ht) as (post & -> & Hlen & Hall).
    exists post. simpl. by rewrite Hc, Hlen, Hall.
Qed.

Lemma take_digits_complete n code post :
  String.length code = n →
  forallb is_digit (String.list_ascii_of_string code) = true →
  take_digits n (code +:+ post) = Some code.
Proof.
  revert n. induction code as [|c code IH]; intros n; simpl.
  - by intros <-.
  - intros <- [Hc Hall]%andb_true_iff. simpl. by rewrite Hc, (IH _ eq_refl Hall).
Qed.

Lemma take_digits_starts s code :
  take_digits 6 s = Some code ↔ starts_with_code s code.
Proof.
  split.
  - intros H. by apply take_digits_sound in H.
  - intros (post & -> & Hlen & Hall). by apply take_digits_complete.
Qed.

Lemma exec_six_digits_unfold s :
  exec_six_digits s =
    match take_digits 6 s with
    | Some code => Some code
    | None =>
        match s with
        | String _ rest => exec_six_digits rest
        | EmptyString => None
        end
    end.
Proof. by destruct s. Qed.

Lemma exec_six_digits_first text code :
  first_six_digits text code → exec_six_digits text = Some code.
Proof.
  intros (pre & rest & -> & Hstart & Hmin).
  induction pre as [|c pre IH].
  - apply take_digits_starts in Hstart.
    change ("" +:+ rest) with rest. by rewrite exec_six_digits_unfold, Hstart.
  - assert (Hnone : take_digits 6 (String c pre +:+ rest) = None).
    { destruct (take_digits 6 (String c pre +:+ rest)) as [code'|] eqn:Ht; [|done].
      apply take_digits_starts in Ht.
      by destruct (Hmin "" (String c pre +:+ rest) code' eq_refl
                        ltac:(simpl; lia)). }
    rewrite exec_six_digits_unfold, Hnone.
    change (String c pre +:+ rest) with (String c (pre +:+ rest)). apply IH.
    intros pre' rest' code' Heq Hlt.
    apply (Hmin (String c pre') rest' code'); [|simpl; lia].
    exact (f_equal (String c) Heq).
Qed.

Lemma exec_six_digits_none text :
  no_six_digits text → exec_six_digits text = None.
Proof.
  induction text as [|c text IH]; intros Hno.
  - done.
  - assert (Hnone : take_digits 6 (String c text) = None).
    { destruct (take_digits 6 (String c text)) as [code'|] eqn:Ht; [|done].
      apply take_digits_starts in Ht. by destruct (Hno "" _ code' eq_refl). }
    rewrite exec_six_digits_unfold, Hnone. apply IH.
    intros pre rest code Heq. apply (Hno (String c pre) rest code).
    exact (f_equal (String c) Heq).
Qed.

Lemma exec_six_digits_sound text code :
  exec_six_digits text = Some code → first_six_digits text code.
Proof.
  revert code. induction text as [|c text IH]; intros code.
  - done.
  - rewrite exec_six_digits_unfold.
    destruct (take_digits 6 (String c text)) as [code'|] eqn:Ht.
    + intros [= ->]. exists "", (String c text). split_and!; [done| |].
      * by apply take_digits_starts.
      * intros pre' rest' code' _ Hlt. simpl in Hlt. lia.
    + intros (pre & rest & -> & Hstart & Hmin)%IH.
      exists (String c pre), rest. split_and!; [done..|].
      intros [|c' pre'] rest' code' Heq Hlt.
      * change ("" +:+ rest') with rest' in Heq. subst rest'.
        intros Hs%take_digits_starts. congruence.
      * injection Heq as <- Heq. apply (Hmin pre' rest' code' Heq).
        simpl in Hlt. lia.
Qed.

Lemma exec_six_digits_none_sound text :
  exec_six_digits text = None → no_six_digits text.
Proof.
  induction text as [|c text IH].
  - intros _ [|c' pre] rest code Heq.
    + change ("" +:+ rest) with rest in Heq. subst rest.
      intros (post & Hp & Hlen & _). by destruct code.
    + done.
  - rewrite exec_six_digits_unfold.
    destruct (take_digits 6 (String c text)) as [code'|] eqn:Ht; [done|].
    intros Hn [|c' pre] rest code Heq.
    + change ("" +:+ rest) with rest in Heq. subst rest.
      intros Hs%take_digits_starts. congruence.
    + injection Heq as <- Heq. by apply (IH Hn pre rest code).
Qed.

(** The scan agrees with the reading of the regular expression. *)
Lemma exec_six_digits_Some text code :
  exec_six_digits text = Some code ↔ first_six_digits text code.
Proof. split; [apply exec_six_digits_sound | apply exec_six_digits_first]. Qed.

Lemma exec_six_digits_None text :
  exec_six_digits text = None ↔ no_six_digits text.
Proof. split; [apply exec_six_digits_none_sound | apply exec_six_digits_none]. Qed.

End digits_facts.

Section oauth_claims.
Context {O : Type} (settings : OAuthPromptSettings) (validator : Validator val O).

Lemma has_getUserToken_Some w getUserToken :
  adapter_getUserToken (adapter w) = Some getUserToken →
  has_getUserToken w = true.
Proof. intros H. unfold has_getUserToken. rewrite H. by apply bool_decide_eq_true. Qed.



End oauth_claims.



(** A text that is an array is joined into a string before the pattern is
    applied to it: for the text ["482913"] the adapter is asked with the
    code "482913". *)
Example recognize_array_text :
  to_string (store Sample.array_text_world)
            (get (store Sample.array_text_world)
                 (activity Sample.array_text_world) "text") = "482913" ∧
  recognize Sample.settings NoValidator Sample.array_text_world =
    (Resolved (VRef 6),
     with_event Sample.array_text_world
       (TokenRequest "GitConnection" (VString "482913") (Resolved (VRef 6)))).
Proof. split; reflexivity. Qed.

Section oauth_prompt_claims.
Variable settings : OAuthPromptSettings.

Lemma filter_cards_defined h elems :
  VUndefined ∉ elems →
  filter_cards h elems =
    inr (filter (fun a => get_val h a "contentType" = VString contentTypes_oauthCard)
                elems).
Proof.
  induction elems as [|a rest IH]; intros Hd; [done|].
  apply not_elem_of_cons in Hd as [Ha Hrest]. cbn [filter_cards].
  rewrite (IH Hrest), filter_cons.
  destruct a as [| | |l]; [done|..];
    by destruct (decide (_ = VString contentTypes_oauthCard)).
Qed.

Lemma filter_cards_undefined h elems :
  VUndefined ∈ elems → filter_cards h elems = inl TypeError_contentType.
Proof.
  induction elems as [|a rest IH]; intros Hin.
  - by apply elem_of_nil in Hin.
  - cbn [filter_cards]. destruct a as [| | |l]; [done|..];
      (apply elem_of_cons in Hin as [?|Hin]; [done|]); by rewrite (IH Hin).
Qed.

Lemma oauth_cards_nonempty h p :
  attachments_defined h p → has_oauth_card h p →
  ∃ found, oauth_cards h (get h p "attachments") = inr found ∧
           (length found =? 0) = false.
Proof.
  intros Hd (_ & a & Ha & Hc). unfold oauth_cards.
  rewrite filter_cards_defined by done. eexists. split; [done|].
  apply Nat.eqb_neq.
  assert (Hin : a ∈ filter (fun a => get_val h a "contentType"
                                     = VString contentTypes_oauthCard)
                           (elems_of h (get h p "attachments")))
    by (by apply list_elem_of_filter).
  destruct (filter _ _); [|done]. by apply not_elem_of_nil in Hin.
Qed.

Lemma oauth_cards_none h p :
  attachments_defined h p → no_oauth_card h p →
  oauth_cards h (get h p "attachments") = inr [].
Proof.
  intros Hd Hno. unfold oauth_cards. rewrite filter_cards_defined by done.
  f_equal. destruct (filter _ _) as [|a found] eqn:Hf; [done|].
  assert (Hin : a ∈ filter (fun a => get_val h a "contentType"
                                     = VString contentTypes_oauthCard)
                           (elems_of h (get h p "attachments")))
    by (rewrite Hf; by left).
  apply list_elem_of_filter in Hin as [Hc Hin]. by destruct (Hno a Hin).
Qed.

Lemma synthesized_has_oauth_card h :
  let '(card, h1) := CardFactory_oauthCard h (connectionName settings)
                       (title settings) (text settings) in
  let '(p, h2) := MessageFactory_attachment h1 card in
  has_oauth_card h2 p.
Proof.
  unfold CardFactory_oauthCard, MessageFactory_attachment, alloc.
  set (content := Obj _). set (card := Obj (<["contentType" := _]> _)).
  set (arr := Arr _). set (msg := Obj (<["type" := _]> _)).
  assert (L0 : ((((h ++ [content]) ++ [card]) ++ [arr]) ++ [msg])
               !! length (((h ++ [content]) ++ [card]) ++ [arr]) = Some msg)
    by (by apply list_lookup_middle).
  assert (L1 : ((((h ++ [content]) ++ [card]) ++ [arr]) ++ [msg])
               !! length ((h ++ [content]) ++ [card]) = Some arr).
  { rewrite lookup_app_l by (rewrite !length_app; simpl; lia).
    by apply list_lookup_middle. }
  assert (L2 : ((((h ++ [content]) ++ [card]) ++ [arr]) ++ [msg])
               !! length (h ++ [content]) = Some card).
  { rewrite !lookup_app_l by (rewrite !length_app; simpl; lia).
    by apply list_lookup_middle. }
  assert (G : get ((((h ++ [content]) ++ [card]) ++ [arr]) ++ [msg])
                (length (((h ++ [content]) ++ [card]) ++ [arr])) "attachments"
              = VRef (length ((h ++ [content]) ++ [card]))).
  { unfold get, fields_of. by rewrite L0. }
  split.
  - rewrite G. simpl. by rewrite L1.
  - exists (VRef (length (h ++ [content]))). rewrite G. simpl. rewrite L1. split.
    + apply list_elem_of_singleton. done.
    + unfold get, fields_of. by rewrite L2.
Qed.

Lemma kept_trans h1 h2 h3 :
  kept h1 h2 → kept h2 h3 → length h1 ≤ length h2 → kept h1 h3.
Proof. intros K1 K2 Hl l Hlt. rewrite K2 by lia. by apply K1. Qed.

Lemma kept_prefix h h' : h `prefix_of` h' → kept h h'.
Proof. intros [k ->] l Hl. by apply lookup_app_l. Qed.

Lemma has_oauth_card_kept h h' p o :
  kept h h' → get h' o "attachments" = get h p "attachments" →
  has_oauth_card h p → has_oauth_card h' o.
Proof.
  intros K Hatt (Harr & a & Ha & Hc). unfold has_oauth_card. rewrite Hatt.
  destruct (get h p "attachments") as [| | |arr]; try done. simpl in *.
  destruct (h !! arr) as [[m|vs]|] eqn:Hl; try done.
  rewrite (K arr) by (by eapply lookup_lt_Some). rewrite Hl.
  split; [done|]. exists a. split; [done|].
  destruct a as [| | |l]; try done. simpl in *.
  unfold get, fields_of in *.
  destruct (h !! l) as [[m|vs']|] eqn:Hl'; try done.
  rewrite (K l) by (by eapply lookup_lt_Some). by rewrite Hl'.
Qed.

Lemma stamp_attachments h ref a :
  (stamp h ref a).1 = length h ∧
  kept h (stamp h ref a).2 ∧
  get (stamp h ref a).2 (stamp h ref a).1 "attachments" = get h a "attachments".
Proof.
  unfold stamp, assign_empty, alloc.
  pose proof (applyConversationReference_returns
                (h ++ [Obj (fields_of h a)]) (length h) ref false) as Hret.
  pose proof (applyConversationReference_frame
                (h ++ [Obj (fields_of h a)]) (length h) ref false) as Hfr.
  assert (Hatt : get (applyConversationReference (h ++ [Obj (fields_of h a)])
                        (length h) ref false).2 (length h) "attachments"
                 = get h a "attachments").
  { unfold applyConversationReference. simpl.
    match goal with |- context [if ?b then _ else _] => destruct b end;
      rewrite !get_put_field_ne by done;
      unfold get at 1, fields_of at 1; by rewrite list_lookup_middle. }
  destruct (applyConversationReference (h ++ [Obj (fields_of h a)])
              (length h) ref false) as [o h2]. simpl in *. subst o.
  split_and!; [done| |].
  - intros l Hl.
    destruct (negb (truthy (get h2 (length h) "type")));
      rewrite ?lookup_put_ne by lia; rewrite Hfr by lia; by apply lookup_app_l.
  - destruct (negb (truthy (get h2 (length h) "type")));
      by rewrite ?get_put_field_ne by done.
Qed.

Lemma and_then_ret_world {A B} (m : M A) (g : A → B) w :
  (and_then m (fun x => ret (g x)) w).2 = (m w).2.
Proof. unfold and_then. by destruct (m w) as [[a|e|e] w']. Qed.

Lemma sendActivities_plain activities w :
  _onSendActivities (context w) = [] →
  let output := (prepare activities w).1 in
  let w0 := (prepare activities w).2 in
  log (sendActivities activities w).2 =
    log w ++ [TransportSend output
                (adapter_sendActivities (adapter w) (store w0) output)] ∧
  store (sendActivities activities w).2 = store w0.
Proof.
  intros Hnil. unfold sendActivities.
  destruct (prepare_world activities w) as [Hc Hl].
  destruct (prepare activities w) as [output w0]. simpl in *.
  rewrite Hc, Hnil, emit_nil. simpl.
  destruct (transport_send_result output w0) as (_ & Hlog & Hst).
  unfold adapter in *. by rewrite Hlog, Hl, Hst, Hc.
Qed.

Lemma prepare_single p w :
  ∃ ref h, store w `prefix_of` h ∧
    (prepare [p] w).1 = [(stamp h ref p).1] ∧
    store (prepare [p] w).2 = (stamp h ref p).2.
Proof.
  unfold prepare.
  destruct (getConversationReference (store w) (activity w)) as [ref h] eqn:E.
  apply getConversationReference_spec in E as (P & _).
  exists ref, h. simpl. by destruct (stamp h ref p).
Qed.

Lemma sendPrompt_sends w p :
  _onSendActivities (context w) = [] →
  has_oauth_card (store w) p →
  ∃ o outcome,
    log (sendPrompt (inr p) w).2 = log w ++ [TransportSend [o] outcome] ∧
    has_oauth_card (store (sendPrompt (inr p) w).2) o.
Proof.
  intros Hnil Hcard.
  unfold sendPrompt. rewrite and_then_ret_world.
  unfold sendActivity.
  replace (with_store w (store w)) with w by (by destruct w).
  rewrite and_then_ret_world.
  destruct (sendActivities_plain [p] w Hnil) as [Hlog Hst].
  destruct (prepare_single p w) as (ref & h & P & Hout & Hstore).
  destruct (stamp_attachments h ref p) as (Ho & Hk & Hatt).
  rewrite Hout in Hlog. rewrite Hstore in Hst.
  eexists _, _. split; [exact Hlog|]. rewrite Hst.
  assert (Hp : p < length (store w)).
  { destruct Hcard as (Harr & _). unfold get, fields_of in Harr.
    destruct (decide (p < length (store w))) as [|Hge]; [done|].
    by rewrite (lookup_ge_None_2 (store w) p) in Harr by lia. }
  eapply has_oauth_card_kept; [| |exact Hcard].
  - eapply kept_trans; [by apply kept_prefix | exact Hk | by apply prefix_length].
  - rewrite Hatt. by apply get_prefix.
Qed.

(** C7.  [prompt] on an adapter without [getUserToken] is rejected with
    "OAuthPrompt.prompt(): not supported for the current adapter." (the
    spec's UnsupportedAdapter) and the world is as before: nothing was
    sent.  A supplied prompt activity without an attachments array, or
    whose attachments have no OAuthCard among them, is rejected with
    "OAuthPrompt.prompt(): supplied prompt missing attachments." or
    "... missing OAuthCard." (the spec's MalformedPrompt), again with the
    world as before; so is, with the TypeError of reading its
    [contentType], a prompt with an attachment that is [undefined],
    whatever its other attachments.  A supplied prompt with an OAuthCard
    among its attachments is handed to [sendPrompt]; when no prompt
    activity is supplied, a message with an OAuthCard attachment is made
    and handed to [sendPrompt].  Either way, with no send interceptor
    registered, the adapter is then called once with one activity, and
    that activity carries an OAuthCard.  In all: a supplied prompt that
    does not carry an OAuthCard is rejected, and nothing is sent. *)
Theorem prompt_validation :
  (∀ w p,
     has_getUserToken w = false →
     prompt settings p w =
       (Rejected "OAuthPrompt.prompt(): not supported for the current adapter.", w)) ∧
  (∀ w p,
     has_getUserToken w = true →
     isArray (store w) (get (store w) p "attachments") = false →
     prompt settings (VRef p) w =
       (Rejected "OAuthPrompt.prompt(): supplied prompt missing attachments.", w)) ∧
  (∀ w p,
     has_getUserToken w = true →
     isArray (store w) (get (store w) p "attachments") = true →
     attachments_defined (store w) p →
     no_oauth_card (store w) p →
     prompt settings (VRef p) w =
       (Rejected "OAuthPrompt.prompt(): supplied prompt missing OAuthCard.", w)) ∧
  (∀ w p,
     has_getUserToken w = true →
     isArray (store w) (get (store w) p "attachments") = true →
     ¬ attachments_defined (store w) p →
     prompt settings (VRef p) w = (Rejected TypeError_contentType, w)) ∧
  (∀ w p,
     has_getUserToken w = true →
     attachments_defined (store w) p →
     has_oauth_card (store w) p →
     prompt settings (VRef p) w = rejecting (sendPrompt (inr p)) w ∧
     (_onSendActivities (context w) = [] →
      ∃ o outcome,
        log (prompt settings (VRef p) w).2 = log w ++ [TransportSend [o] outcome] ∧
        has_oauth_card (store (prompt settings (VRef p) w).2) o)) ∧
  (∀ w v,
     has_getUserToken w = true →
     is_object v = false →
     let '(card, h1) := CardFactory_oauthCard (store w) (connectionName settings)
                          (title settings) (text settings) in
     let '(p, h2) := MessageFactory_attachment h1 card in
     has_oauth_card h2 p ∧
     prompt settings v w = rejecting (sendPrompt (inr p)) (with_store w h2)) ∧
  (∀ w v,
     has_getUserToken w = true →
     is_object v = false →
     _onSendActivities (context w) = [] →
     ∃ o outcome,
       log (prompt settings v w).2 = log w ++ [TransportSend [o] outcome] ∧
       has_oauth_card (store (prompt settings v w).2) o) ∧
  (∀ w p,
     ¬ has_oauth_card (store w) p →
     ∃ e, prompt settings (VRef p) w = (Rejected e, w)).
Proof.
  assert (Hsynth : ∀ w v,
     has_getUserToken w = true →
     is_object v = false →
     let '(card, h1) := CardFactory_oauthCard (store w) (connectionName settings)
                          (title settings) (text settings) in
     let '(p, h2) := MessageFactory_attachment h1 card in
     has_oauth_card h2 p ∧
     prompt settings v w = rejecting (sendPrompt (inr p)) (with_store w h2)).
  { intros w v Hhas Hv.
    pose proof (synthesized_has_oauth_card (store w)) as Hs.
    destruct (CardFactory_oauthCard (store w) (connectionName settings)
                (title settings) (text settings)) as [card h1] eqn:E1.
    destruct (MessageFactory_attachment h1 card) as [p h2] eqn:E2.
    split; [done|].
    unfold prompt, rejecting at 1. rewrite Hhas. cbn [negb].
    destruct v as [| | |l]; try done; by rewrite E1, E2. }
  split_and!.
  - intros w p Hhas. unfold prompt, rejecting. by rewrite Hhas.
  - intros w p Hhas Harr. unfold prompt, rejecting. by rewrite Hhas, Harr.
  - intros w p Hhas Harr Hd Hno. unfold prompt, rejecting.
    by rewrite Hhas, Harr, (oauth_cards_none _ _ Hd Hno).
  - intros w p Hhas Harr Hd. unfold prompt, rejecting.
    rewrite Hhas, Harr. unfold oauth_cards.
    rewrite filter_cards_undefined; [done|].
    unfold attachments_defined in Hd.
    by destruct (decide (VUndefined ∈ elems_of (store w)
                                        (get (store w) p "attachments"))).
  - intros w p Hhas Hd Hcard.
    assert (Heq : prompt settings (VRef p) w = rejecting (sendPrompt (inr p)) w).
    { unfold prompt, rejecting at 1.
      destruct (oauth_cards_nonempty _ _ Hd Hcard) as (found & -> & ->).
      by rewrite Hhas, (proj1 Hcard). }
    split; [exact Heq|]. intros Hnil. rewrite Heq.
    destruct (sendPrompt_sends w p Hnil Hcard) as (o & outcome & Hlog & Hc).
    exists o, outcome. unfold rejecting.
    destruct (sendPrompt (inr p) w) as [r w']. by simpl in *.
  - exact Hsynth.
  - intros w v Hhas Hv Hnil. specialize (Hsynth w v Hhas Hv).
    destruct (CardFactory_oauthCard (store w) (connectionName settings)
                (title settings) (text settings)) as [card h1].
    destruct (MessageFactory_attachment h1 card) as [p h2].
    destruct Hsynth as [Hcard ->].
    destruct (sendPrompt_sends (with_store w h2) p Hnil Hcard)
      as (o & outcome & Hlog & Hc).
    exists o, outcome. unfold rejecting.
    destruct (sendPrompt (inr p) (with_store w h2)) as [r w']. by simpl in *.
  - intros w p Hno. unfold prompt, rejecting.
    destruct (has_getUserToken w); cbn [negb]; [|by eexists].
    destruct (isArray (store w) (get (store w) p "attachments")) eqn:Harr;
      cbn [negb]; [|by eexists].
    destruct (decide (VUndefined ∈ elems_of (store w)
                                    (get (store w) p "attachments"))) as [Hu|Hd].
    + unfold oauth_cards. rewrite filter_cards_undefined by done. by eexists.
    + rewrite (oauth_cards_none (store w) p); [by eexists | done |].
      intros a Ha Hc. apply Hno. split; [done|]. by exists a.
Qed.

End oauth_prompt_claims.

Lemma prompt_validation_witness :
  has_getUserToken Sample.datetime_world = false ∧
  prompt Sample.settings VUndefined Sample.datetime_world =
    (Rejected "OAuthPrompt.prompt(): not supported for the current adapter.",
     Sample.datetime_world) ∧
  has_getUserToken Sample.code_world = true ∧
  ∃ o outcome,
    log (prompt Sample.settings VUndefined Sample.code_world).2
      = log Sample.code_world ++ [TransportSend [o] outcome] ∧
    has_oauth_card (store (prompt Sample.settings VUndefined Sample.code_world).2) o.
Proof.
  split_and!; [reflexivity | | reflexivity |].
  - exact (proj1 (prompt_validation Sample.settings)
             Sample.datetime_world VUndefined eq_refl).
  - exact (proj1 (proj2 (proj2 (proj2 (proj2 (proj2 (proj2
             (prompt_validation Sample.settings)))))))
             Sample.code_world VUndefined eq_refl eq_refl eq_refl).
Defined.

(** A prompt whose only attachment is a hero card is rejected, and so is
    one whose attachments are [undefined] and a sign-in card; nothing is
    sent. *)
Example prompt_rejects_samples :
  prompt Sample.settings (VRef 9) Sample.prompt_world =
    (Rejected "OAuthPrompt.prompt(): supplied prompt missing OAuthCard.",
     Sample.prompt_world) ∧
  has_oauth_card (store Sample.prompt_world) 12 ∧
  prompt Sample.settings (VRef 12) Sample.prompt_world =
    (Rejected TypeError_contentType, Sample.prompt_world).
Proof.
  split_and!; [reflexivity | | reflexivity].
  split; [reflexivity|]. exists (VRef 10). split; [|reflexivity].
  apply elem_of_cons. right. apply elem_of_cons. by left.
Qed.

(** ** The date and time prompt *)

Section datetime_claims.
Import Datetime.
Variable recognizeDateTime : string → string → list ModelResult.
Variable defaultLocale : option string.

Lemma or_else_text (h : heap) (text : option string) :
  to_string h (or_else (opt text) (VString "")) = default "" text.
Proof.
  destruct text as [t|]; [|done]. unfold or_else. simpl.
  destruct (String.eqb_spec t ""); by subst.
Qed.

Lemma or_else_locale (h : heap) (locale : option string) :
  to_string h (or_else (or_else (opt locale) (opt defaultLocale)) (VString "en-us"))
    = chosen_locale locale defaultLocale.
Proof.
  unfold chosen_locale, given, or_else.
  destruct locale as [l|]; cbn -[String.eqb].
  - destruct (String.eqb l "") eqn:El; cbn -[String.eqb]; [|by rewrite ?El].
    destruct defaultLocale as [d|]; cbn -[String.eqb]; [|done].
    destruct (String.eqb d "") eqn:Ed; cbn -[String.eqb]; by rewrite ?Ed.
  - destruct defaultLocale as [d|]; cbn -[String.eqb]; [|done].
    destruct (String.eqb d "") eqn:Ed; cbn -[String.eqb]; by rewrite ?Ed.
Qed.

Lemma first_values_candidate results :
  candidate results (first_values results).
Proof.
  destruct results as [|first rest]; simpl; [constructor|].
  destruct (resolution first) as [r|] eqn:Hr; by constructor.
Qed.

Lemma candidate_unique results v v' :
  candidate results v → candidate results v' → v = v'.
Proof. intros H H'. destruct H; inversion H'; congruence. Qed.

(** C8.  [recognize] runs the date and time recognizer on the text of the
    activity (the empty string when absent) with the locale of the activity
    if set, else the configured default locale, else "en-us".  Its candidate
    value is the values of the first result when there is a first result
    and it has a resolution, and absent otherwise.  Without a validator the
    call resolves to that candidate, so it never raises and a text that
    matches nothing gives an absent value; with a validator, the candidate
    is what the validator receives and the result is the validator's. *)
Theorem datetime_recognize :
  ∀ (w : World) (text locale : option string),
    get (store w) (activity w) "text" = opt text →
    get (store w) (activity w) "locale" = opt locale →
    let results := recognizeDateTime (default "" text)
                                     (chosen_locale locale defaultLocale) in
    ∃ value,
      candidate results value ∧
      recognize recognizeDateTime NoValidator defaultLocale w = (Resolved value, w) ∧
      (results = [] →
         recognize recognizeDateTime NoValidator defaultLocale w = (Resolved None, w)) ∧
      ∀ (O : Type) (validator : Validator (option (list FoundDatetime)) O),
        recognize recognizeDateTime validator defaultLocale w
          = validated validator value w.
Proof.
  intros w text locale Ht Hl results.
  exists (first_values results). split_and!.
  - apply first_values_candidate.
  - unfold recognize. rewrite Ht, Hl, or_else_text, or_else_locale. done.
  - intros Hnil. unfold recognize.
    rewrite Ht, Hl, or_else_text, or_else_locale. fold results. by rewrite Hnil.
  - intros O validator. unfold recognize.
    by rewrite Ht, Hl, or_else_text, or_else_locale.
Qed.

End datetime_claims.

(** The scenario of the spec: "tomorrow at 3pm" in en-us gives the values
    of the first candidate, "asdf" gives an absent value. *)
Example datetime_scenario :
  Datetime.recognize Sample.recognizer NoValidator None Sample.datetime_world
    = (Resolved (Some [Sample.tomorrow_3pm]), Sample.datetime_world) ∧
  Datetime.recognize Sample.recognizer NoValidator None Sample.asdf_world
    = (Resolved None, Sample.asdf_world).
Proof. split; reflexivity. Qed.

Lemma datetime_recognize_witness :
  get (store Sample.datetime_world) (activity Sample.datetime_world) "text"
    = opt (Some "tomorrow at 3pm") ∧
  get (store Sample.datetime_world) (activity Sample.datetime_world) "locale"
    = opt (Some "en-us") ∧
  ∃ value,
    Datetime.candidate (Sample.recognizer "tomorrow at 3pm" "en-us") value ∧
    Datetime.recognize Sample.recognizer NoValidator None Sample.datetime_world
      = (Resolved value, Sample.datetime_world) ∧
    (Sample.recognizer "tomorrow at 3pm" "en-us" = [] →
       Datetime.recognize Sample.recognizer NoValidator None Sample.datetime_world
         = (Resolved None, Sample.datetime_world)) ∧
    ∀ (O : Type) (validator : Validator (option (list Datetime.FoundDatetime)) O),
      Datetime.recognize Sample.recognizer validator None Sample.datetime_world
        = validated validator value Sample.datetime_world.
Proof.
  split_and!; [reflexivity | reflexivity |].
  exact (datetime_recognize Sample.recognizer None Sample.datetime_world
           (Some "tomorrow at 3pm") (Some "en-us") eq_refl eq_refl).
Defined.

(** ** Blob storage *)

Section blob_facts.
Import Blob.

Lemma unescape_escape_char c rest :
  unescape_char (escape_char c +:+ rest) = Some (c, rest).
Proof. by destruct c as [[] [] [] [] [] [] [] []]. Qed.

Lemma escape_inj s1 s2 : escape s1 = escape s2 → s1 = s2.
Proof.
  revert s2. induction s1 as [|c1 s1 IH]; intros [|c2 s2] H; simpl in H.
  - done.
  - apply (f_equal unescape_char) in H.
    by rewrite unescape_escape_char in H.
  - apply (f_equal unescape_char) in H.
    by rewrite unescape_escape_char in H.
  - apply (f_equal unescape_char) in H.
    rewrite !unescape_escape_char in H. injection H as -> H.
    by rewrite (IH _ H).
Qed.

Lemma substring_all s n :
  String.length s ≤ n → String.substring 0 n s = s.
Proof.
  revert n. induction s as [|c s IH]; intros [|n] Hn; simpl in *; try done.
  - lia.
  - rewrite IH by lia. done.
Qed.

Lemma split_slash_no_slash key :
  has_slash key = false → split_slash key = [key].
Proof.
  unfold has_slash. induction key as [|c key IH]; [done|].
  cbn [String.list_ascii_of_string existsb split_slash].
  intros [Hc Hk]%orb_false_iff. by rewrite Hc, (IH Hk).
Qed.

Lemma sanitizeKey_no_slash key :
  key ≠ "" → has_slash key = false →
  sanitizeKey key = inr (String.substring 0 1024 (escape key)).
Proof.
  intros Hne Hs. unfold sanitizeKey.
  destruct key as [|c key]; [done|]. simpl String.eqb. simpl String.length.
  cbn [orb Nat.ltb Nat.leb]. by rewrite (split_slash_no_slash _ Hs).
Qed.

End blob_facts.

Section blob_claims.
Import Blob.

(** C9, as the code has it.  A key that is not empty, has no '/' in it, and
    whose escaped form fits in 1024 characters, is given its escaped form as
    blob name; two different such keys are given different blob names. *)
Theorem sanitizeKey_distinct_plain_keys k1 k2 :
  k1 ≠ "" → k2 ≠ "" →
  has_slash k1 = false → has_slash k2 = false →
  String.length (escape k1) ≤ 1024 → String.length (escape k2) ≤ 1024 →
  sanitizeKey k1 = inr (escape k1) ∧
  sanitizeKey k2 = inr (escape k2) ∧
  (k1 ≠ k2 → sanitizeKey k1 ≠ sanitizeKey k2).
Proof.
  intros N1 N2 S1 S2 L1 L2.
  rewrite (sanitizeKey_no_slash _ N1 S1), (sanitizeKey_no_slash _ N2 S2).
  rewrite !substring_all by done.
  split_and!; [done..|].
  intros Hne [= H]. by apply escape_inj in H.
Qed.

Lemma sanitizeKey_distinct_plain_keys_witness :
  sanitizeKey "user 1" = inr "user%201" ∧
  sanitizeKey "user 2" = inr "user%202" ∧
  sanitizeKey "user 1" ≠ sanitizeKey "user 2".
Proof.
  split_and!; [reflexivity | reflexivity |].
  refine (proj2 (proj2 (sanitizeKey_distinct_plain_keys "user 1" "user 2"
                          _ _ _ _ _ _)) _);
    [ discriminate | discriminate | reflexivity | reflexivity
    | vm_compute; lia | vm_compute; lia | discriminate ].
Defined.

(** C9 as the claim states it fails.  Whatever follows the first '/' of a
    key is dropped, so "a/b" and "a/c" are given the same blob name; and
    the name is cut at 1024 characters, so two keys of 1025 characters that
    differ in the last one are given the same name. *)
Lemma sanitizeKey_collisions :
  "a/b" ≠ "a/c" ∧
  sanitizeKey "a/b" = inr "a" ∧ sanitizeKey "a/c" = inr "a" ∧
  Sample.long_key 1024 "b" ≠ Sample.long_key 1024 "c" ∧
  sanitizeKey (Sample.long_key 1024 "b") = sanitizeKey (Sample.long_key 1024 "c").
Proof.
  split_and!; [discriminate | reflexivity | reflexivity | | by vm_compute].
  intros H%(f_equal (String.get 1024)). vm_compute in H. discriminate.
Qed.

(** C10, as the code has it.  With an empty array of keys (or one whose
    keys are all empty strings, which the filter removes), the promise made
    inside [read] is never resolved and never rejected, whatever the blob
    service does.  So the promise [read] returns, made from the promise
    for the container, is never fulfilled: it stays pending for ever once
    the container is there (and while it is awaited), and it is rejected
    when the promise for the container is, with the same error. *)
Theorem read_no_keys_never_settles :
  ∀ (client : BlobService) (parse : string → option Document)
    (containerName : string) (settled : nat → nat),
    (∀ container, read_items client parse settled container [] = Pending) ∧
    (∀ keys checkedCollections p,
       filter (fun k => k ≠ "") keys = [] →
       (ensureContainerExists client containerName checkedCollections).1
         = Promised p →
       (read client parse containerName settled (Some keys) checkedCollections).1
         = inr (and_then p (fun _ => Pending))) ∧
    (∀ checkedCollections container,
       (ensureContainerExists client containerName checkedCollections).1
         = Promised (Fulfilled container) →
       (read client parse containerName settled (Some []) checkedCollections).1
         = inr Pending) ∧
    (∀ checkedCollections,
       (ensureContainerExists client containerName checkedCollections).1
         = Promised Pending →
       (read client parse containerName settled (Some []) checkedCollections).1
         = inr Pending) ∧
    (∀ checkedCollections e,
       (ensureContainerExists client containerName checkedCollections).1
         = Promised (Failed e) →
       (read client parse containerName settled (Some []) checkedCollections).1
         = inr (Failed e)) ∧
    (∀ checkedCollections items,
       (read client parse containerName settled (Some []) checkedCollections).1
         ≠ inr (Fulfilled items)).
Proof.
  intros client parse containerName settled.
  assert (Hread : ∀ keys checkedCollections p,
       filter (fun k => k ≠ "") keys = [] →
       (ensureContainerExists client containerName checkedCollections).1
         = Promised p →
       (read client parse containerName settled (Some keys) checkedCollections).1
         = inr (and_then p (fun _ => Pending))).
  { intros keys cache p Hf Hp. unfold read. rewrite Hf. simpl.
    destruct (ensureContainerExists client containerName cache) as [found c].
    simpl in Hp. by subst found. }
  split_and!.
  - done.
  - exact Hread.
  - intros cache container Hc. by rewrite (Hread [] cache _ eq_refl Hc).
  - intros cache Hc. by rewrite (Hread [] cache _ eq_refl Hc).
  - intros cache e Hc. by rewrite (Hread [] cache _ eq_refl Hc).
  - intros cache items.
    destruct (ensureContainerExists client containerName cache).1 as [p|name] eqn:Hc.
    + rewrite (Hread [] cache _ eq_refl Hc). by destruct p.
    + unfold read. simpl.
      destruct (ensureContainerExists client containerName cache) as [found c].
      simpl in Hc. by subst found.
Qed.

Lemma read_no_keys_never_settles_witness :
  (ensureContainerExists Sample.empty_service "state" ∅).1
    = Promised (Fulfilled {| container_name := "state" |}) ∧
  (read Sample.empty_service (fun _ => None) "state" (fun i => i) (Some []) ∅).1
    = inr Pending.
Proof.
  split; [reflexivity|].
  exact (proj1 (proj2 (proj2 (read_no_keys_never_settles
                                Sample.empty_service (fun _ => None) "state" (fun i => i))))
           ∅ {| container_name := "state" |} eq_refl).
Defined.

(** C10 as the claim states it fails.  When the service cannot make the
    container, the promise that [read] returns for an empty array of keys
    is settled: it is rejected with the error of the service. *)
Lemma read_no_keys_rejected :
  (read Sample.failing_service (fun _ => None) "state" (fun i => i) (Some []) ∅).1
    = inr (Failed "ContainerNotCreated").
Proof. reflexivity. Qed.

End blob_claims.

(* ===================================================================== *)
(** * Further properties *)
(* ===================================================================== *)

(** ** Sending, updating and deleting through the turn context *)

Import Spec.

Ltac split_in_list H :=
  repeat (apply not_elem_of_cons in H as [? H]).

Ltac in_list :=
  repeat first [ by apply elem_of_cons; left | apply elem_of_cons; right ].

Ltac not_in_list :=
  let H := fresh in
  intros H;
  repeat (apply elem_of_cons in H as [H|H]; [done|]);
  by apply elem_of_nil in H.

Section stamp_facts.
Implicit Types (h : heap) (l a o ref : loc) (f : string).

Lemma get_kept h h' l f : kept h h' → l < length h → get h' l f = get h l f.
Proof. intros K Hl. unfold get, fields_of. by rewrite K. Qed.

Lemma get_alloc_new h m f : get (h ++ [Obj m]) (length h) f = default VUndefined (m !! f).
Proof. unfold get, fields_of. by rewrite list_lookup_middle. Qed.

Lemma get_alloc_old h obj l f :
  l < length h → get (h ++ [obj]) l f = get h l f.
Proof. intros Hl. unfold get, fields_of. by rewrite lookup_app_l. Qed.

Lemma applyConversationReference_get_other h a r inc l f :
  f ∉ ["channelId"; "serviceUrl"; "conversation"; "from"; "recipient";
       "id"; "replyToId"] →
  get (applyConversationReference h a r inc).2 l f = get h l f.
Proof.
  intros Hf. split_in_list Hf. unfold applyConversationReference.
  destruct inc; simpl;
    repeat match goal with |- context [if ?b then _ else _] => destruct b end;
    by rewrite !get_put_field_ne by done.
Qed.

Lemma applyConversationReference_is_obj h a r inc l :
  is_obj h l → is_obj (applyConversationReference h a r inc).2 l.
Proof.
  intros Hl. unfold applyConversationReference.
  destruct inc; simpl;
    repeat match goal with |- context [if ?b then _ else _] => destruct b end;
    by repeat apply is_obj_put.
Qed.

Lemma stamp_spec h ref a :
  ref < length h →
  (stamp h ref a).1 = length h ∧
  length (stamp h ref a).2 = S (length h) ∧
  kept h (stamp h ref a).2 ∧
  is_obj (stamp h ref a).2 (stamp h ref a).1 ∧
  stamped_as h ref a (stamp h ref a).2 (stamp h ref a).1.
Proof.
  intros Hr. unfold stamp, assign_empty, alloc.
  set (h1 := h ++ [Obj (fields_of h a)]).
  assert (Ho : is_obj h1 (length h)) by (eexists; by apply list_lookup_middle).
  assert (Hnew : ∀ f, get h1 (length h) f = get h a f).
  { intros f. unfold h1. rewrite get_alloc_new. done. }
  assert (Hold : ∀ f, get h1 ref f = get h ref f)
    by (intros f; by apply get_alloc_old).
  assert (Hl1 : length h1 = S (length h))
    by (unfold h1; rewrite length_app; simpl; lia).
  pose proof (applyConversationReference_returns h1 (length h) ref false) as Hret.
  pose proof (applyConversationReference_frame h1 (length h) ref false) as Hfr.
  pose proof (applyConversationReference_length h1 (length h) ref false) as Hlen.
  pose proof (applyConversationReference_is_obj h1 (length h) ref false _ Ho) as Ho2.
  pose proof (applyConversationReference_get h1 (length h) ref false Ho)
    as (G1 & G2 & G3 & G4 & G5 & G6 & G7).
  pose proof (applyConversationReference_get_other h1 (length h) ref false
                (length h)) as Gother.
  destruct (applyConversationReference h1 (length h) ref false) as [o h2].
  simpl in Hret, Hfr, Hlen, Ho2, G1, G2, G3, G4, G5, G6, G7, Gother. subst o.
  rewrite !Hold in G1, G2, G3, G4, G5, G6. rewrite Hnew in G6.
  assert (Htype : get h2 (length h) "type" = get h a "type").
  { rewrite Gother; [apply Hnew|]. not_in_list. }
  assert (Gf : ∀ f, f ∉ stamped_fields → get h2 (length h) f = get h a f).
  { intros f Hf. destruct (decide (f = "id")) as [->|Hid]; [by rewrite G7|].
    rewrite Gother; [apply Hnew|].
    unfold stamped_fields in Hf. split_in_list Hf. not_in_list. }
  cbn [fst snd]. rewrite Htype.
  assert (K2 : kept h h2).
  { intros l Hl. rewrite Hfr by lia. unfold h1. by apply lookup_app_l. }
  destruct (truthy (get h a "type")) eqn:Et; cbn [negb].
  - split_and!; [done | lia | done | done |].
    unfold stamped_as. rewrite Htype, Et. by split_and!.
  - split_and!; [done | by rewrite length_put; lia | | by apply is_obj_put |].
    + intros l Hl. rewrite lookup_put_ne by lia. by apply K2.
    + unfold stamped_as. rewrite Et.
      rewrite !get_put_field_ne by done. rewrite get_put_eq by done.
      split_and!; try done.
      intros f Hf. rewrite get_put_field_ne; [by apply Gf|].
      unfold stamped_fields in Hf. split_in_list Hf. done.
Qed.

Lemma stamped_as_source h h1 ref a h' o :
  kept h h1 → ref < length h → a < length h →
  stamped_as h1 ref a h' o → stamped_as h ref a h' o.
Proof.
  intros K Hr Ha. unfold stamped_as.
  by rewrite !(get_kept h h1 ref) by done; rewrite !(get_kept h h1 a) by done;
    setoid_rewrite (get_kept h h1 a).
Qed.

Lemma stamped_as_target h ref a h1 h' o :
  kept h1 h' → o < length h1 →
  stamped_as h ref a h1 o → stamped_as h ref a h' o.
Proof.
  intros K Ho. unfold stamped_as.
  by rewrite !(get_kept h1 h' o) by done; setoid_rewrite (get_kept h1 h' o).
Qed.

Lemma stamp_all_cons h ref a rest :
  stamp_all h ref (a :: rest) =
    ((stamp h ref a).1 :: (stamp_all (stamp h ref a).2 ref rest).1,
     (stamp_all (stamp h ref a).2 ref rest).2).
Proof.
  cbn [stamp_all]. destruct (stamp h ref a) as [o h1]. cbn [fst snd].
  by destruct (stamp_all h1 ref rest).
Qed.

Lemma stamp_all_spec h ref activities :
  ref < length h → Forall (fun a => a < length h) activities →
  length (stamp_all h ref activities).1 = length activities ∧
  length (stamp_all h ref activities).2 = length h + length activities ∧
  kept h (stamp_all h ref activities).2 ∧
  ∀ i a o,
    activities !! i = Some a → (stamp_all h ref activities).1 !! i = Some o →
    o = length h + i ∧
    is_obj (stamp_all h ref activities).2 o ∧
    stamped_as h ref a (stamp_all h ref activities).2 o.
Proof.
  revert h. induction activities as [|a rest IH]; intros h Hr Hall.
  - simpl. split_and!; [done | lia | done |]. by intros i a o [=].
  - apply Forall_cons in Hall as [Ha Hall]. rewrite stamp_all_cons.
    destruct (stamp_spec h ref a Hr) as (Eo & El & K & Oo & St).
    destruct (stamp h ref a) as [o h1]. simpl in Eo, El, K, Oo, St. subst o.
    cbn [fst snd].
    assert (Hr1 : ref < length h1) by lia.
    assert (Hall1 : Forall (fun a => a < length h1) rest).
    { eapply Forall_impl; [exact Hall|]. simpl. intros; lia. }
    destruct (IH h1 Hr1 Hall1) as (L1 & L2 & K1 & Hi).
    destruct (stamp_all h1 ref rest) as [os h']. simpl in *.
    split_and!; [by rewrite L1 | lia | apply (kept_trans h h1 h'); [done..|lia] |].
    intros [|i] a' o' Ha' Ho'; simpl in *.
    + injection Ha' as <-. injection Ho' as <-. split_and!; [lia | |].
      * destruct Oo as [m Hm]. exists m. rewrite K1; [done|lia].
      * apply (stamped_as_target h ref a h1 h'); [done | lia | done].
    + destruct (Hi i a' o' Ha' Ho') as (-> & Oo' & St').
      split_and!; [lia | done |].
      apply (stamped_as_source h h1 ref a' h'); [done..| | done].
      eapply Forall_lookup_1 in Hall; [|exact Ha']. done.
Qed.

End stamp_facts.

Section send_properties.

Lemma prepare_spec activities w :
  Forall (fun a => a < length (store w)) activities →
  ∃ ref h1,
    getConversationReference (store w) (activity w) = (ref, h1) ∧
    (prepare activities w).1 = (stamp_all h1 ref activities).1 ∧
    store (prepare activities w).2 = (stamp_all h1 ref activities).2 ∧
    ref < length h1 ∧ Forall (fun a => a < length h1) activities.
Proof.
  intros Hall. unfold prepare.
  destruct (getConversationReference (store w) (activity w)) as [ref h1] eqn:E.
  exists ref, h1.
  apply getConversationReference_spec in E as (P & _ & Hl & _).
  destruct (stamp_all h1 ref activities) as [output h'] eqn:E'. simpl.
  split_and!; [done.. | lia |].
  eapply Forall_impl; [exact Hall|]. simpl. intros a Ha.
  apply prefix_length in P. lia.
Qed.

(** X1.  With no send interceptor registered, [sendActivities] calls the
    adapter once, with as many activities as it was given.  The activities
    it was given, and every other object of the store, are as before: what
    is sent are new objects.  Each of them has the channelId and serviceUrl
    of the inbound activity; its replyToId is the id of the inbound activity
    when that has one (and the replyToId the activity came with otherwise);
    its type is the type the activity came with, or message when it came
    with none; its from, recipient and conversation are separate copies of
    the inbound recipient, from and conversation; every other property is
    as the activity came. *)
Theorem sendActivities_addresses_copies w activities :
  _onSendActivities (context w) = [] →
  Forall (fun a => a < length (store w)) activities →
  let inbound := activity w in
  let w' := (sendActivities activities w).2 in
  ∃ output outcome,
    log w' = log w ++ [TransportSend output outcome] ∧
    length output = length activities ∧
    kept (store w) (store w') ∧
    ∀ i a o, activities !! i = Some a → output !! i = Some o →
      length (store w) ≤ o ∧
      get (store w') o "channelId" = get (store w) inbound "channelId" ∧
      get (store w') o "serviceUrl" = get (store w) inbound "serviceUrl" ∧
      get (store w') o "replyToId" =
        (if truthy (get (store w) inbound "id") then get (store w) inbound "id"
         else get (store w) a "replyToId") ∧
      get (store w') o "type" =
        (if truthy (get (store w) a "type") then get (store w) a "type"
         else VString "message") ∧
      copy_of (store w) (get (store w) inbound "recipient")
              (store w') (get (store w') o "from") ∧
      copy_of (store w) (get (store w) inbound "from")
              (store w') (get (store w') o "recipient") ∧
      copy_of (store w) (get (store w) inbound "conversation")
              (store w') (get (store w') o "conversation") ∧
      ∀ f, f ∉ stamped_fields → get (store w') o f = get (store w) a f.
Proof.
  intros Hnil Hall inbound w'.
  destruct (sendActivities_plain activities w Hnil) as [Hlog Hst].
  destruct (prepare_spec activities w Hall) as (ref & h1 & E & Hout & Hstore & Hr & Hall1).
  fold w' in Hlog, Hst. rewrite Hstore in Hst.
  apply getConversationReference_spec in E
    as (P & Hge & Hl & Oref & Gid & Gch & Gsu & Cu & Cb & Cc).
  destruct (stamp_all_spec h1 ref activities Hr Hall1) as (L1 & L2 & K & Hi).
  pose proof (kept_prefix _ _ P) as K0.
  pose proof (prefix_length _ _ P) as Hlen.
  assert (K' : kept (store w) (store w')).
  { rewrite Hst. by apply (kept_trans _ h1). }
  assert (Hcopy : ∀ v v' f, copied (store w) h1 v v' →
            ∀ o, get (store w') o f = v' → copy_of (store w) v (store w') (get (store w') o f)).
  { intros v v' f (_ & _ & Hc) o Ho l obj Hv Hobj.
    destruct (Hc l obj Hv Hobj) as (l' & -> & _ & Hne & Hl').
    exists l'. split_and!; [done..|].
    rewrite Hst, K; [done|]. by eapply lookup_lt_Some. }
  eexists _, _. split; [exact Hlog|]. rewrite Hout.
  split_and!; [done..|].
  intros i a o Ha Ho. destruct (Hi i a o Ha Ho) as (-> & _ & St).
  assert (Hai : a < length (store w)) by (by eapply Forall_lookup_1 in Hall).
  destruct St as (S1 & S2 & S3 & S4 & S5 & S6 & S7 & S8).
  rewrite <-Hst in S1, S2, S3, S4, S5, S6, S7, S8.
  rewrite !(get_kept (store w) h1 a) in S6, S7 by done.
  split_and!.
  - lia.
  - by rewrite S1, Gch.
  - by rewrite S2, Gsu.
  - by rewrite S6, Gid.
  - done.
  - by apply (Hcopy _ _ "from" Cb).
  - by apply (Hcopy _ _ "recipient" Cu).
  - by apply (Hcopy _ _ "conversation" Cc).
  - intros f Hf. rewrite S8 by done. by apply get_kept.
Qed.

Lemma sendActivities_addresses_copies_witness :
  _onSendActivities (context Sample.world0) = [] ∧
  Forall (fun a => a < length (store Sample.world0)) [4] ∧
  ∃ output outcome,
    log (sendActivities [4] Sample.world0).2
      = log Sample.world0 ++ [TransportSend output outcome] ∧
    length output = 1.
Proof.
  assert (Hall : Forall (fun a => a < length (store Sample.world0)) [4]).
  { constructor; [simpl; lia | constructor]. }
  split_and!; [reflexivity | exact Hall |].
  destruct (sendActivities_addresses_copies Sample.world0 [4] eq_refl Hall)
    as (output & outcome & Hlog & Hlen & _).
  exists output, outcome. split; [exact Hlog | exact Hlen].
Defined.

End send_properties.

Section update_delete_properties.

Lemma emitNext_arounds_call {T} hs (arg : T)
    (call : World → Outcome unit) (ev : Outcome unit → Event) w :
  (∀ w e, call (add_events w e) = call w) →
  emitNext (arounds hs) arg
    (fun w => (call w, with_event w (ev (call w)))) w =
  (settle (call w),
   add_events w (befores hs ++ [ev (call w)] ++
                 match call w with Resolved _ => afters hs | _ => [] end)).
Proof.
  intros Hcall. rewrite emitNext_arounds, Hcall. unfold with_event.
  rewrite add_events_app.
  destruct (call w) as [u|e|e]; simpl; rewrite ?add_events_app, ?app_nil_r;
    by rewrite <-?app_assoc.
Qed.

(** X2.  [updateActivity] runs the update interceptors around the adapter's
    [updateActivity] as [sendActivities] runs the send interceptors: their
    logic before [next()] in order of registration, the call of the
    adapter, and, the call having resolved, their logic after [next()] in
    the opposite order.  The result is the adapter's; the store and the
    context, with its responded flag, are as before. *)
Theorem updateActivity_chain w hs a :
  _onUpdateActivity (context w) = arounds hs →
  let outcome := adapter_updateActivity (adapter w) (store w) a in
  updateActivity a w =
    (settle outcome,
     add_events w (befores hs ++ [TransportUpdate a outcome] ++
                   match outcome with Resolved _ => afters hs | _ => [] end)).
Proof.
  intros Hh. unfold updateActivity, emit. rewrite Hh.
  by rewrite (emitNext_arounds_call hs a
                (fun w => adapter_updateActivity (adapter w) (store w) a)
                (TransportUpdate a)).
Qed.

Lemma updateActivity_chain_witness :
  let w := onUpdateActivity (around ["before"] ["after"]) Sample.world0 in
  _onUpdateActivity (context w) = arounds [(["before"], ["after"])] ∧
  updateActivity 4 w =
    (Resolved tt,
     add_events w [Logged "before"; TransportUpdate 4 (Resolved tt);
                   Logged "after"]).
Proof.
  split; [reflexivity|].
  exact (updateActivity_chain
           (onUpdateActivity (around ["before"] ["after"]) Sample.world0)
           [(["before"], ["after"])] 4 eq_refl).
Defined.

Lemma shallowCopy_below h0 h v v' h1 k l o :
  shallowCopy h v = (v', h1) → h0 `prefix_of` h → h1 `prefix_of` k →
  v = VRef l → h0 !! l = Some o →
  ∃ l' : loc, v' = VRef l' ∧ length h0 ≤ l' ∧ l' < length h1 ∧ k !! l' = Some o.
Proof.
  intros [(-> & -> & Hn)|(l0 & o0 & -> & Ho & -> & ->)]%shallowCopy_cases
    P0 P1 Hv Hl.
  - specialize (Hn l Hv).
    pose proof (prefix_lookup_Some _ _ _ _ Hl P0). congruence.
  - injection Hv as ->. exists (length h).
    pose proof (prefix_lookup_Some _ _ _ _ Hl P0) as Hl'.
    pose proof (prefix_length _ _ P0).
    split_and!; [done | lia | rewrite length_app; simpl; lia |].
    eapply prefix_lookup_Some; [|exact P1].
    rewrite list_lookup_middle by done. congruence.
Qed.

(** The copies that a reference holds are objects made for it: they are not
    among the objects of the store of entry, and not the reference. *)
Lemma getConversationReference_copies h a r h' :
  getConversationReference h a = (r, h') →
  ∀ f g, (f, g) ∈ [("from", "user"); ("recipient", "bot");
                    ("conversation", "conversation")] →
  ∀ (l : loc) (o : obj), get h a f = VRef l → h !! l = Some o →
    ∃ l' : loc, get h' r g = VRef l' ∧ length h ≤ l' ∧ l' < r ∧ h' !! l' = Some o.
Proof.
  unfold getConversationReference.
  destruct (shallowCopy h (get h a "from")) as [user h1] eqn:E1.
  destruct (shallowCopy h1 (get h a "recipient")) as [bot h2] eqn:E2.
  destruct (shallowCopy h2 (get h a "conversation")) as [conv h3] eqn:E3.
  pose proof (shallowCopy_prefix _ _ _ _ E1) as P1.
  pose proof (shallowCopy_prefix _ _ _ _ E2) as P2.
  pose proof (shallowCopy_prefix _ _ _ _ E3) as P3.
  unfold alloc. intros [= <- <-].
  set (o := Obj _).
  assert (P12 : h `prefix_of` h2) by (by etrans).
  assert (P13 : h1 `prefix_of` h3) by (by etrans).
  assert (Pe : ∀ k, k `prefix_of` h3 → k `prefix_of` h3 ++ [o])
    by (intros; by apply prefix_app_r).
  pose proof (prefix_length _ _ P1). pose proof (prefix_length _ _ P2).
  pose proof (prefix_length _ _ P3).
  assert (Hget : ∀ f, get (h3 ++ [o]) (length h3) f =
      default VUndefined (fields_of [o] 0 !! f)).
  { intros f. unfold get, fields_of. by rewrite list_lookup_middle. }
  intros f g Hfg l0 o0 Hv Hl.
  repeat (apply elem_of_cons in Hfg as [[= -> ->]|Hfg]); [..|by apply elem_of_nil in Hfg];
    rewrite Hget; simpl.
  - destruct (shallowCopy_below h h _ _ _ (h3 ++ [o]) l0 o0 E1) as (l' & ? & ? & ? & ?);
      [done | by apply Pe | done | done |].
    exists l'. split_and!; [done | done | lia | done].
  - destruct (shallowCopy_below h h1 _ _ _ (h3 ++ [o]) l0 o0 E2) as (l' & ? & ? & ? & ?);
      [done | by apply Pe | done | done |].
    exists l'. split_and!; [done | done | lia | done].
  - destruct (shallowCopy_below h h2 _ _ _ (h3 ++ [o]) l0 o0 E3) as (l' & ? & ? & ? & ?);
      [done | by apply Pe | done | done |].
    exists l'. split_and!; [done | done | lia | done].
Qed.

(** X3.  [deleteActivity] with the id of an activity makes a new reference
    from the inbound activity (its channelId and serviceUrl, and copies of
    its accounts), gives it that id as activityId, and passes it through
    the delete interceptors to the adapter's [deleteActivity]; the objects
    already in the store are as before.  With a reference, that same
    reference is passed on and the store is as before.  Either way the
    context, with its responded flag, is unchanged, and the result is the
    adapter's. *)
Theorem deleteActivity_reference w hs :
  _onDeleteActivity (context w) = arounds hs →
  (∀ id,
     let w' := (deleteActivity (inl id) w).2 in
     ∃ reference,
       let outcome := adapter_deleteActivity (adapter w) (store w') reference in
       (deleteActivity (inl id) w).1 = settle outcome ∧
       log w' = log w ++ befores hs ++ [TransportDelete reference outcome] ++
                match outcome with Resolved _ => afters hs | _ => [] end ∧
       context w' = context w ∧
       length (store w) ≤ reference ∧
       kept (store w) (store w') ∧
       get (store w') reference "activityId" = VString id ∧
       get (store w') reference "channelId"
         = get (store w) (activity w) "channelId" ∧
       get (store w') reference "serviceUrl"
         = get (store w) (activity w) "serviceUrl" ∧
       copy_of (store w) (get (store w) (activity w) "from")
               (store w') (get (store w') reference "user") ∧
       copy_of (store w) (get (store w) (activity w) "recipient")
               (store w') (get (store w') reference "bot") ∧
       copy_of (store w) (get (store w) (activity w) "conversation")
               (store w') (get (store w') reference "conversation")) ∧
  (∀ reference,
     let outcome := adapter_deleteActivity (adapter w) (store w) reference in
     deleteActivity (inr reference) w =
       (settle outcome,
        add_events w (befores hs ++ [TransportDelete reference outcome] ++
                      match outcome with Resolved _ => afters hs | _ => [] end))).
Proof.
  intros Hh. split.
  - intros id w'. unfold w', deleteActivity, emit.
    destruct (getConversationReference (store w) (activity w)) as [r h1] eqn:E.
    pose proof (getConversationReference_copies _ _ _ _ E) as Hc.
    apply getConversationReference_spec in E
      as (P & Hge & Hl & Or & Gid & Gch & Gsu & _).
    simpl. rewrite Hh.
    rewrite (emitNext_arounds_call hs r
               (fun w => adapter_deleteActivity (adapter w) (store w) r)
               (TransportDelete r)) by done.
    exists r. simpl.
    assert (Hcopy : ∀ f g,
              (f, g) ∈ [("from", "user"); ("recipient", "bot");
                        ("conversation", "conversation")] →
              g ≠ "activityId" →
              copy_of (store w) (get (store w) (activity w) f)
                      (put h1 r "activityId" (VString id))
                      (get (put h1 r "activityId" (VString id)) r g)).
    { intros f g Hfg Hg l obj Hv Hobj.
      destruct (Hc f g Hfg l obj Hv Hobj) as (l' & Hv' & Hge' & Hlt & Hl').
      apply lookup_lt_Some in Hobj.
      exists l'. rewrite get_put_field_ne by done.
      split_and!; [done | lia |]. rewrite lookup_put_ne by lia. done. }
    split_and!.
    + done.
    + done.
    + done.
    + done.
    + intros l Hlt. rewrite lookup_put_ne by lia. by apply kept_prefix.
    + by rewrite get_put_eq.
    + by rewrite get_put_field_ne.
    + by rewrite get_put_field_ne.
    + apply Hcopy; [|done]. apply elem_of_cons; by left.
    + apply Hcopy; [|done]. apply elem_of_cons; right. apply elem_of_cons; by left.
    + apply Hcopy; [|done]. do 2 (apply elem_of_cons; right). apply elem_of_cons; by left.
  - intros reference outcome. unfold outcome, deleteActivity, emit. simpl.
    rewrite Hh.
    by rewrite (emitNext_arounds_call hs reference
               (fun w => adapter_deleteActivity (adapter w) (store w) reference)
               (TransportDelete reference)).
Qed.

Lemma deleteActivity_reference_witness :
  let w := onDeleteActivity (around ["before"] ["after"]) Sample.world0 in
  _onDeleteActivity (context w) = arounds [(["before"], ["after"])] ∧
  deleteActivity (inr 4) w =
    (Resolved tt,
     add_events w [Logged "before"; TransportDelete 4 (Resolved tt);
                   Logged "after"]).
Proof.
  split; [reflexivity|].
  exact (proj2 (deleteActivity_reference
           (onDeleteActivity (around ["before"] ["after"]) Sample.world0)
           [(["before"], ["after"])] eq_refl) 4).
Defined.

End update_delete_properties.

Section sendActivity_properties.

Lemma sendActivities_plain_outcome activities w :
  _onSendActivities (context w) = [] →
  (sendActivities activities w).1 =
    settle (adapter_sendActivities (adapter w) (store (prepare activities w).2)
                                   (prepare activities w).1).
Proof.
  intros Hnil. unfold sendActivities.
  destruct (prepare_world activities w) as [Hc Hl].
  destruct (prepare activities w) as [output w0]. simpl in *.
  rewrite Hc, Hnil, emit_nil. simpl.
  destruct (transport_send_result output w0) as (Ho & _ & _).
  unfold adapter in *. by rewrite Ho, Hc.
Qed.

Lemma put_when_given h a f s :
  is_obj h a → get h a f = VUndefined →
  get (match s with
       | Some s => if truthy (VString s) then put h a f (VString s) else h
       | None => h
       end) a f = when_given s.
Proof.
  intros Ho Hu. destruct s as [s|]; simpl; [|done].
  destruct s as [|c s]; simpl; [done|]. by rewrite get_put_eq.
Qed.

(** X4.  [sendActivity] with a text makes a new activity with that text,
    with the speak and inputHint given unless they are missing or empty,
    and sends it alone through [sendActivities]: with no send interceptor
    registered the adapter is called once with one activity, a new object
    of type message that has this text, speak and inputHint.  The call
    resolves to the first response of the adapter, to [undefined] when the
    adapter resolves to no response, and is rejected when the adapter
    fails.  The objects already in the store are as before. *)
Theorem sendActivity_text w text speak inputHint :
  _onSendActivities (context w) = [] →
  let w' := (sendActivity (inl text) speak inputHint w).2 in
  ∃ o,
    let outcome := adapter_sendActivities (adapter w) (store w') [o] in
    log w' = log w ++ [TransportSend [o] outcome] ∧
    (sendActivity (inl text) speak inputHint w).1 =
      match outcome with
      | Resolved responses => Resolved (head responses)
      | Rejected e | Thrown e => Rejected e
      end ∧
    kept (store w) (store w') ∧
    length (store w) ≤ o ∧
    get (store w') o "text" = VString text ∧
    get (store w') o "speak" = when_given speak ∧
    get (store w') o "inputHint" = when_given inputHint ∧
    get (store w') o "type" = VString "message".
Proof.
  intros Hnil w'. unfold w', sendActivity, alloc.
  set (a := length (store w)).
  set (h0 := store w ++ [Obj (<["text" := VString text]> ∅)]).
  set (h1 := match speak with
             | Some s => if truthy (VString s) then put h0 a "speak" (VString s) else h0
             | None => h0 end).
  set (h2 := match inputHint with
             | Some s => if truthy (VString s) then put h1 a "inputHint" (VString s) else h1
             | None => h1 end).
  assert (O0 : is_obj h0 a) by (eexists; by apply list_lookup_middle).
  assert (O1 : is_obj h1 a).
  { unfold h1. destruct speak as [s|]; [|done].
    destruct (truthy (VString s)); [by apply is_obj_put | done]. }
  assert (O2 : is_obj h2 a).
  { unfold h2. destruct inputHint as [s|]; [|done].
    destruct (truthy (VString s)); [by apply is_obj_put | done]. }
  assert (G0 : ∀ f, get h0 a f = default VUndefined ((<["text" := VString text]> ∅ : gmap string val) !! f)).
  { intros f. apply get_alloc_new. }
  assert (G1 : ∀ f, f ≠ "speak" → get h1 a f = get h0 a f).
  { intros f Hf. unfold h1. destruct speak as [s|]; [|done].
    destruct (truthy (VString s)); [by rewrite get_put_field_ne | done]. }
  assert (G2 : ∀ f, f ≠ "inputHint" → get h2 a f = get h1 a f).
  { intros f Hf. unfold h2. destruct inputHint as [s|]; [|done].
    destruct (truthy (VString s)); [by rewrite get_put_field_ne | done]. }
  assert (Gs : get h1 a "speak" = when_given speak).
  { apply put_when_given; [done|]. by rewrite G0. }
  assert (Gi : get h2 a "inputHint" = when_given inputHint).
  { apply put_when_given; [done|]. rewrite G1 by done. by rewrite G0. }
  assert (L0 : length h0 = S a) by (unfold h0; rewrite length_app; simpl; lia).
  assert (L1 : length h1 = S a).
  { unfold h1. destruct speak as [s|]; [|done].
    destruct (truthy (VString s)); [by rewrite length_put | done]. }
  assert (L2 : length h2 = S a).
  { unfold h2. destruct inputHint as [s|]; [|done].
    destruct (truthy (VString s)); [by rewrite length_put | done]. }
  assert (K0 : kept (store w) h0) by (apply kept_prefix; by apply prefix_app_r).
  assert (K1 : kept (store w) h1).
  { intros l Hl. unfold h1. destruct speak as [s|]; [|by apply K0].
    destruct (truthy (VString s)); [|by apply K0].
    rewrite lookup_put_ne by (unfold a; lia). by apply K0. }
  assert (K2 : kept (store w) h2).
  { intros l Hl. unfold h2. destruct inputHint as [s|]; [|by apply K1].
    destruct (truthy (VString s)); [|by apply K1].
    rewrite lookup_put_ne by (unfold a; lia). by apply K1. }
  clearbody h2. set (w0 := with_store w h2).
  assert (Hnil0 : _onSendActivities (context w0) = []) by done.
  assert (Hall : Forall (fun x => x < length (store w0)) [a]).
  { constructor; [simpl; lia | constructor]. }
  pose proof (sendActivities_plain_outcome [a] w0 Hnil0) as Hout.
  destruct (sendActivities_plain [a] w0 Hnil0) as [Hlog Hst].
  destruct (prepare_spec [a] w0 Hall) as (ref & h3 & E & Ho & Hstore & Hr & Hall3).
  apply getConversationReference_spec in E as (P & _).
  destruct (stamp_all_spec h3 ref [a] Hr Hall3) as (Len & _ & K3 & Hi).
  destruct (stamp_all h3 ref [a]) as [output h4] eqn:E4.
  simpl in Len, K3, Hi, Ho, Hstore.
  rewrite Ho, Hstore in Hout, Hlog. rewrite Hstore in Hst.
  destruct output as [|o [|? ?]]; try done.
  destruct (Hi 0 a o eq_refl eq_refl) as (-> & Oo & St).
  destruct St as (_ & _ & _ & _ & _ & _ & Ty & Other).
  pose proof (prefix_length _ _ P) as Hlen. simpl in Hlen.
  assert (Ga : ∀ f, get h3 a f = get h2 a f).
  { intros f. apply get_prefix; [done | simpl; lia]. }
  exists (length h3 + 0).
  unfold and_then.
  destruct (sendActivities [a] w0) as [out w1] eqn:Es. simpl in Hout, Hlog, Hst.
  assert (Hres : (let '(o, w'') :=
                    match out with
                    | Resolved rs => let '(o, w'') := ret (head rs) w1 in (settle o, w'')
                    | Rejected e => (Rejected e, w1)
                    | Thrown e => (Thrown e, w1)
                    end in w'') = w1) by (by destruct out).
  assert (Hw : (match out with
                | Resolved rs => let '(o, w'') := ret (head rs) w1 in (settle o, w'')
                | Rejected e => (Rejected e, w1)
                | Thrown e => (Thrown e, w1)
                end).2 = w1) by (by destruct out).
  rewrite Hw, Hst. cbv zeta.
  split_and!.
  - done.
  - subst out. unfold adapter. simpl.
    by destruct (adapter_sendActivities _ _ _).
  - apply (kept_trans _ h3); [ | done | lia].
    apply (kept_trans _ h2); [done | by apply kept_prefix | lia].
  - unfold a in *. lia.
  - rewrite Other by not_in_list. rewrite Ga, G2, G1, G0 by done. done.
  - rewrite Other by not_in_list. rewrite Ga, G2 by done. done.
  - rewrite Other by not_in_list. by rewrite Ga.
  - rewrite Ty, Ga, G2, G1, G0 by done. done.
Qed.

Lemma sendActivity_text_witness :
  _onSendActivities (context Sample.world0) = [] ∧
  ∃ o,
    log (sendActivity (inl "hello") (Some "") None Sample.world0).2
      = [TransportSend [o] (Resolved [{| id := "r" |}])] ∧
    (sendActivity (inl "hello") (Some "") None Sample.world0).1
      = Resolved (Some {| id := "r" |}) ∧
    get (store (sendActivity (inl "hello") (Some "") None Sample.world0).2) o "speak"
      = VUndefined.
Proof.
  split; [reflexivity|].
  destruct (sendActivity_text Sample.world0 "hello" (Some "") None eq_refl)
    as (o & Hlog & Hres & _ & _ & _ & Hspeak & _).
  exists o. split_and!; [exact Hlog | exact Hres | exact Hspeak].
Defined.

End sendActivity_properties.

Section failure_properties.

Lemma transport_send_cases output w :
  let outcome := adapter_sendActivities (adapter w) (store w) output in
  store (transport_send output w).2 = store w ∧
  log (transport_send output w).2 = log w ++ [TransportSend output outcome] ∧
  match outcome with
  | Resolved responses =>
      (transport_send output w).1 = Resolved responses ∧
      responded (transport_send output w).2 = true
  | Rejected e | Thrown e =>
      (transport_send output w).1 = outcome ∧
      context (transport_send output w).2 = context w
  end.
Proof.
  unfold transport_send, and_then. simpl.
  by destruct (adapter_sendActivities (adapter w) (store w) output).
Qed.

(** X5.  With interceptors that await [next()] and pass its result on,
    [sendActivities] never throws: it returns a promise.  When the promise
    resolves, it resolves to the responses of the adapter and the responded
    flag is true; when it is rejected, the error is the one the adapter's
    [sendActivities] failed with (rejected or thrown), and the context, with
    its responded flag, is as it was before the call. *)
Theorem sendActivities_outcome w hs activities :
  _onSendActivities (context w) = arounds hs →
  let r := sendActivities activities w in
  ∃ output,
    let outcome := adapter_sendActivities (adapter w) (store r.2) output in
    match r.1 with
    | Resolved responses => outcome = Resolved responses ∧ responded r.2 = true
    | Rejected e =>
        (outcome = Rejected e ∨ outcome = Thrown e) ∧ context r.2 = context w
    | Thrown _ => False
    end.
Proof.
  intros Hh. unfold sendActivities.
  destruct (prepare_world activities w) as [Hc Hl].
  destruct (prepare activities w) as [output w0]. simpl in Hc, Hl.
  cbv beta iota zeta. unfold emit. rewrite Hc, Hh, emitNext_arounds.
  destruct (transport_send_cases output (add_events w0 (befores hs)))
    as (Hst & _ & Hcase).
  unfold adapter in *. simpl in Hst, Hcase. rewrite Hc in Hcase.
  exists output.
  destruct (transport_send output (add_events w0 (befores hs))) as [o w1].
  simpl in Hst, Hcase.
  destruct (adapter_sendActivities (_adapter (context w)) (store w0) output)
    as [rs|e|e] eqn:Ea; destruct Hcase as [-> Hw1]; simpl; rewrite Hst, Ea.
  - split; [done|]. unfold responded in *. done.
  - split; [by left|]. by rewrite Hw1.
  - split; [by right|]. by rewrite Hw1.
Qed.

Lemma sendActivities_outcome_witness :
  _onSendActivities (context Sample.world0) = arounds [] ∧
  responded (sendActivities [4] Sample.world0).2 = true.
Proof.
  split; [reflexivity|].
  destruct (sendActivities_outcome Sample.world0 [] [4] eq_refl) as [output H].
  exact (proj2 H).
Defined.

Lemma emitNext_failing_after {T R} hs1 pre e hs2 (arg : T) (next : M R) w :
  emitNext (arounds hs1 ++ failing_after pre e :: arounds hs2) arg next w =
    let '(o, w1) :=
      next (add_events w (befores hs1 ++ (Logged <$> pre) ++ befores hs2)) in
    (Rejected e, match o with
                 | Resolved _ => add_events w1 (afters hs2)
                 | _ => w1
                 end).
Proof.
  rewrite emitNext_app, emitNext_arounds.
  change (emitNext (failing_after pre e :: arounds hs2) arg next
            (add_events w (befores hs1)))
    with (let '(o, w') := run (failing_after (R:=R) pre e arg)
                              (emitNext (arounds hs2) arg next)
                              (add_events w (befores hs1)) in
          (settle o, w')).
  unfold failing_after. rewrite run_effects. cbn [run].
  rewrite emitNext_arounds, !add_events_app.
  by destruct (next _) as [[r|e'|e'] w1].
Qed.

(** X6.  A send is not taken back.  When an interceptor throws after
    [next()] has returned, the interceptors registered after it and the
    adapter have run as usual (and the responded flag is true if the
    adapter resolved), but the call is rejected with what the interceptor
    threw, and the logic that the interceptors registered before it have
    after their [next()] does not run. *)
Theorem sendActivities_interceptor_throws_late w hs1 pre e hs2 activities :
  _onSendActivities (context w)
    = arounds hs1 ++ failing_after pre e :: arounds hs2 →
  let r := sendActivities activities w in
  ∃ output,
    let outcome := adapter_sendActivities (adapter w) (store r.2) output in
    r.1 = Rejected e ∧
    log r.2 = log w ++ befores hs1 ++ (Logged <$> pre) ++ befores hs2 ++
              [TransportSend output outcome] ++
              match outcome with Resolved _ => afters hs2 | _ => [] end ∧
    responded r.2 = match outcome with
                    | Resolved _ => true
                    | _ => responded w
                    end.
Proof.
  intros Hh. unfold sendActivities.
  destruct (prepare_world activities w) as [Hc Hl].
  destruct (prepare activities w) as [output w0]. simpl in Hc, Hl.
  cbv beta iota zeta. unfold emit. rewrite Hc, Hh, emitNext_failing_after.
  set (w2 := add_events w0 (befores hs1 ++ (Logged <$> pre) ++ befores hs2)).
  destruct (transport_send_cases output w2) as (Hst & Hlog & Hcase).
  unfold adapter in *. simpl in Hst, Hlog, Hcase. rewrite Hc in Hcase, Hlog.
  exists output.
  destruct (transport_send output w2) as [o w1]. simpl in Hst, Hlog, Hcase.
  destruct (adapter_sendActivities (_adapter (context w)) (store w0) output)
    as [rs|e'|e'] eqn:Ea; destruct Hcase as [-> Hw1]; simpl; rewrite Hst, Ea.
  - split_and!; [done | | done].
    rewrite Hlog, Hl. by rewrite <-!app_assoc.
  - split_and!; [done | | ].
    + rewrite Hlog, Hl. by rewrite <-!app_assoc.
    + unfold responded. by rewrite Hw1.
  - split_and!; [done | | ].
    + rewrite Hlog, Hl. by rewrite <-!app_assoc.
    + unfold responded. by rewrite Hw1.
Qed.

Lemma sendActivities_interceptor_throws_late_witness :
  let w := onSendActivities (failing_after ["audit"] "audit failed") Sample.world0 in
  _onSendActivities (context w)
    = arounds [] ++ failing_after ["audit"] "audit failed" :: arounds [] ∧
  (sendActivities [4] w).1 = Rejected "audit failed" ∧
  responded (sendActivities [4] w).2 = true.
Proof.
  split; [reflexivity|].
  destruct (sendActivities_interceptor_throws_late
              (onSendActivities (failing_after ["audit"] "audit failed") Sample.world0)
              [] ["audit"] "audit failed" [] [4] eq_refl)
    as (output & Hr & _ & Hresp).
  split; [exact Hr | exact Hresp].
Defined.

End failure_properties.

Section independence.

(** A change of the world that the interceptor chain does not see: it
    leaves store, log and responded flag alone, and commutes with what an
    interceptor can do to the world. *)
Variable F : World → World.
Hypothesis F_store : ∀ w, store (F w) = store w.
Hypothesis F_responded : ∀ w, responded (F w) = responded w.
Hypothesis F_events : ∀ w events, F (add_events w events) = add_events (F w) events.
Hypothesis F_with_store : ∀ w h, F (with_store w h) = with_store (F w) h.
Hypothesis F_set_responded : ∀ w,
  (set_responded true (F w)).2 = F (set_responded true w).2.

Hypothesis F_adapter : ∀ w, adapter (F w) = adapter w.
Hypothesis F_activity : ∀ w, activity (F w) = activity w.

Lemma run_commutes {R} (a : Action R) (next : M R) :
  commutes F next → commutes F (run a next).
Proof.
  intros Hn. induction a as [r|e|label k IH|k IH|value k IH|l f k IH|l f v k IH|k IH];
    intros w; cbn [run].
  - done.
  - done.
  - unfold with_event. rewrite <-F_events. apply IH.
  - rewrite F_responded. apply IH.
  - destruct value.
    + pose proof (F_set_responded w) as Hs. unfold set_responded in *.
      simpl in *. rewrite Hs. apply IH.
    + done.
  - rewrite F_store. apply IH.
  - rewrite F_store, <-F_with_store. apply IH.
  - rewrite Hn. destruct (next w) as [o w']. simpl. apply IH.
Qed.

Lemma emitNext_commutes {T R} (list : list (T → Action R)) arg (next : M R) :
  commutes F next → commutes F (emitNext list arg next).
Proof.
  intros Hn. induction list as [|handler rest IH]; intros w; cbn [emitNext].
  - rewrite Hn. by destruct (next w).
  - rewrite (run_commutes (handler arg) _ IH).
    by destruct (run (handler arg) (emitNext rest arg next) w).
Qed.

Lemma transport_send_commutes output : commutes F (transport_send output).
Proof.
  intros w. unfold transport_send, and_then, bind, ret.
  rewrite F_adapter, F_store.
  destruct (adapter_sendActivities (adapter w) (store w) output) as [rs|e|e];
    unfold with_event; rewrite <-F_events; [|done..].
  pose proof (F_set_responded
                (add_events w [TransportSend output (Resolved rs)])) as Hs.
  unfold set_responded in *. simpl in *. by rewrite Hs.
Qed.

Lemma sendActivities_commutes activities :
  (∀ w, _onSendActivities (context (F w)) = _onSendActivities (context w)) →
  commutes F (sendActivities activities).
Proof.
  intros Hlist w. unfold sendActivities, prepare.
  rewrite F_store, F_activity.
  destruct (getConversationReference (store w) (activity w)) as [ref h].
  destruct (stamp_all h ref activities) as [output h'].
  rewrite <-F_with_store, Hlist. unfold emit.
  by rewrite (emitNext_commutes _ output _ (transport_send_commutes output)).
Qed.

Lemma updateActivity_commutes a :
  (∀ w, _onUpdateActivity (context (F w)) = _onUpdateActivity (context w)) →
  commutes F (updateActivity a).
Proof.
  intros Hlist w. unfold updateActivity, emit. rewrite Hlist.
  apply emitNext_commutes. intros w1. rewrite F_adapter, F_store.
  unfold with_event. by rewrite <-F_events.
Qed.

Lemma deleteActivity_commutes r :
  (∀ w, _onDeleteActivity (context (F w)) = _onDeleteActivity (context w)) →
  commutes F (deleteActivity r).
Proof.
  intros Hlist w. unfold deleteActivity. rewrite F_store, F_activity.
  destruct (match r with
            | inl id =>
                let '(reference, h) :=
                  getConversationReference (store w) (activity w) in
                (reference, put h reference "activityId" (VString id))
            | inr reference => (reference, store w)
            end) as [reference h].
  rewrite <-F_with_store, Hlist. unfold emit.
  apply emitNext_commutes. intros w1. rewrite F_adapter, F_store.
  unfold with_event. by rewrite <-F_events.
Qed.

End independence.

(** X7.  The three lists of interceptors are apart.  Registering an update
    or delete interceptor changes nothing to a call of [sendActivities]:
    made before the call or after it, the call has the same result, the
    same effects and the same store; so a send never runs an update or
    delete interceptor.  The same holds for [updateActivity] against send
    and delete interceptors, and for [deleteActivity] against send and
    update interceptors. *)
Theorem interceptor_lists_independent
    (hs : SendActivitiesHandler) (hu : UpdateActivityHandler)
    (hd : DeleteActivityHandler) :
  (∀ activities,
     commutes (onUpdateActivity hu) (sendActivities activities) ∧
     commutes (onDeleteActivity hd) (sendActivities activities)) ∧
  (∀ a,
     commutes (onSendActivities hs) (updateActivity a) ∧
     commutes (onDeleteActivity hd) (updateActivity a)) ∧
  (∀ r,
     commutes (onSendActivities hs) (deleteActivity r) ∧
     commutes (onUpdateActivity hu) (deleteActivity r)).
Proof.
  split_and!; intros x; split.
  - by apply sendActivities_commutes.
  - by apply sendActivities_commutes.
  - by apply updateActivity_commutes.
  - by apply updateActivity_commutes.
  - by apply deleteActivity_commutes.
  - by apply deleteActivity_commutes.
Qed.

(** ** The OAuth prompt, further *)

Section oauth_properties.
Context {O : Type} (settings : OAuthPromptSettings) (validator : Validator val O).

Lemma recognize_supported {O'} (v : Validator val O') w :
  has_getUserToken w = true →
  recognize settings v w =
    match token_source settings w with
    | (Resolved value, w1) => rejecting (validated v value) w1
    | (Rejected e, w1) | (Thrown e, w1) => (Rejected e, w1)
    end.
Proof.
  intros Hhas. unfold recognize. rewrite Hhas. simpl.
  unfold and_then at 1 2. simpl.
  by destruct (token_source settings w) as [[value|e|e] w1].
Qed.

(** X8.  On an adapter that has [getUserToken], [recognize] takes the token
    of a token response event (an activity of type event named
    "tokens/response") from the event itself: the value of the activity
    goes to the validator, whatever the text of the activity, and the
    adapter is not asked.  For an activity that is neither such an event
    nor a message, the validator is given [undefined], and again the
    adapter is not asked.  Without a validator the call resolves to the
    value, respectively to [undefined], and nothing has changed. *)
Theorem recognize_token_response_event :
  (∀ w,
     has_getUserToken w = true →
     get (store w) (activity w) "type" = VString "event" →
     get (store w) (activity w) "name" = VString "tokens/response" →
     recognize settings validator w
       = rejecting (validated validator (get (store w) (activity w) "value")) w ∧
     recognize settings NoValidator w
       = (Resolved (get (store w) (activity w) "value"), w)) ∧
  (∀ w,
     has_getUserToken w = true →
     get (store w) (activity w) "type" ≠ VString "message" →
     (get (store w) (activity w) "type" ≠ VString "event" ∨
      get (store w) (activity w) "name" ≠ VString "tokens/response") →
     recognize settings validator w = rejecting (validated validator VUndefined) w ∧
     recognize settings NoValidator w = (Resolved VUndefined, w)).
Proof.
  split.
  - intros w Hhas Ht Hn.
    assert (Hs : token_source settings w
                 = (Resolved (get (store w) (activity w) "value"), w)).
    { unfold token_source, isTokenResponseEvent. rewrite Ht, Hn.
      by rewrite !bool_decide_eq_true_2 by done. }
    split.
    + by rewrite recognize_supported, Hs.
    + by rewrite recognize_supported, Hs.
  - intros w Hhas Hm He.
    assert (Hs : token_source settings w = (Resolved VUndefined, w)).
    { unfold token_source, isTokenResponseEvent.
      rewrite (bool_decide_eq_false_2 _ Hm).
      destruct He as [He|He]; rewrite (bool_decide_eq_false_2 _ He);
        [done | by rewrite andb_false_r]. }
    split.
    + by rewrite recognize_supported, Hs.
    + by rewrite recognize_supported, Hs.
Qed.


(** X10.  [getUserToken] asks the adapter once for the token of the
    configured connection, without a code, and gives what it resolves to
    to the validator (if there is one); a failure of the adapter is the
    failure of the call.  [signOutUser] asks the adapter once to sign the
    user out of the configured connection, and ends as the adapter does.
    Neither sends an activity.  On an adapter without the operation each
    throws, [getUserToken] looking for the adapter's [getUserToken] and
    [signOutUser] for its [signOutUser], and nothing has happened. *)
Theorem token_methods :
  (∀ w f,
     adapter_getUserToken (adapter w) = Some f →
     let outcome := f (store w) (connectionName settings) VUndefined in
     let w1 := with_event w (TokenRequest (connectionName settings)
                                          VUndefined outcome) in
     getUserToken settings validator w =
       match outcome with
       | Resolved token => rejecting (validated validator token) w1
       | Rejected e => (Rejected e, w1)
       | Thrown e => (Thrown e, w1)
       end ∧
     getUserToken settings NoValidator w = (outcome, w1)) ∧
  (∀ w f,
     adapter_signOutUser (adapter w) = Some f →
     let outcome := f (store w) (connectionName settings) in
     signOutUser settings w
       = (outcome, with_event w (SignOut (connectionName settings) outcome))) ∧
  (∀ w,
     adapter_getUserToken (adapter w) = None →
     getUserToken settings validator w =
       (Thrown "OAuthPrompt.getUserToken(): not supported for the current adapter.", w)) ∧
  (∀ w,
     adapter_signOutUser (adapter w) = None →
     signOutUser settings w =
       (Thrown "OAuthPrompt.signOutUser(): not supported for the current adapter.", w)).
Proof.
  split_and!.
  - intros w f Hf outcome w1. unfold outcome, w1, getUserToken.
    rewrite (has_getUserToken_Some _ _ Hf). simpl.
    unfold and_then, adapter_call_getUserToken. rewrite Hf.
    by destruct (f (store w) (connectionName settings) VUndefined).
  - intros w f Hf outcome. unfold outcome, signOutUser, has_signOutUser.
    rewrite Hf. rewrite bool_decide_eq_true_2 by done. simpl.
    unfold adapter_call_signOutUser. by rewrite Hf.
  - intros w Hn. unfold getUserToken, has_getUserToken. rewrite Hn.
    rewrite bool_decide_eq_false_2; [done|]. by intros [? ?].
  - intros w Hn. unfold signOutUser, has_signOutUser. rewrite Hn.
    rewrite bool_decide_eq_false_2; [done|]. by intros [? ?].
Qed.

End oauth_properties.

(** ** Blob storage, further *)

Section blob_properties.
Import Blob.

Lemma head_split_slash key : head (split_slash key) = Some (before_slash key).
Proof.
  induction key as [|c key IH]; [done|]. cbn [split_slash before_slash].
  destruct (Ascii.eqb c "/"%char); [done|].
  destruct (split_slash key) as [|first others]; [done|].
  simpl in *. by injection IH as ->.
Qed.

Lemma length_substring n s : String.length (String.substring 0 n s) ≤ n.
Proof.
  revert s. induction n as [|n IH]; intros [|c s]; simpl; try lia.
  specialize (IH s). lia.
Qed.

Lemma sanitizeKey_blob_name key :
  key ≠ "" → sanitizeKey key = inr (blob_name key).
Proof.
  intros Hne. unfold sanitizeKey, blob_name.
  destruct key as [|c key]; [done|]. simpl String.eqb. simpl String.length.
  cbn [orb Nat.ltb Nat.leb]. unfold splice. rewrite drop_0, take_0.
  cbn [reduce]. by rewrite head_split_slash.
Qed.

(** X11.  [sanitizeKey] throws "Please provide a not empty key." for the
    empty key and for no other.  For any other key the blob name is made
    from the part of the key before its first '/' alone, escaped and cut at
    1024 characters: the segments taken out by [splice(0)] are all of them,
    so the [reduce] over what is left adds nothing.  Hence a blob name has
    at most 1024 characters, a key that starts with '/' is given the empty
    name, and two keys with the same part before the first '/' are given
    the same name. *)
Theorem sanitizeKey_first_segment :
  sanitizeKey "" = inl "Please provide a not empty key." ∧
  (∀ key, key ≠ "" →
     sanitizeKey key = inr (blob_name key) ∧
     String.length (blob_name key) ≤ 1024) ∧
  (∀ rest, sanitizeKey (String "/"%char rest) = inr "") ∧
  (∀ key1 key2, key1 ≠ "" → key2 ≠ "" →
     before_slash key1 = before_slash key2 →
     sanitizeKey key1 = sanitizeKey key2).
Proof.
  split_and!.
  - done.
  - intros key Hne. split; [by apply sanitizeKey_blob_name|].
    apply length_substring.
  - intros rest. by rewrite sanitizeKey_blob_name.
  - intros key1 key2 H1 H2 Hb. rewrite !sanitizeKey_blob_name by done.
    unfold blob_name. by rewrite Hb.
Qed.

Lemma first_rejection_None {A} settled (ps : list (Promise A)) : ∀ i,
  first_rejection settled i ps = None ↔ ∀ p e, p ∈ ps → p ≠ Failed e.
Proof.
  induction ps as [|p ps IH]; intros i; cbn [first_rejection].
  - split; [|done]. intros _ p e Hin. by apply elem_of_nil in Hin.
  - split.
    + intros H q e Hq.
      destruct p as [|a|e1];
        [| |destruct (first_rejection settled (S i) ps) as [[t e2]|];
            [destruct (t <? settled i)|]; done];
        (apply elem_of_cons in Hq as [->|Hq]; [done|]);
        by apply (proj1 (IH (S i)) H).
    + intros H.
      assert (Hrest : first_rejection settled (S i) ps = None).
      { apply IH. intros q e Hq. apply H. by right. }
      rewrite Hrest. destruct p as [|a|e1]; [done..|].
      destruct (H (Failed e1) e1); [by left | done].
Qed.

Lemma first_rejection_Some {A} settled (ps : list (Promise A)) : ∀ i t e,
  first_rejection settled i ps = Some (t, e) →
  ∃ j, ps !! j = Some (Failed e) ∧ t = settled (i + j) ∧
       ∀ k e', ps !! k = Some (Failed e') → t ≤ settled (i + k).
Proof.
  induction ps as [|p ps IH]; intros i t e; cbn [first_rejection]; [done|].
  destruct (first_rejection settled (S i) ps) as [[t1 e1]|] eqn:Hl.
  - destruct (IH (S i) t1 e1 Hl) as (j & Hj & Ht & Hmin).
    assert (Hlater : ∀ k e', (p :: ps) !! S k = Some (Failed e') →
                       t1 ≤ settled (i + S k)).
    { intros k e' Hk. replace (i + S k) with (S i + k) by lia. by eapply Hmin. }
    assert (Hhere : t1 = settled (i + S j)) by (rewrite Ht; f_equal; lia).
    destruct p as [|a|e0].
    + intros [= -> ->]. exists (S j). split_and!; [done..|].
      intros [|k] e' Hk; [done | by eapply Hlater].
    + intros [= -> ->]. exists (S j). split_and!; [done..|].
      intros [|k] e' Hk; [done | by eapply Hlater].
    + destruct (t1 <? settled i) eqn:Hlt.
      * apply Nat.ltb_lt in Hlt. intros [= -> ->].
        exists (S j). split_and!; [done..|].
        intros [|k] e' Hk; [rewrite Nat.add_0_r; lia | by eapply Hlater].
      * apply Nat.ltb_ge in Hlt. intros [= <- <-].
        exists 0. rewrite Nat.add_0_r. split_and!; [done..|].
        intros [|k] e' Hk; [by rewrite Nat.add_0_r|].
        specialize (Hlater k e' Hk). lia.
  - destruct p as [|a|e0]; [done..|]. intros [= <- <-].
    exists 0. rewrite Nat.add_0_r. split_and!; [done..|].
    intros [|k] e' Hk; [by rewrite Nat.add_0_r|].
    apply (first_rejection_None settled ps (S i)) with (p := Failed e') (e := e') in Hl;
      [done|]. by eapply list_elem_of_lookup_2.
Qed.

Lemma values_of_Some {A} (ps : list (Promise A)) items :
  values_of ps = Some items ↔ ps = Fulfilled <$> items.
Proof.
  revert items. induction ps as [|p ps IH]; intros items; cbn [values_of].
  - split; [by intros [= <-] | by destruct items].
  - destruct p as [|a|e]; try (split; [done | by destruct items]).
    destruct (values_of ps) as [l|] eqn:Hv; simpl.
    + split.
      * intros [= <-]. simpl. f_equal. by apply IH.
      * destruct items as [|i items]; [done|]. intros [= -> Hps].
        apply IH in Hps. by injection Hps as ->.
    + split; [done|]. destruct items as [|i items]; [done|].
      intros [= -> Hps]. by apply IH in Hps.
Qed.

Lemma all_not_failed {A} settled (ps : list (Promise A)) :
  (∀ p e, p ∈ ps → p ≠ Failed e) → ∀ e, all settled ps ≠ Failed e.
Proof.
  intros Hps e. unfold all.
  rewrite (proj2 (first_rejection_None settled ps 0) Hps).
  by destruct (values_of ps).
Qed.

Lemma all_fulfilled {A} settled (ps : list (Promise A)) items :
  all settled ps = Fulfilled items ↔ ps = Fulfilled <$> items.
Proof.
  unfold all. split.
  - destruct (first_rejection settled 0 ps) as [[t e]|]; [done|].
    destruct (values_of ps) as [l|] eqn:Hv; [|done].
    intros [= <-]. by apply values_of_Some.
  - intros Hps.
    rewrite (proj2 (first_rejection_None settled ps 0)).
    + by rewrite (proj2 (values_of_Some ps items) Hps).
    + rewrite Hps. by intros p e (i & -> & _)%list_elem_of_fmap.
Qed.

Lemma all_pending {A} settled (ps : list (Promise A)) :
  (∀ p e, p ∈ ps → p ≠ Failed e) → Pending ∈ ps → all settled ps = Pending.
Proof.
  intros Hnf Hp.
  destruct (all settled ps) as [|items|e] eqn:Hall;
    [done | | by apply all_not_failed in Hall].
  apply all_fulfilled in Hall. subst ps.
  apply list_elem_of_fmap in Hp as (i & [=] & _).
Qed.

(** When [Promise.all] is rejected, it is with the error of one of the
    promises, and none of the promises was rejected before that one. *)
Lemma all_failed {A} settled (ps : list (Promise A)) e :
  all settled ps = Failed e →
  ∃ j, ps !! j = Some (Failed e) ∧
       ∀ k e', ps !! k = Some (Failed e') → settled j ≤ settled k.
Proof.
  unfold all.
  destruct (first_rejection settled 0 ps) as [[t e1]|] eqn:Hf;
    [|by destruct (values_of ps)].
  intros [= ->].
  apply first_rejection_Some in Hf as (j & Hj & -> & Hmin). by exists j.
Qed.

Lemma all_fails {A} settled (ps : list (Promise A)) j e :
  ps !! j = Some (Failed e) → ∃ e', all settled ps = Failed e'.
Proof.
  intros Hj. unfold all.
  destruct (first_rejection settled 0 ps) as [[t e1]|] eqn:Hf; [by exists e1|].
  apply (first_rejection_None settled ps 0) with (p := Failed e) (e := e) in Hf;
    [done|]. by eapply list_elem_of_lookup_2.
Qed.

Section storage.
Variable client : BlobService.
Variable parse : string → option Document.
Variable containerName : string.
Variable settled : nat → nat.

(** X12.  [ensureContainerExists] looks its container name up in
    [checkedCollections], a plain object.  When a promise is kept under the
    name, it returns that promise.  When none is kept and the name is not
    one that every object inherits, it asks the service to create the
    container and keeps the promise it gets under the name.  From then on
    every call for that name returns this same promise without asking the
    service, whichever storage object makes the call and however the
    promise ended: a creation that failed is never tried again.  When
    none is kept and the name is an inherited one, such as "constructor"
    (which [checkContainerName] accepts), the service is not asked,
    nothing is kept, and what is returned is not a promise; so it is on
    every later call.  The promises kept for other names are left
    alone. *)
Theorem ensureContainerExists_caches checkedCollections :
  let found := (ensureContainerExists client containerName checkedCollections).1 in
  let kept := (ensureContainerExists client containerName checkedCollections).2 in
  (∀ name, name ≠ containerName → kept !! name = checkedCollections !! name) ∧
  (∀ q, checkedCollections !! containerName = Some q →
     found = Promised q ∧ kept = checkedCollections) ∧
  (checkedCollections !! containerName = None →
   containerName ∉ Object_prototype →
     found = Promised (createContainerIfNotExistsAsync client containerName) ∧
     kept = <[containerName := createContainerIfNotExistsAsync client containerName]>
              checkedCollections) ∧
  (checkedCollections !! containerName = None →
   containerName ∈ Object_prototype →
     found = Inherited containerName ∧ kept = checkedCollections) ∧
  (∀ client', ensureContainerExists client' containerName kept = (found, kept)) ∧
  "constructor" ∈ Object_prototype ∧
  BlobWrite.checkContainerName "constructor" = true.
Proof.
  unfold ensureContainerExists.
  destruct (checkedCollections !! containerName) as [q|] eqn:Hq.
  - cbn [fst snd]. split_and!; try done.
    + by intros ? [= <-].
    + intros client'. by rewrite Hq.
    + apply elem_of_cons. by left.
  - destruct (decide (containerName ∈ Object_prototype)) as [Hin|Hin].
    + rewrite bool_decide_eq_true_2 by done. cbn [fst snd].
      split_and!; try done.
      * intros client'. by rewrite Hq.
      * apply elem_of_cons. by left.
    + rewrite bool_decide_eq_false_2 by done. cbn [fst snd].
      split_and!; try done.
      * intros name Hne. by rewrite lookup_insert_ne.
      * intros client'. by rewrite lookup_insert_eq.
      * apply elem_of_cons. by left.
Qed.

Lemma sanitize_all_filtered keys :
  sanitize_all (filter (fun k => k ≠ "") keys)
    = inr (blob_name <$> filter (fun k => k ≠ "") keys).
Proof.
  induction keys as [|key keys IH]; [done|].
  rewrite filter_cons. destruct (decide (key ≠ "")) as [Hne|_]; [|done].
  cbn [sanitize_all]. rewrite IH, sanitizeKey_blob_name by done. done.
Qed.

Lemma read_one_settles container key :
  (∀ e, read_one client parse container key ≠ Failed e).
Proof.
  intros e. unfold read_one.
  destruct (getBlobMetadataAsync _ _ _) as [|md|e1]; [done| |done].
  destruct (getBlobToTextAsync _ _ _) as [|text|e2]; [done| |done].
  by destruct (parse text).
Qed.

Lemma read_one_absent c (names : list string) :
  (∀ name, name ∈ names →
     (∃ e, getBlobMetadataAsync client (container_name c) name = Failed e) ∨
     (∃ md e, getBlobMetadataAsync client (container_name c) name = Fulfilled md ∧
              getBlobToTextAsync client (Blob.container md) (Blob.name md)
                = Failed e)) →
  read_one client parse c <$> names = Fulfilled <$> replicate (length names) None.
Proof.
  induction names as [|name rest IH]; intros Habsent; [done|].
  simpl. f_equal.
  - destruct (Habsent name) as [[e He]|(md & e & Hmd & He)]; [by left | |];
      unfold read_one; [by rewrite He | by rewrite Hmd, He].
  - apply IH. intros n Hn. apply Habsent. by right.
Qed.

Lemma read_found keys checkedCollections :
  (read client parse containerName settled (Some keys) checkedCollections).1 =
    match (ensureContainerExists client containerName checkedCollections).1 with
    | Promised container =>
        inr (and_then container
               (fun c => read_items client parse settled c
                           (blob_name <$> filter (fun k => k ≠ "") keys)))
    | Inherited _ => inl TypeError_then
    end.
Proof.
  unfold read. rewrite sanitize_all_filtered.
  by destruct (ensureContainerExists client containerName checkedCollections)
    as [[p|name] cache].
Qed.

(** X13.  [read] with an array of keys throws in one case only: when what
    [ensureContainerExists] returns is not a promise, which is when no
    promise is kept for the container name and the name is one that every
    object inherits; calling [then] on it is a TypeError.  Otherwise
    [read] returns a promise: empty keys are dropped before the others are
    sanitized, and what is read are the blobs named after the keys that
    are left.  That promise is rejected only when the promise for the
    container is: a failure of the service in reading a blob is not passed
    on.  A blob that cannot be read, or has no metadata, counts as absent;
    with keys to read, all of them absent, the promise resolves to no
    items.  But when the text of a blob does not parse, the promise is
    never settled. *)
Theorem read_failures keys checkedCollections :
  let found := (ensureContainerExists client containerName checkedCollections).1 in
  let names := blob_name <$> filter (fun k => k ≠ "") keys in
  let r := (read client parse containerName settled (Some keys) checkedCollections).1 in
  (found = Inherited containerName ↔
     checkedCollections !! containerName = None ∧ containerName ∈ Object_prototype) ∧
  match found with
  | Inherited _ => r = inl TypeError_then
  | Promised container =>
      r = inr (and_then container
                 (fun c => read_items client parse settled c names)) ∧
      (∀ e, r = inr (Failed e) → container = Failed e) ∧
      (∀ c, container = Fulfilled c → names ≠ [] →
         (∀ name, name ∈ names →
            (∃ e, getBlobMetadataAsync client (container_name c) name = Failed e) ∨
            (∃ md e,
               getBlobMetadataAsync client (container_name c) name = Fulfilled md ∧
               getBlobToTextAsync client (Blob.container md) (Blob.name md)
                 = Failed e)) →
         r = inr (Fulfilled ∅)) ∧
      (∀ c name md text,
         container = Fulfilled c → name ∈ names →
         getBlobMetadataAsync client (container_name c) name = Fulfilled md →
         getBlobToTextAsync client (Blob.container md) (Blob.name md)
           = Fulfilled text →
         parse text = None →
         r = inr Pending)
  end.
Proof.
  intros found names r. split.
  { unfold found, ensureContainerExists.
    destruct (checkedCollections !! containerName) as [q|];
      [split; [done | by intros [? _]]|].
    destruct (decide (containerName ∈ Object_prototype)) as [Hin|Hin].
    - by rewrite bool_decide_eq_true_2.
    - rewrite bool_decide_eq_false_2 by done. split; [done | by intros [_ ?]]. }
  pose proof (read_found keys checkedCollections) as Hr.
  fold r found names in Hr.
  destruct found as [container|name]; [|done].
  assert (Hnf : ∀ c ps e, ps = read_one client parse c <$> names →
                  ∀ p, p ∈ ps → p ≠ Failed e).
  { intros c ps e -> p (name & -> & _)%list_elem_of_fmap. apply read_one_settles. }
  split_and!.
  - done.
  - rewrite Hr. intros e [= He].
    destruct container as [|c|e']; [done| |by injection He as ->].
    simpl in He. unfold read_items in He.
    destruct (all _ _) as [|items|e1]; [done| |done].
    by destruct (0 <? length items).
  - intros c Hc Hne Habsent. rewrite Hr, Hc. simpl. f_equal. unfold read_items.
    assert (Hall : read_one client parse c <$> names
                   = Fulfilled <$> replicate (length names) None).
    { by apply read_one_absent. }
    apply (all_fulfilled settled) in Hall. rewrite Hall, length_replicate.
    destruct names as [|name rest]; [done|]. simpl.
    f_equal. clear. unfold store_items.
    generalize (∅ : gmap string StoreItem).
    induction (length rest) as [|n IH]; intros m; [done|]. simpl. apply IH.
  - intros c name md text Hc Hin Hmd Htext Hparse. rewrite Hr, Hc. simpl.
    f_equal. unfold read_items.
    rewrite (all_pending settled (read_one client parse c <$> names)); [done | |].
    + intros p e. by apply (Hnf c).
    + apply list_elem_of_fmap. exists name. split; [|done].
      unfold read_one. by rewrite Hmd, Htext, Hparse.
Qed.

Lemma store_items_lookup (items : list (option Document)) id item :
  store_items items !! id = Some item →
  ∃ d, Some d ∈ items ∧ realId d = id ∧ document d = item.
Proof.
  unfold store_items.
  assert (H : ∀ m : gmap string StoreItem,
            foldl (fun storeItems item =>
                     match item with
                     | Some d =>
                         if String.eqb (realId d) "__proto__" then storeItems
                         else <[realId d := document d]> storeItems
                     | None => storeItems
                     end) m items !! id = Some item →
            m !! id = Some item ∨
            ∃ d, Some d ∈ items ∧ realId d = id ∧ document d = item).
  { induction items as [|[d|] items IH]; intros m; simpl.
    - by left.
    - intros [Hm|(d' & Hin & Hd)]%IH.
      + destruct (String.eqb (realId d) "__proto__"); [by left|].
        destruct (decide (realId d = id)) as [Heq|Hne].
        * rewrite Heq, lookup_insert_eq in Hm. injection Hm as Hm.
          right. exists d. split_and!; [by left | done | done].
        * rewrite lookup_insert_ne in Hm by done. by left.
      + right. exists d'. split; [by right | done].
    - intros [Hm|(d' & Hin & Hd)]%IH; [by left|].
      right. exists d'. split; [by right | done]. }
  intros [Hm|Hd]%H; [|done]. by rewrite lookup_empty in Hm.
Qed.

(** X14.  When the promise of [read] resolves, there were keys to read,
    the container is there, and every item of the result was read from the
    blob of one of the keys: the service gave metadata for the blob named
    after the key and the text of the blob, the text parsed to a document,
    the item is stored under the key that the document records for itself,
    and it is the document's item with the etag of the blob's metadata in
    place of the etag it was written with. *)
Theorem read_sound keys checkedCollections (items : gmap string StoreItem) :
  (read client parse containerName settled (Some keys) checkedCollections).1
    = inr (Fulfilled items) →
  let names := blob_name <$> filter (fun k => k ≠ "") keys in
  names ≠ [] ∧
  ∃ c, (ensureContainerExists client containerName checkedCollections).1
         = Promised (Fulfilled c) ∧
    ∀ id item, items !! id = Some item →
      ∃ name md text doc,
        name ∈ names ∧
        getBlobMetadataAsync client (container_name c) name = Fulfilled md ∧
        getBlobToTextAsync client (Blob.container md) (Blob.name md)
          = Fulfilled text ∧
        parse text = Some doc ∧
        realId doc = id ∧
        item = {| content := content (document doc); eTag := etag md |}.
Proof.
  intros Hread names. rewrite read_found in Hread. fold names in Hread.
  destruct (ensureContainerExists client containerName checkedCollections).1
    as [[|c|e]|name]; simpl in Hread; try done.
  injection Hread as Hread. unfold read_items in Hread.
  destruct (all settled (read_one client parse c <$> names)) as [|docs|e] eqn:Hall;
    try done.
  destruct (0 <? length docs) eqn:Hlen; [|done]. injection Hread as <-.
  apply all_fulfilled in Hall. split.
  - intros Hnil. rewrite Hnil in Hall. by destruct docs.
  - exists c. split; [done|]. intros id item Hitem.
    apply store_items_lookup in Hitem as (d & Hin & Hid & Hdoc).
    assert (Hd : Fulfilled (Some d) ∈ read_one client parse c <$> names).
    { rewrite Hall. apply list_elem_of_fmap. by exists (Some d). }
    apply list_elem_of_fmap in Hd as (name & Hone & Hname).
    unfold read_one in Hone.
    destruct (getBlobMetadataAsync client (container_name c) name)
      as [|md|e1] eqn:Hmd; try done.
    destruct (getBlobToTextAsync client (Blob.container md) (Blob.name md))
      as [|text|e2] eqn:Htext; try done.
    destruct (parse text) as [doc|] eqn:Hparse; [|done].
    injection Hone as ->. exists name, md, text, doc.
    split_and!; [done.. | by subst id | by subst item].
Qed.

End storage.

Lemma read_sound_witness :
  (read Fixture.one_blob_service Fixture.parse_one "state" (fun i => i)
        (Some ["user1"; ""; "user2"]) ∅).1
    = inr (Fulfilled {[ "user1" := {| content := "hello"; eTag := "v7" |} ]}) ∧
  blob_name <$> filter (fun k => k ≠ "") ["user1"; ""; "user2"] ≠ [].
Proof.
  assert (H : (read Fixture.one_blob_service Fixture.parse_one "state" (fun i => i)
                 (Some ["user1"; ""; "user2"]) ∅).1
              = inr (Fulfilled {[ "user1" := {| content := "hello"; eTag := "v7" |} ]}))
    by (by vm_compute).
  split; [exact H|].
  exact (proj1 (read_sound Fixture.one_blob_service Fixture.parse_one "state"
                  (fun i => i) ["user1"; ""; "user2"] ∅ _ H)).
Defined.

(** With the container name "constructor", which the constructor of the
    storage accepts, [read] throws whatever the service. *)
Example read_constructor :
  (read Sample.empty_service (fun _ => None) "constructor" (fun i => i)
        (Some ["user1"]) ∅).1 = inl TypeError_then.
Proof. reflexivity. Qed.

End blob_properties.

(** ** The constructor of the blob storage *)

Section container_names.
Import Blob BlobWrite.
Implicit Types (c : Ascii.ascii) (s : list Ascii.ascii).

Lemma is_dash c : (Ascii.nat_of_ascii c =? 45) = true ↔ c = "-"%char.
Proof.
  split.
  - intros H%Nat.eqb_eq. rewrite <-(Ascii.ascii_nat_embedding c), H. done.
  - by intros ->.
Qed.

Lemma name_char_cases c :
  name_char c = true ↔ lower_alnum c = true ∨ c = "-"%char.
Proof. unfold name_char. by rewrite orb_true_iff, is_dash. Qed.

Lemma lower_alnum_not_dash c : lower_alnum c = true → c ≠ "-"%char.
Proof. by intros H ->. Qed.

Lemma name_char_dot c : name_char c = true → dot c = true.
Proof. by destruct c as [[] [] [] [] [] [] [] []]. Qed.

Lemma any_then_dashes_sound s :
  any_then_dashes s = true → ∃ pre post, s = pre ++ "-"%char :: "-"%char :: post.
Proof.
  induction s as [|c rest IH]; [done|]. cbn [any_then_dashes].
  intros [H|[_ H]%andb_true_iff]%orb_true_iff.
  - destruct rest as [|c2 rest]; [done|].
    apply andb_true_iff in H as [->%is_dash ->%is_dash]. by exists [], rest.
  - destruct (IH H) as (pre & post & ->). by exists (c :: pre), post.
Qed.

Lemma any_then_dashes_complete pre post :
  Forall (fun c => dot c = true) pre →
  any_then_dashes (pre ++ "-"%char :: "-"%char :: post) = true.
Proof.
  induction 1 as [|c pre Hc Hpre IH]; [done|].
  change ((c :: pre) ++ "-"%char :: "-"%char :: post)
    with (c :: (pre ++ "-"%char :: "-"%char :: post)).
  cbn [any_then_dashes]. rewrite Hc, IH. apply orb_true_r.
Qed.

Lemma name_chars_then_last_spec min max s :
  name_chars_then_last min max s = true ↔
  ∃ middle last, s = middle ++ [last] ∧
    min ≤ length middle ∧ length middle ≤ max ∧
    Forall (fun c => name_char c = true) middle ∧ lower_alnum last = true.
Proof.
  revert min max. induction s as [|c rest IH]; intros min max.
  - cbn [name_chars_then_last]. split; [done|].
    intros (middle & last & H & _). by destruct middle.
  - cbn [name_chars_then_last]. rewrite orb_true_iff. split.
    + intros [H|H].
      * destruct max as [|max']; [done|].
        apply andb_true_iff in H as [Hc H].
        apply IH in H as (middle & last & -> & Hmin & Hmax & Hall & Hlast).
        exists (c :: middle), last. simpl.
        split_and!; [done | lia | lia | by constructor | done].
      * apply andb_true_iff in H as [[Hmin%Nat.eqb_eq Hc]%andb_true_iff Hr].
        apply bool_decide_eq_true in Hr as ->.
        exists [], c. simpl. split_and!; [done | lia | lia | done | done].
    + intros (middle & last & Heq & Hmin & Hmax & Hall & Hlast).
      destruct middle as [|m middle]; simpl in *.
      * injection Heq as -> ->. right.
        assert (min = 0) as -> by lia. rewrite Hlast. by rewrite bool_decide_eq_true_2.
      * injection Heq as -> ->. left.
        destruct max as [|max']; [lia|].
        apply Forall_cons in Hall as [Hm Hall]. rewrite Hm. simpl.
        apply IH. exists middle, last. split_and!; [done | lia | lia | done | done].
Qed.

Lemma ContainerNameCheck_test_spec s :
  ContainerNameCheck_test s = true ↔ valid_container_name s.
Proof.
  split.
  - destruct s as [|c rest]; [done|]. cbn [ContainerNameCheck_test].
    intros [[Hc Hd%negb_true_iff]%andb_true_iff H]%andb_true_iff.
    apply name_chars_then_last_spec in H
      as (middle & last & -> & Hmin & Hmax & Hall & Hlast).
    assert (Hrest : Forall (fun c => name_char c = true) (middle ++ [last])).
    { apply Forall_app. split; [done|]. constructor; [|done].
      apply name_char_cases. by left. }
    unfold valid_container_name. simpl. rewrite length_app. simpl.
    split_and!; [lia | lia | | | |].
    + constructor; [|done]. apply name_char_cases. by left.
    + exists c. split; [done | by apply lower_alnum_not_dash].
    + exists last. split; [|by apply lower_alnum_not_dash].
      change (c :: middle ++ [last]) with ((c :: middle) ++ [last]).
      apply last_snoc.
    + intros (pre & post & Heq). destruct pre as [|p pre]; simpl in Heq.
      * injection Heq as -> _. done.
      * injection Heq as -> Heq.
        rewrite Heq in Hd, Hrest. rewrite any_then_dashes_complete in Hd; [done|].
        apply Forall_app in Hrest as [Hpre _].
        eapply Forall_impl; [exact Hpre|]. apply name_char_dot.
  - intros (Hmin & Hmax & Hall & (c & Hhead & Hc) & (l & Hlast & Hl) & Hno).
    destruct s as [|c' rest]; [simpl in Hmin; lia|].
    injection Hhead as ->.
    apply last_Some in Hlast as [front Hfront].
    destruct front as [|c' middle];
      [injection Hfront as -> ->; simpl in Hmin; lia|].
    injection Hfront as <- ->.
    rewrite length_cons, length_app in Hmin, Hmax. simpl in Hmin, Hmax.
    apply Forall_cons in Hall as [Hcn Hall].
    apply Forall_app in Hall as [Hmid Hln]. apply Forall_cons in Hln as [Hln _].
    cbn [ContainerNameCheck_test].
    apply name_char_cases in Hcn as [Hcn|]; [|done].
    apply name_char_cases in Hln as [Hln|]; [|done].
    rewrite Hcn. simpl. apply andb_true_iff. split.
    + apply negb_true_iff. apply not_true_is_false.
      intros (pre & post & Heq)%any_then_dashes_sound.
      apply Hno. exists (c :: pre), post. simpl. by rewrite Heq.
    + apply name_chars_then_last_spec. exists middle, l.
      split_and!; [done | lia | lia | done | done].
Qed.

(** X15.  [checkContainerName] accepts exactly the names of 3 to 63
    characters that are made of lowercase letters, digits and dashes, do
    not start or end with a dash, and have no two dashes in a row.  So
    "bot-state" is accepted; "ab" (too short), "Bot-state" (a capital),
    "bot--state" and "bot-state-" are not. *)
Theorem checkContainerName_spec :
  (∀ container,
     checkContainerName container = true ↔
     valid_container_name (String.list_ascii_of_string container)) ∧
  checkContainerName "bot-state" = true ∧
  checkContainerName "ab" = false ∧
  checkContainerName "Bot-state" = false ∧
  checkContainerName "bot--state" = false ∧
  checkContainerName "bot-state-" = false.
Proof.
  split_and!; [|done..].
  intros container. apply ContainerNameCheck_test_spec.
Qed.

Section construction.
Context {Client : Type}.
Variable azure_createBlobService : string → string → string → string + Client.

(** X16.  [new BlobStorage(settings)] checks, in this order: that there
    are settings ("The settings parameter is required."), that the
    container name is not empty ("The containerName is required."), that
    it is a valid container name ("Invalid container name."), and that
    the storage account or connection string is not empty ("The
    storageAccountOrConnectionString parameter is required."); only then
    is the client of the blob service made, and an error of that is the
    error of the constructor.  The object made keeps the settings and this
    client, and writes one blob at a time ([useEmulator]) exactly when the
    connection string is "UseDevelopmentStorage=true;". *)
Theorem new_checks :
  new azure_createBlobService None = inl "The settings parameter is required." ∧
  ∀ settings,
    let name := String.list_ascii_of_string (containerName settings) in
    let account := storageAccountOrConnectionString settings in
    match new azure_createBlobService (Some settings) with
    | inr storage =>
        valid_container_name name ∧ account ≠ "" ∧
        azure_createBlobService account (storageAccessKey settings) (host settings)
          = inr (BlobWrite.client storage) ∧
        BlobWrite.settings storage = settings ∧
        (useEmulator storage = true ↔ account = "UseDevelopmentStorage=true;")
    | inl e =>
        (containerName settings = "" ∧ e = "The containerName is required.") ∨
        (containerName settings ≠ "" ∧ ¬ valid_container_name name ∧
         e = "Invalid container name.") ∨
        (valid_container_name name ∧ account = "" ∧
         e = "The storageAccountOrConnectionString parameter is required.") ∨
        (valid_container_name name ∧ account ≠ "" ∧
         azure_createBlobService account (storageAccessKey settings) (host settings)
           = inl e)
    end.
Proof.
  split; [done|]. intros settings name account. unfold new.
  destruct (String.eqb_spec (containerName settings) "") as [He|Hne]; [by left|].
  destruct (checkContainerName (containerName settings)) eqn:Hcheck; simpl.
  - apply ContainerNameCheck_test_spec in Hcheck. fold name in Hcheck.
    unfold createBlobService. fold account.
    destruct (String.eqb_spec account "") as [Ha|Ha].
    { right. right. left. done. }
    destruct (azure_createBlobService account (storageAccessKey settings)
                                      (host settings)) as [e|client] eqn:Hazure.
    + right. right. right. done.
    + simpl. split_and!; [done..|]. apply String.eqb_eq.
  - right. left. split_and!; [done | | done].
    intros Hvalid%ContainerNameCheck_test_spec. unfold checkContainerName in Hcheck.
    fold name in Hcheck. congruence.
Qed.

End construction.

End container_names.

(** ** Writing and deleting blobs *)

Section write_properties.
Import Blob BlobWrite.
Context {S V R : Type}.
Implicit Types (promise : V → Call S R) (values : list V) (s : S).

Lemma issue_cons promise value rest s :
  issue promise (value :: rest) s =
    ((promise value s).1 :: (issue promise rest (promise value s).2).1,
     (issue promise rest (promise value s).2).2).
Proof.
  cbn [issue]. destruct (promise value s) as [p s1]. cbn [fst snd].
  by destruct (issue promise rest s1).
Qed.

Lemma ResolvePromisesSerial_serial_from promise values s :
  ResolvePromisesSerial values promise s = serial_from promise [] values s.
Proof.
  unfold ResolvePromisesSerial.
  set (step := fun (reduced : Call S (list R)) value s =>
           let '(p, s) := reduced s in
           match p with
           | Fulfilled result =>
               let '(q, s) := promise value s in
               (and_then q (fun r => Fulfilled (result ++ [r])), s)
           | Pending => (Pending, s)
           | Failed e => (Failed e, s)
           end).
  assert (H : ∀ values (reduced : Call S (list R)) s,
            foldl step reduced values s =
              match reduced s with
              | (Fulfilled result, s1) => serial_from promise result values s1
              | (Pending, s1) => (Pending, s1)
              | (Failed e, s1) => (Failed e, s1)
              end).
  { clear values s. induction values as [|value rest IH]; intros reduced s.
    - simpl. by destruct (reduced s) as [[|result|e] s1].
    - cbn [foldl]. rewrite IH. unfold step.
      destruct (reduced s) as [[|result|e] s1]; [done| |done].
      cbn [serial_from].
      by destruct (promise value s1) as [[|r|e] s2]. }
  by rewrite H.
Qed.

Lemma serial_from_fulfilled promise values : ∀ result results s,
  (issue promise values s).1 = Fulfilled <$> results →
  serial_from promise result values s
    = (Fulfilled (result ++ results), (issue promise values s).2).
Proof.
  induction values as [|value rest IH]; intros result results s.
  - simpl. destruct results; [|done]. by rewrite app_nil_r.
  - rewrite issue_cons. cbn [fst snd serial_from].
    destruct results as [|r results]; [done|]. intros [= Hp Hrest].
    destruct (promise value s) as [p s1]. simpl in *. subst p.
    rewrite (IH _ results) by done. by rewrite <-app_assoc.
Qed.

Lemma serial_from_stops promise values : ∀ result results i p s,
  take i (issue promise values s).1 = Fulfilled <$> results →
  (issue promise values s).1 !! i = Some p →
  (∀ r, p ≠ Fulfilled r) →
  serial_from promise result values s
    = (match p with
       | Failed e => Failed e
       | _ => Pending
       end, (issue promise (take (Datatypes.S i) values) s).2).
Proof.
  induction values as [|value rest IH]; intros result results i p s; [done|].
  rewrite firstn_cons, !issue_cons. cbn [fst snd serial_from].
  destruct (promise value s) as [q s1] eqn:Hq. cbn [fst snd].
  destruct i as [|i].
  - intros _ [= ->] Hp. rewrite take_0. simpl.
    destruct p as [|r|e]; [done | by destruct (Hp r) | done].
  - destruct results as [|r results]; [done|]. intros [= -> Hrest] Hi Hp.
    simpl in Hi. by apply (IH _ results).
Qed.

(** X17.  [ResolvePromisesParallel] makes the call for every value, in
    order, whatever becomes of the calls.  Its promise is rejected when a
    call fails, with the error of a call that failed and before which, in
    time, no other call failed; it is never settled when no call fails and
    one is never settled.  [ResolvePromisesSerial] makes the call for a
    value only when the calls for all values before it are fulfilled: if a
    call fails, or is never settled, no call is made after it, and the
    promise fails with that error, or is never settled.  When all calls
    are fulfilled, both have made the same calls and resolve to the same
    results, in the order of the values. *)
Theorem ResolvePromises_calls settled promise values s :
  let outcomes := (issue promise values s).1 in
  let parallel := ResolvePromisesParallel settled values promise s in
  let serial := ResolvePromisesSerial values promise s in
  parallel.2 = (issue promise values s).2 ∧
  (∀ results, outcomes = Fulfilled <$> results →
     serial = (Fulfilled results, (issue promise values s).2) ∧
     parallel = serial) ∧
  (∀ e, parallel.1 = Failed e →
     ∃ i, outcomes !! i = Some (Failed e) ∧
          ∀ k e', outcomes !! k = Some (Failed e') → settled i ≤ settled k) ∧
  (∀ i e, outcomes !! i = Some (Failed e) → ∃ e', parallel.1 = Failed e') ∧
  ((∀ p e, p ∈ outcomes → p ≠ Failed e) → Pending ∈ outcomes →
     parallel.1 = Pending) ∧
  (∀ i results p,
     take i outcomes = Fulfilled <$> results →
     outcomes !! i = Some p → (∀ r, p ≠ Fulfilled r) →
     serial = (match p with Failed e => Failed e | _ => Pending end,
               (issue promise (take (Datatypes.S i) values) s).2)).
Proof.
  intros outcomes parallel serial.
  assert (Hpar : parallel = (all settled outcomes, (issue promise values s).2)).
  { unfold parallel, ResolvePromisesParallel, outcomes.
    by destruct (issue promise values s). }
  split_and!.
  - by rewrite Hpar.
  - intros results Hres. unfold serial.
    rewrite Hpar, ResolvePromisesSerial_serial_from.
    rewrite (serial_from_fulfilled _ _ [] results) by done. simpl.
    split; [done|]. f_equal. rewrite Hres. by apply all_fulfilled.
  - rewrite Hpar. intros e He. by apply all_failed in He.
  - rewrite Hpar. intros i e Hi. by apply (all_fails settled outcomes i e).
  - rewrite Hpar. intros Hnf Hp. by apply all_pending.
  - intros i results p Htake Hi Hp. unfold serial.
    rewrite ResolvePromisesSerial_serial_from.
    by apply (serial_from_stops _ _ [] results).
Qed.

End write_properties.

Lemma ResolvePromises_calls_witness :
  let promise := BlobWrite.createBlockBlobFromTextAsync
                   Fixture.recording_writer "state" in
  let blobs := blob_of Fixture.stringify_sample <$> Fixture.changes_sample in
  BlobWrite.ResolvePromisesParallel Fixture.last_first blobs promise []
    = (Blob.Failed "ConditionNotMet c", ["a"; "b"; "c"]) ∧
  (BlobWrite.ResolvePromisesParallel (fun i => i) blobs promise []).2
    = ["a"; "b"; "c"] ∧
  BlobWrite.ResolvePromisesSerial blobs promise []
    = (Blob.Failed "ConditionNotMet b", ["a"; "b"]).
Proof.
  split_and!.
  - reflexivity.
  - exact (proj1 (ResolvePromises_calls (fun i => i)
             (BlobWrite.createBlockBlobFromTextAsync Fixture.recording_writer "state")
             (blob_of Fixture.stringify_sample <$> Fixture.changes_sample) [])).
  - exact (proj2 (proj2 (proj2 (proj2 (proj2 (ResolvePromises_calls (fun i => i)
             (BlobWrite.createBlockBlobFromTextAsync Fixture.recording_writer "state")
             (blob_of Fixture.stringify_sample <$> Fixture.changes_sample) [])))))
             1 [tt] (Blob.Failed "ConditionNotMet b") eq_refl eq_refl
             (fun r H => eq_ind (Blob.Failed "ConditionNotMet b")
                           (fun p => match p with Blob.Failed _ => True | _ => False end)
                           I _ H)).
Defined.

Section storage_writes.
Import Blob BlobWrite.
Context {S : Type}.
Variable client : BlobService.
Variable writer : BlobWriter S.
Variable stringify : string → string → StoreItem → string.
Variable containerName : string.
Variable useEmulator : bool.
Variable settled : nat → nat.

Lemma blobs_of_nonempty changes :
  Forall (fun change => change.1 ≠ "") changes →
  blobs_of stringify changes = inr (blob_of stringify <$> changes).
Proof.
  induction 1 as [|[key item] changes Hkey _ IH]; [done|].
  cbn [blobs_of]. simpl in Hkey.
  by rewrite sanitizeKey_blob_name, IH by done.
Qed.

Lemma blobs_of_empty_key changes :
  Exists (fun change => change.1 = "") changes →
  blobs_of stringify changes = inl "Please provide a not empty key.".
Proof.
  induction changes as [|[key item] changes IH]; intros Hex.
  - by apply Exists_nil in Hex.
  - cbn [blobs_of]. destruct (decide (key = "")) as [->|Hne]; [done|].
    rewrite sanitizeKey_blob_name by done.
    apply Exists_cons in Hex as [Hex|Hex]; [done|]. by rewrite IH.
Qed.

(** X18.  Once the container is there, [write] first makes the blob of
    every change: named after the key as [sanitizeKey] has it, with the
    text that [JSON.stringify] gives the name, the key and the item, to be
    written on condition of the etag of the item.  If a key is empty, the
    promise is rejected with "Please provide a not empty key." and no blob
    is written, not even for the changes before it.  Otherwise, when the
    service fulfils every write, the promise resolves and the blobs were
    written in the order of the changes.  Outside the emulator, every
    write is asked for, whatever becomes of the others, and the promise is
    rejected when a write fails, with the error of a write that failed
    and before which, in time, no other write failed.  On the emulator, a
    write that fails is the last one asked for, and its error rejects the
    promise. *)
Theorem write_changes changes checkedCollections s c :
  (ensureContainerExists client containerName checkedCollections).1
    = Promised (Fulfilled c) →
  let kept := (ensureContainerExists client containerName checkedCollections).2 in
  let promise := createBlockBlobFromTextAsync writer (container_name c) in
  let blobs := blob_of stringify <$> changes in
  let outcomes := (issue promise blobs s).1 in
  let written := write client writer stringify containerName useEmulator settled
                       (Some changes) checkedCollections s in
  (Exists (fun change => change.1 = "") changes →
     written = (inr (Failed "Please provide a not empty key."), kept, s)) ∧
  (Forall (fun change => change.1 ≠ "") changes →
     (∀ results, outcomes = Fulfilled <$> results →
        written = (inr (Fulfilled tt), kept, (issue promise blobs s).2)) ∧
     (useEmulator = false →
        written.1.2 = kept ∧ written.2 = (issue promise blobs s).2 ∧
        (∀ e, written.1.1 = inr (Failed e) →
           ∃ i, outcomes !! i = Some (Failed e) ∧
                ∀ k e', outcomes !! k = Some (Failed e') → settled i ≤ settled k) ∧
        (∀ i e, outcomes !! i = Some (Failed e) →
           ∃ e', written.1.1 = inr (Failed e'))) ∧
     (useEmulator = true →
        ∀ i results e,
          take i outcomes = Fulfilled <$> results →
          outcomes !! i = Some (Failed e) →
          written = (inr (Failed e), kept,
                     (issue promise (take (Datatypes.S i) blobs) s).2))).
Proof.
  intros Hc kept promise blobs outcomes written.
  unfold written, write, kept.
  destruct (ensureContainerExists client containerName checkedCollections)
    as [p cache]. simpl in Hc. subst p. cbn [snd].
  split.
  - intros Hex. by rewrite blobs_of_empty_key.
  - intros Hall. rewrite blobs_of_nonempty by done. fold blobs promise.
    split_and!.
    + intros results Hres.
      destruct useEmulator.
      * rewrite ResolvePromisesSerial_serial_from.
        by rewrite (serial_from_fulfilled _ _ [] results).
      * unfold ResolvePromisesParallel.
        destruct (issue promise blobs s) as [ps s1] eqn:Hi. simpl in *.
        subst outcomes. simpl in Hres. rewrite Hres.
        by rewrite (proj2 (all_fulfilled settled _ results) eq_refl).
    + intros ->. unfold ResolvePromisesParallel, outcomes.
      destruct (issue promise blobs s) as [ps s1]. cbn [fst snd].
      split_and!; [done | done | |].
      * intros e [= He]. destruct (all settled ps) as [|rs|e1] eqn:Ha; [done..|].
        simpl in He. injection He as ->. by apply all_failed in Ha.
      * intros i e Hi. destruct (all_fails settled ps i e Hi) as [e' ->].
        by exists e'.
    + intros -> i results e Htake Hi.
      rewrite ResolvePromisesSerial_serial_from.
      by rewrite (serial_from_stops _ _ [] results i (Failed e)).
Qed.

(** X19.  [delete] with an array of keys throws in one case only: when
    what [ensureContainerExists] returns is not a promise (no promise kept
    for the container name, and the name one that every object inherits);
    then nothing is deleted.  When the promise for the container is not
    fulfilled, nothing is deleted and the promise of [delete] ends as
    that one.  Otherwise the service is asked, once for each key that is
    not empty and in their order, to delete the blob named after the key,
    whatever becomes of the other deletions; when the service fulfils
    them all the promise resolves, and so it does with no key to delete;
    when a deletion fails the promise is rejected, with the error of a
    deletion that failed and before which, in time, no other failed. *)
Theorem delete_blobs keys checkedCollections s :
  let names := blob_name <$> filter (fun k => k ≠ "") keys in
  let found := (ensureContainerExists client containerName checkedCollections).1 in
  let kept := (ensureContainerExists client containerName checkedCollections).2 in
  let deleted := delete client writer containerName settled
                        (Some keys) checkedCollections s in
  match found with
  | Promised (Fulfilled c) =>
      let calls := issue (deleteBlobIfExistsAsync writer (container_name c)) names s in
      deleted.1.2 = kept ∧ deleted.2 = calls.2 ∧
      (∀ results, calls.1 = Fulfilled <$> results →
         deleted.1.1 = inr (Fulfilled tt)) ∧
      (names = [] → deleted = (inr (Fulfilled tt), kept, s)) ∧
      (∀ e, deleted.1.1 = inr (Failed e) →
         ∃ i, calls.1 !! i = Some (Failed e) ∧
              ∀ k e', calls.1 !! k = Some (Failed e') → settled i ≤ settled k) ∧
      (∀ i e, calls.1 !! i = Some (Failed e) →
         ∃ e', deleted.1.1 = inr (Failed e'))
  | Promised Pending => deleted = (inr Pending, kept, s)
  | Promised (Failed e) => deleted = (inr (Failed e), kept, s)
  | Inherited _ => deleted = (inl TypeError_then, kept, s)
  end.
Proof.
  intros names found kept deleted.
  unfold deleted, delete, found, kept.
  rewrite sanitize_all_filtered. fold names.
  destruct (ensureContainerExists client containerName checkedCollections)
    as [[[|c|e]|name] cache]; cbn [fst snd]; [done| |done|done].
  destruct (issue (deleteBlobIfExistsAsync writer (container_name c)) names s)
    as [ps s1] eqn:Hi. cbn [fst snd].
  split_and!.
  - done.
  - done.
  - intros results ->. by rewrite (proj2 (all_fulfilled settled _ results) eq_refl).
  - intros Hn. rewrite Hn in Hi. by injection Hi as <- <-.
  - intros e [= He]. destruct (all settled ps) as [|rs|e1] eqn:Ha; [done..|].
    simpl in He. injection He as ->. by apply all_failed in Ha.
  - intros i e Hj. destruct (all_fails settled ps i e Hj) as [e' ->]. by exists e'.
Qed.

End storage_writes.

Lemma write_changes_witness :
  (Blob.ensureContainerExists Sample.empty_service "state" ∅).1
    = Blob.Promised (Blob.Fulfilled {| Blob.container_name := "state" |}) ∧
  BlobWrite.write Sample.empty_service Fixture.recording_writer
                  Fixture.stringify_sample "state" true Fixture.last_first
                  (Some Fixture.changes_sample) ∅ []
    = (inr (Blob.Failed "ConditionNotMet b"),
       {[ "state" := Blob.Fulfilled {| Blob.container_name := "state" |} ]},
       ["a"; "b"]).
Proof.
  split; [reflexivity|].
  exact (proj2 (proj2 (proj2 (write_changes Sample.empty_service
           Fixture.recording_writer Fixture.stringify_sample "state" true
           Fixture.last_first
           Fixture.changes_sample ∅ [] {| Blob.container_name := "state" |} eq_refl)
           ltac:(repeat constructor; discriminate)))
           eq_refl 1 [tt] "ConditionNotMet b" eq_refl eq_refl).
Defined.

(** Outside the emulator the same changes are all asked for, and with the
    write of "c" rejected before that of "b" the promise is rejected with
    the error of "c".  With the container name "constructor", [write] and
    [delete] throw and nothing is asked of the service. *)
Example write_delete_samples :
  BlobWrite.write Sample.empty_service Fixture.recording_writer
                  Fixture.stringify_sample "state" false Fixture.last_first
                  (Some Fixture.changes_sample) ∅ []
    = (inr (Blob.Failed "ConditionNotMet c"),
       {[ "state" := Blob.Fulfilled {| Blob.container_name := "state" |} ]},
       ["a"; "b"; "c"]) ∧
  BlobWrite.write Sample.empty_service Fixture.recording_writer
                  Fixture.stringify_sample "constructor" false Fixture.last_first
                  (Some Fixture.changes_sample) ∅ []
    = (inl Blob.TypeError_then, ∅, []) ∧
  BlobWrite.delete Sample.empty_service Fixture.recording_writer
                   "constructor" Fixture.last_first (Some ["a"]) ∅ []
    = (inl Blob.TypeError_then, ∅, []).
Proof. split_and!; reflexivity. Qed.

(** ** Interceptors that change what is sent *)

Section rewriting_properties.
Implicit Types (h : heap) (o : loc) (f : string) (v : val).

Lemma get_put_loc_ne h l f v l' f' :
  l ≠ l' → get (put h l f v) l' f' = get h l' f'.
Proof. intros Hne. unfold get, fields_of. by rewrite lookup_put_ne. Qed.

Lemma put_all_preserves f v os : ∀ h o,
  is_obj h o → get h o f = v →
  get (foldl (fun h o => put h o f v) h os) o f = v.
Proof.
  induction os as [|o1 os IH]; intros h o Ho Hv; [done|]. simpl.
  apply IH; [by apply is_obj_put|].
  destruct (decide (o1 = o)) as [->|Hne];
    [by apply get_put_eq | by rewrite get_put_loc_ne].
Qed.

Lemma put_all_get f v os : ∀ h o,
  o ∈ os → is_obj h o → get (foldl (fun h o => put h o f v) h os) o f = v.
Proof.
  induction os as [|o1 os IH]; intros h o Hin Ho.
  - by apply elem_of_nil in Hin.
  - simpl. destruct (decide (o = o1)) as [->|Hne].
    + apply put_all_preserves; [by apply is_obj_put | by apply get_put_eq].
    + apply elem_of_cons in Hin as [?|Hin]; [done|].
      apply IH; [done | by apply is_obj_put].
Qed.

Lemma put_all_kept f v os h0 : ∀ h,
  Forall (fun o => length h0 ≤ o) os → kept h0 h →
  kept h0 (foldl (fun h o => put h o f v) h os).
Proof.
  induction os as [|o1 os IH]; intros h Hos K; [done|]. simpl.
  apply Forall_cons in Hos as [Ho1 Hos]. apply IH; [done|].
  intros l Hl. rewrite lookup_put_ne by lia. by apply K.
Qed.

Lemma run_set_all {R} f v os (k : Action R) next w :
  run (foldr (fun o k => SetProperty o f v k) k os) next w =
    run k next (with_store w (foldl (fun h o => put h o f v) (store w) os)).
Proof.
  revert w. induction os as [|o os IH]; intros w; simpl.
  - by destruct w.
  - by rewrite IH.
Qed.

(** X20.  What an interceptor writes into the outgoing activities before
    [next()] is what the adapter is called with, and it does not reach the
    activities of the caller: with an interceptor registered that sets a
    property of every outgoing activity, the adapter is called once, with
    as many activities as were given, each with that property set to the
    interceptor's value in the store the adapter sees; the activities that
    were passed to [sendActivities], and every other object that was in
    the store, are unchanged. *)
Theorem sendActivities_rewriting w f v activities :
  _onSendActivities (context w) = [rewriting f v] →
  Forall (fun a => a < length (store w)) activities →
  let r := sendActivities activities w in
  ∃ output,
    let outcome := adapter_sendActivities (adapter w) (store r.2) output in
    r.1 = settle outcome ∧
    log r.2 = log w ++ [TransportSend output outcome] ∧
    length output = length activities ∧
    Forall (fun o => get (store r.2) o f = v) output ∧
    kept (store w) (store r.2).
Proof.
  intros Hh Hall.
  destruct (prepare_spec activities w Hall) as (ref & h1 & E & Hout & Hstore & Hr & Hall1).
  apply getConversationReference_spec in E as (P & _).
  destruct (stamp_all_spec h1 ref activities Hr Hall1) as (L1 & L2 & K & Hi).
  unfold sendActivities.
  destruct (prepare_world activities w) as [Hc Hl].
  destruct (prepare activities w) as [output w0]. simpl in Hc, Hl, Hout, Hstore.
  cbv beta iota zeta. unfold emit. rewrite Hc, Hh. cbn [emitNext].
  unfold rewriting. rewrite run_set_all. cbn [run].
  set (h2 := foldl (fun h o => put h o f v) (store w0) output).
  destruct (transport_send_cases output (with_store w0 h2)) as (Hst & Hlog & Hcase).
  unfold adapter in *. simpl in Hst, Hlog, Hcase. rewrite Hc in Hcase, Hlog.
  exists output.
  destruct (transport_send output (with_store w0 h2)) as [o w1].
  simpl in Hst, Hlog, Hcase.
  assert (Hfacts :
            length output = length activities ∧
            Forall (fun o => get h2 o f = v) output ∧ kept (store w) h2).
  { unfold h2. rewrite Hstore. subst output. split_and!.
    - done.
    - apply Forall_forall. intros o' Hin. apply put_all_get; [done|].
      apply list_elem_of_lookup in Hin as [i Hi'].
      assert (is_Some (activities !! i)) as [a Ha].
      { apply lookup_lt_is_Some. rewrite <-L1. by eapply lookup_lt_Some. }
      by destruct (Hi i a o' Ha Hi') as (_ & Ho & _).
    - apply put_all_kept.
      + apply Forall_forall. intros o' Hin.
        apply list_elem_of_lookup in Hin as [i Hi'].
        assert (is_Some (activities !! i)) as [a Ha].
        { apply lookup_lt_is_Some. rewrite <-L1. by eapply lookup_lt_Some. }
        destruct (Hi i a o' Ha Hi') as (-> & _). apply prefix_length in P. lia.
      + apply (kept_trans _ h1); [by apply kept_prefix | done |].
        by apply prefix_length. }
  destruct Hfacts as (F1 & F2 & F3).
  destruct (adapter_sendActivities (_adapter (context w)) h2 output)
    as [rs|e|e] eqn:Ea; destruct Hcase as [-> Hw1]; simpl; rewrite Hst, Ea;
    (split_and!; [done | by rewrite Hlog, Hl | done | done | done]).
Qed.

Lemma sendActivities_rewriting_witness :
  let w := onSendActivities (rewriting "locale" (VString "fr")) Sample.world0 in
  _onSendActivities (context w) = [rewriting "locale" (VString "fr")] ∧
  Forall (fun a => a < length (store w)) [4] ∧
  ∃ output,
    (sendActivities [4] w).1 = Resolved [{| id := "r" |}] ∧
    Forall (fun o => get (store (sendActivities [4] w).2) o "locale" = VString "fr")
           output ∧
    length output = 1.
Proof.
  assert (Hall : Forall (fun a => a < length (store Sample.world0)) [4]).
  { constructor; [simpl; lia | constructor]. }
  split_and!; [reflexivity | exact Hall |].
  destruct (sendActivities_rewriting
              (onSendActivities (rewriting "locale" (VString "fr")) Sample.world0)
              "locale" (VString "fr") [4] eq_refl Hall)
    as (output & Hres & _ & Hlen & Hset & _).
  exists output. destruct output as [|o [|? ?]]; try discriminate Hlen.
  split_and!; [exact Hres | exact Hset | reflexivity].
Defined.

End rewriting_properties.

(** ** Applying a reference twice *)

Section reference_properties.
Implicit Types (h : heap) (a r l : loc) (f : string).

Lemma put_not_obj h l f v : ¬ is_obj h l → put h l f v = h.
Proof.
  intros Hn. unfold put. destruct (h !! l) as [[m|vs]|] eqn:Hl; [|done..].
  destruct Hn. by exists m.
Qed.

Lemma applyConversationReference_not_obj h a r inc :
  ¬ is_obj h a → (applyConversationReference h a r inc).2 = h.
Proof.
  intros Hn. unfold applyConversationReference.
  destruct inc; simpl;
    repeat match goal with |- context [if ?b then _ else _] => destruct b end;
    by repeat rewrite (put_not_obj h) by done.
Qed.

Lemma is_obj_dec h l : is_obj h l ∨ ¬ is_obj h l.
Proof.
  unfold is_obj. destruct (h !! l) as [[m|vs]|]; [left; by exists m | right..];
    by intros [m [=]].
Qed.

Lemma applyConversationReference_reads h a r inc f :
  f ∈ ["channelId"; "serviceUrl"; "conversation"; "user"; "bot"; "activityId"] →
  get (applyConversationReference h a r inc).2 r f = get h r f.
Proof.
  intros Hf. destruct (decide (r = a)) as [->|Hne].
  - destruct (is_obj_dec h a) as [Ho|Hn];
      [|by rewrite applyConversationReference_not_obj].
    destruct (applyConversationReference_get h a a inc Ho) as (G1 & G2 & G3 & _).
    repeat (apply elem_of_cons in Hf as [->|Hf]); [done | done | done | | | |].
    + apply applyConversationReference_get_other. not_in_list.
    + apply applyConversationReference_get_other. not_in_list.
    + apply applyConversationReference_get_other. not_in_list.
    + by apply elem_of_nil in Hf.
  - unfold get, fields_of. by rewrite applyConversationReference_frame.
Qed.

(** X21.  Applying a reference to an activity a second time changes
    nothing: after [applyConversationReference(activity, reference,
    isIncoming)], the same call again leaves every property of every
    object as it is, in either direction, also when the activity and the
    reference are one object. *)
Theorem applyConversationReference_idempotent h a r inc :
  let h1 := (applyConversationReference h a r inc).2 in
  let h2 := (applyConversationReference h1 a r inc).2 in
  (applyConversationReference h1 a r inc).1 = a ∧
  length h2 = length h1 ∧
  ∀ l f, get h2 l f = get h1 l f.
Proof.
  intros h1 h2. split_and!.
  - apply applyConversationReference_returns.
  - unfold h2. by rewrite applyConversationReference_length.
  - intros l f. unfold h2.
    destruct (decide (l = a)) as [->|Hne];
      [|unfold get, fields_of; by rewrite applyConversationReference_frame].
    destruct (is_obj_dec h a) as [Ho|Hn].
    2:{ unfold h1. rewrite (applyConversationReference_not_obj h) by done.
        by rewrite applyConversationReference_not_obj. }
    assert (Ho1 : is_obj h1 a) by (by apply applyConversationReference_is_obj).
    pose proof (applyConversationReference_reads h a r inc) as Hr. fold h1 in Hr.
    destruct (applyConversationReference_get h a r inc Ho)
      as (A1 & A2 & A3 & A4 & A5 & A6 & A7).
    destruct (applyConversationReference_get h1 a r inc Ho1)
      as (B1 & B2 & B3 & B4 & B5 & B6 & B7).
    fold h1 in A1, A2, A3, A4, A5, A6, A7. cbv zeta in B1, B2, B3, B4, B5, B6, B7.
    rewrite Hr in B1, B2, B3 by in_list. 
    destruct (decide (f ∈ ["channelId"; "serviceUrl"; "conversation"; "from";
                           "recipient"; "id"; "replyToId"])) as [Hf|Hf];
      [|by apply applyConversationReference_get_other].
    destruct inc; rewrite !Hr in B4, B5, B6 by in_list;
      repeat (apply elem_of_cons in Hf as [->|Hf]);
      try (by apply elem_of_nil in Hf); try congruence.
    + rewrite B6, A6. by destruct (truthy (get h r "activityId")).
    + rewrite B6, A6. by destruct (truthy (get h r "activityId")).
Qed.

End reference_properties.
